(** * QR Code encoder: Reed–Solomon coding, block interleaving, padding,
      version and mask selection, text renderings.

    A shallow embedding of the Go packages [reedsolomon] (gf.go,
    reed_solomon.go) and [qrcode] (qrcode.go), with the properties of the
    design document proved or refuted on it.

    Conventions.
    - A Go [int] and a [gfElement] (uint8) are integers of [Z]; the range
      of a field element is the predicate [is_gf].
    - A Go panic ([log.Panic], an index out of range) is the [Panic]
      outcome of the type [result]; a returned [error] is a value.
    - A bit stream is the list of its bits, first bit first. Where a claim
      is about aliasing, bit streams live in a store ([gmap loc Bits]). *)

From Stdlib Require Import ZArith List Bool Lia.
From stdpp Require Import base option list gmap strings.
From Equations Require Import Equations.

Local Open Scope Z_scope.

(** ** Outcomes of Go code that may panic *)

Inductive result (A : Type) : Type :=
| Ok (a : A)
| Panic (msg : string).
Arguments Ok {A} a.
Arguments Panic {A} msg.

Definition rbind {A B} (r : result A) (k : A -> result B) : result B :=
  match r with
  | Ok a => k a
  | Panic m => Panic m
  end.

Notation "'let*' x ':=' r 'in' k" := (rbind r (fun x => k))
  (at level 10, x name, r at level 100, k at level 200).

Definition is_ok {A} (r : result A) : Prop := exists a, r = Ok a.
Definition panics {A} (r : result A) : Prop := exists m, r = Panic m.

(** Reading [t[i]] where the index is known to be in range. *)
Definition at_ (t : list Z) (i : Z) : Z := nth (Z.to_nat i) t 0.

(** Reading [t[i]] with Go's bounds check. *)
Definition index (t : list Z) (i : Z) : result Z :=
  if (0 <=? i) && (i <? Z.of_nat (length t))
  then Ok (at_ t i)
  else Panic "index out of range".

(** The integers [0, 1, ..., n-1]. *)
Definition zrange (n : nat) : list Z := map Z.of_nat (seq 0 n).

(** ** Package reedsolomon, gf.go: arithmetic in GF(2^8) *)

Abbreviation gfElement := Z (only parsing).

Definition is_gf (a : gfElement) : Prop := 0 <= a < 256.

Definition all_gf (p : list gfElement) : Prop := Forall is_gf p.

Definition gfZero : gfElement := 0.
Definition gfOne : gfElement := 1.

Definition gfExpTable : list gfElement :=
  [ (*   0 -   9 *) 1; 2; 4; 8; 16; 32; 64; 128; 29; 58;
    (*  10 -  19 *) 116; 232; 205; 135; 19; 38; 76; 152; 45; 90;
    (*  20 -  29 *) 180; 117; 234; 201; 143; 3; 6; 12; 24; 48;
    (*  30 -  39 *) 96; 192; 157; 39; 78; 156; 37; 74; 148; 53;
    (*  40 -  49 *) 106; 212; 181; 119; 238; 193; 159; 35; 70; 140;
    (*  50 -  59 *) 5; 10; 20; 40; 80; 160; 93; 186; 105; 210;
    (*  60 -  69 *) 185; 111; 222; 161; 95; 190; 97; 194; 153; 47;
    (*  70 -  79 *) 94; 188; 101; 202; 137; 15; 30; 60; 120; 240;
    (*  80 -  89 *) 253; 231; 211; 187; 107; 214; 177; 127; 254; 225;
    (*  90 -  99 *) 223; 163; 91; 182; 113; 226; 217; 175; 67; 134;
    (* 100 - 109 *) 17; 34; 68; 136; 13; 26; 52; 104; 208; 189;
    (* 110 - 119 *) 103; 206; 129; 31; 62; 124; 248; 237; 199; 147;
    (* 120 - 129 *) 59; 118; 236; 197; 151; 51; 102; 204; 133; 23;
    (* 130 - 139 *) 46; 92; 184; 109; 218; 169; 79; 158; 33; 66;
    (* 140 - 149 *) 132; 21; 42; 84; 168; 77; 154; 41; 82; 164;
    (* 150 - 159 *) 85; 170; 73; 146; 57; 114; 228; 213; 183; 115;
    (* 160 - 169 *) 230; 209; 191; 99; 198; 145; 63; 126; 252; 229;
    (* 170 - 179 *) 215; 179; 123; 246; 241; 255; 227; 219; 171; 75;
    (* 180 - 189 *) 150; 49; 98; 196; 149; 55; 110; 220; 165; 87;
    (* 190 - 199 *) 174; 65; 130; 25; 50; 100; 200; 141; 7; 14;
    (* 200 - 209 *) 28; 56; 112; 224; 221; 167; 83; 166; 81; 162;
    (* 210 - 219 *) 89; 178; 121; 242; 249; 239; 195; 155; 43; 86;
    (* 220 - 229 *) 172; 69; 138; 9; 18; 36; 72; 144; 61; 122;
    (* 230 - 239 *) 244; 245; 247; 243; 251; 235; 203; 139; 11; 22;
    (* 240 - 249 *) 44; 88; 176; 125; 250; 233; 207; 131; 27; 54;
    (* 250 - 255 *) 108; 216; 173; 71; 142; 1 ].

Definition gfLogTable : list Z :=
  [ (*   0 -   9 *) -1; 0; 1; 25; 2; 50; 26; 198; 3; 223;
    (*  10 -  19 *) 51; 238; 27; 104; 199; 75; 4; 100; 224; 14;
    (*  20 -  29 *) 52; 141; 239; 129; 28; 193; 105; 248; 200; 8;
    (*  30 -  39 *) 76; 113; 5; 138; 101; 47; 225; 36; 15; 33;
    (*  40 -  49 *) 53; 147; 142; 218; 240; 18; 130; 69; 29; 181;
    (*  50 -  59 *) 194; 125; 106; 39; 249; 185; 201; 154; 9; 120;
    (*  60 -  69 *) 77; 228; 114; 166; 6; 191; 139; 98; 102; 221;
    (*  70 -  79 *) 48; 253; 226; 152; 37; 179; 16; 145; 34; 136;
    (*  80 -  89 *) 54; 208; 148; 206; 143; 150; 219; 189; 241; 210;
    (*  90 -  99 *) 19; 92; 131; 56; 70; 64; 30; 66; 182; 163;
    (* 100 - 109 *) 195; 72; 126; 110; 107; 58; 40; 84; 250; 133;
    (* 110 - 119 *) 186; 61; 202; 94; 155; 159; 10; 21; 121; 43;
    (* 120 - 129 *) 78; 212; 229; 172; 115; 243; 167; 87; 7; 112;
    (* 130 - 139 *) 192; 247; 140; 128; 99; 13; 103; 74; 222; 237;
    (* 140 - 149 *) 49; 197; 254; 24; 227; 165; 153; 119; 38; 184;
    (* 150 - 159 *) 180; 124; 17; 68; 146; 217; 35; 32; 137; 46;
    (* 160 - 169 *) 55; 63; 209; 91; 149; 188; 207; 205; 144; 135;
    (* 170 - 179 *) 151; 178; 220; 252; 190; 97; 242; 86; 211; 171;
    (* 180 - 189 *) 20; 42; 93; 158; 132; 60; 57; 83; 71; 109;
    (* 190 - 199 *) 65; 162; 31; 45; 67; 216; 183; 123; 164; 118;
    (* 200 - 209 *) 196; 23; 73; 236; 127; 12; 111; 246; 108; 161;
    (* 210 - 219 *) 59; 82; 41; 157; 85; 170; 251; 96; 134; 177;
    (* 220 - 229 *) 187; 204; 62; 90; 203; 89; 95; 176; 156; 169;
    (* 230 - 239 *) 160; 81; 11; 245; 22; 235; 122; 117; 44; 215;
    (* 240 - 249 *) 79; 174; 213; 233; 230; 231; 173; 232; 116; 214;
    (* 250 - 255 *) 244; 234; 168; 80; 88; 175 ].

(** [gfAdd] returns a + b. *)
Definition gfAdd (a b : gfElement) : gfElement := Z.lxor a b.

(** [gfSub] returns a - b; addition and subtraction coincide. *)
Definition gfSub (a b : gfElement) : gfElement := Z.lxor a b.

(** [gfMultiply] returns a * b. Both indices of the log table are bytes,
    and the index of the exp table is a remainder modulo 255. *)
Definition gfMultiply (a b : gfElement) : gfElement :=
  if (a =? gfZero) || (b =? gfZero) then gfZero
  else at_ gfExpTable ((at_ gfLogTable a + at_ gfLogTable b) mod 255).

(** [gfInverse] returns a^-1, and panics on zero. *)
Definition gfInverse (a : gfElement) : result gfElement :=
  if a =? gfZero then Panic "No multiplicative inverse of 0"
  else Ok (at_ gfExpTable (255 - at_ gfLogTable a)).

(** [gfDivide] returns a / b. The test of [a] comes first. *)
Definition gfDivide (a b : gfElement) : result gfElement :=
  if a =? gfZero then Ok gfZero
  else if b =? gfZero then Panic "Divide by zero"
  else let* inv := gfInverse b in Ok (gfMultiply a inv).

(** *** The field the tables are meant to tabulate

    Written from the design document: GF(2^8) is GF(2)[x] modulo
    x^8 + x^4 + x^3 + x^2 + 1 (the integer 285), with generator alpha = x
    (the integer 2). [xtime] multiplies by x and reduces; [alpha_pow i] is
    alpha^i; [pmul] is the product of two residues, one addend per bit of
    the second factor. *)

Definition gfModulus : Z := 285.

Definition xtime (a : Z) : Z :=
  let s := Z.shiftl a 1 in
  if Z.testbit s 8 then Z.lxor s gfModulus else s.

Fixpoint alpha_pow (i : nat) : Z :=
  match i with
  | O => 1
  | S j => xtime (alpha_pow j)
  end.

Fixpoint pmul_bits (n : nat) (a b : Z) : Z :=
  match n with
  | O => 0
  | S m =>
      Z.lxor (if Z.testbit b 0 then a else 0)
             (pmul_bits m (xtime a) (Z.shiftr b 1))
  end.

Definition pmul (a b : Z) : Z := pmul_bits 8 a b.

(** *** The generator polynomial as a product

    Written from the design document: G(x) is the product of the factors
    (x + alpha^i), i = 0, ..., n-1, computed with the field operations
    above and not with the tables. A polynomial is the list of its
    coefficients, constant term first; [xorLists] is the sum of two
    polynomials, and [timesLinear p c] is p (x + c) = x p + c p. *)

Fixpoint xorLists (a b : list Z) : list Z :=
  match a, b with
  | [], _ => b
  | _, [] => a
  | x :: a', y :: b' => Z.lxor x y :: xorLists a' b'
  end.

Definition timesLinear (p : list Z) (c : Z) : list Z :=
  xorLists (0 :: p) (map (pmul c) p).

Fixpoint generatorProduct (n : nat) : list Z :=
  match n with
  | O => [1]
  | S m => timesLinear (generatorProduct m) (alpha_pow m)
  end.

(** ** Package bitset: bit streams as values *)

Definition Bits := list bool.

(** Modelled from the spec: the package bitset is not among the sources.
    Section 4.A of the design document: a bit stream is an append-only
    sequence of bits, with its length, the appending of [n] copies of a
    bit, of another stream and of raw bytes (most significant bit first),
    the extraction of the sub-range [start, end) as an independent stream,
    a clone, and the packing to bytes (most significant bit first, the last
    byte padded on the right with zeros). *)
Definition Len (b : Bits) : Z := Z.of_nat (length b).

(** Modelled from the spec: the package bitset is not among the sources.
    Appending [num] copies of a bit. *)
Definition AppendNumBools (b : Bits) (num : Z) (value : bool) : Bits :=
  b ++ repeat value (Z.to_nat num).

(** Modelled from the spec: the package bitset is not among the sources.
    Appending another stream. *)
Definition Append (b other : Bits) : Bits := b ++ other.

(** The eight bits of a byte, most significant bit first. *)
Definition byteBits (v : Z) : Bits :=
  map (fun i => Z.testbit v (Z.of_nat i)) [7; 6; 5; 4; 3; 2; 1; 0]%nat.

(** Modelled from the spec: the package bitset is not among the sources.
    Appending raw bytes, most significant bit first per byte. *)
Definition AppendBytes (b : Bits) (data : list Z) : Bits :=
  b ++ concat (map byteBits data).

(** Modelled from the spec: the package bitset is not among the sources.
    The clone of a stream, as a value, is the stream. *)
Definition Clone (b : Bits) : Bits := b.

(** Modelled from the spec: the package bitset is not among the sources.
    The sub-range [start, end) as an independent stream. The design
    document gives no meaning to a sub-range that leaves the stream; the
    model makes it a panic, so that a result proved for a caller also shows
    that its ranges are within the stream. *)
Definition Substr (b : Bits) (start end_ : Z) : result Bits :=
  if (0 <=? start) && (start <=? end_) && (end_ <=? Len b)
  then Ok (firstn (Z.to_nat (end_ - start)) (skipn (Z.to_nat start) b))
  else Panic "out of range".

(** The integer of a run of bits, most significant bit first. *)
Definition bitsValue (l : Bits) : Z :=
  fold_left (fun acc (x : bool) => 2 * acc + (if x then 1 else 0)) l 0.

Definition numBytes (b : Bits) : nat := Nat.div (length b + 7) 8.

Definition byteAt (b : Bits) (k : nat) : Z :=
  let chunk := firstn 8 (skipn (8 * k) b) in
  bitsValue (chunk ++ repeat false (8 - length chunk)).

(** Modelled from the spec: the package bitset is not among the sources.
    The stream packed into bytes, most significant bit first, the last byte
    padded on the right with zeros. *)
Definition Bytes (b : Bits) : list Z := map (byteAt b) (seq 0 (numBytes b)).

(** ** Package reedsolomon: polynomials over GF(2^8) *)

(** [term[i]] is the coefficient of x^i. *)
Record gfPoly : Type := { term : list gfElement }.

Definition coef (p : list gfElement) (i : nat) : gfElement := nth i p 0.

Definition numTerms (p : gfPoly) : nat := length (term p).

(** The sum, in GF(2^8), of [f 0], ..., [f (n-1)]. *)
Fixpoint gfSum (f : nat -> gfElement) (n : nat) : gfElement :=
  match n with
  | O => gfZero
  | S m => gfAdd (gfSum f m) (f m)
  end.

(** Modelled from the spec: gf_poly.go is not among the sources. Section
    4.C of the design document: from bytes, the polynomial whose
    coefficients in descending degree order are the input bytes, so the
    first byte is the coefficient of the highest degree. *)
Definition newGFPolyFromData (data : Bits) : gfPoly :=
  {| term := rev (Bytes data) |}.

(** Modelled from the spec: gf_poly.go is not among the sources.
    [monomial(c, d)] is c x^d. *)
Definition newGFPolyMonomial (c : gfElement) (degree : Z) : gfPoly :=
  {| term := repeat gfZero (Z.to_nat degree) ++ [c] |}.

(** The coefficient of x^k in the product of [a] and [b]: the sum of the
    products a_i b_(k-i). *)
Definition convCoef (a b : list gfElement) (k : nat) : gfElement :=
  gfSum (fun i => gfMultiply (coef a i) (coef b (k - i))) (S k).

(** Modelled from the spec: gf_poly.go is not among the sources.
    Schoolbook convolution in GF(2^8); the result has len(a) + len(b) - 1
    terms. *)
Definition gfPolyMultiply (a b : gfPoly) : gfPoly :=
  {| term := map (convCoef (term a) (term b))
                 (seq 0 (numTerms a + numTerms b - 1)) |}.

(** [r] with [s] x^d added: [r[d + j] ^= s[j]]. *)
Definition xorShifted (r : list gfElement) (d : nat) (s : list gfElement)
  : list gfElement :=
  map (fun i => gfAdd (coef r i) (if (d <=? i)%nat then coef s (i - d) else 0))
      (seq 0 (length r)).

(** One step of the long division: [b] times the leading coefficient of
    the residue is XORed in, aligned at the leading term, which then
    leaves the residue. *)
Definition remainderStep (b r : list gfElement) : list gfElement :=
  let c := coef r (length r - 1) in
  let d := (length r - length b)%nat in
  firstn (length r - 1) (xorShifted r d (map (gfMultiply c) b)).

Fixpoint remainderSteps (b r : list gfElement) (steps : nat)
  : list gfElement :=
  match steps with
  | O => r
  | S s => remainderSteps b (remainderStep b r) s
  end.

(** Modelled from the spec: gf_poly.go is not among the sources. Long
    division of [a] by [b]: deg(a) - deg(b) + 1 steps, each multiplying
    [b] by the leading coefficient of the current residue and XORing. The
    result has at most deg(b) terms. *)
Definition gfPolyRemainder (a b : gfPoly) : gfPoly :=
  {| term := remainderSteps (term b) (term a) (S (numTerms a) - numTerms b) |}.

(** Modelled from the spec: gf_poly.go is not among the sources. The top
    [n] coefficients as bytes in descending degree order, padded with
    zeros on the left when the polynomial has fewer than [n] terms. *)
Definition data (e : gfPoly) (numTerms_ : Z) : list Z :=
  let n := Z.to_nat numTerms_ in
  let desc := rev (term e) in
  repeat 0 (n - length desc) ++ firstn n desc.

(** The coefficient of x^k in p(x) x^n, for the statement of the
    division: the coefficients of [p] moved up by [n] places. *)
Definition shiftCoef (p : list gfElement) (n k : nat) : gfElement :=
  if (n <=? k)%nat then coef p (k - n) else 0.

(** The value of a polynomial at a point, by Horner's rule, for the
    statements about roots. *)
Fixpoint gfPolyEval (p : list gfElement) (x : gfElement) : gfElement :=
  match p with
  | [] => gfZero
  | c :: rest => gfAdd c (gfMultiply x (gfPolyEval rest x))
  end.

(** ** Package reedsolomon, reed_solomon.go *)

(** The loop of [rsGeneratorPoly]: [i] runs over [idxs]; the table is
    read with Go's bounds check. *)
Fixpoint rsGeneratorLoop (idxs : list Z) (generator : gfPoly) : result gfPoly :=
  match idxs with
  | [] => Ok generator
  | i :: rest =>
      let* e := index gfExpTable i in
      let nextPoly := {| term := [e; 1] |} in
      rsGeneratorLoop rest (gfPolyMultiply generator nextPoly)
  end.

Definition rsGeneratorPoly (degree : Z) : result gfPoly :=
  if degree <? 2 then Panic "degree < 2"
  else rsGeneratorLoop (zrange (Z.to_nat degree)) {| term := [1] |}.

Definition Encode (data_ : Bits) (numECBytes : Z) : result Bits :=
  let ecpoly := newGFPolyFromData data_ in
  let ecpoly := gfPolyMultiply ecpoly (newGFPolyMonomial gfOne numECBytes) in
  let* generator := rsGeneratorPoly numECBytes in
  let remainder := gfPolyRemainder ecpoly generator in
  let result := Clone data_ in
  Ok (AppendBytes result (data remainder numECBytes)).

(** ** Bit streams behind pointers

    A [*bitset.Bitset] is a location of a store; the store maps the
    locations in use to the bits of their streams. A computation threads
    the store, and keeps it when it panics. *)

Abbreviation loc := positive (only parsing).

Abbreviation store := (gmap positive Bits).

Definition St (A : Type) : Type := store -> store * result A.

Definition sret {A} (a : A) : St A := fun h => (h, Ok a).

Definition sbind {A B} (m : St A) (k : A -> St B) : St B :=
  fun h =>
    match m h with
    | (h', Ok a) => k a h'
    | (h', Panic msg) => (h', Panic msg)
    end.

Definition slift {A} (r : result A) : St A := fun h => (h, r).

Notation "'let+' x ':=' m 'in' k" := (sbind m (fun x => k))
  (at level 10, x name, m at level 100, k at level 200).

(** Reading the stream behind a pointer; a pointer that is not in use is
    nil or dangling, and its dereference panics. *)
Definition readBits (b : loc) : St Bits :=
  fun h =>
    match h !! b with
    | Some bits => (h, Ok bits)
    | None => (h, Panic "nil pointer dereference")
    end.

(** Modelled from the spec: the package bitset is not among the sources.
    [Clone] returns a new stream with the bits of its argument: a location
    that was not in use. *)
Definition ClonePtr (from : loc) : St loc :=
  let+ bits := readBits from in
  fun h =>
    let fresh_ := fresh (dom h) in
    (<[fresh_ := Clone bits]> h, Ok fresh_).

(** Modelled from the spec: the package bitset is not among the sources.
    [b.AppendBytes(data)] appends in place. *)
Definition AppendBytesPtr (b : loc) (bytes : list Z) : St unit :=
  let+ bits := readBits b in
  fun h => (<[b := AppendBytes bits bytes]> h, Ok tt).

(** [Encode] on pointers: [newGFPolyFromData] reads the stream of [data],
    and the only stream written is the clone. *)
Definition EncodePtr (data_ : loc) (numECBytes : Z) : St loc :=
  let+ bits := readBits data_ in
  let ecpoly := newGFPolyFromData bits in
  let ecpoly := gfPolyMultiply ecpoly (newGFPolyMonomial gfOne numECBytes) in
  let+ generator := slift (rsGeneratorPoly numECBytes) in
  let remainder := gfPolyRemainder ecpoly generator in
  let+ result_ := ClonePtr data_ in
  let+ _ := AppendBytesPtr result_ (data remainder numECBytes) in
  sret result_.

(** ** Package qrcode: versions *)

(** The declaration of [RecoveryLevel] is not among the sources; main.go
    uses its constant [Highest], and a Go constant has a basic type, so the
    type has values other than the four levels of the design document. It
    is a Go integer type here. *)
Abbreviation RecoveryLevel := Z (only parsing).

Definition Low : RecoveryLevel := 0.
Definition Medium : RecoveryLevel := 1.
Definition High : RecoveryLevel := 2.
Definition Highest : RecoveryLevel := 3.

Definition validLevel (l : RecoveryLevel) : Prop :=
  l = Low \/ l = Medium \/ l = High \/ l = Highest.

(** A group of equal blocks of a version: [numBlocks] blocks of
    [numCodewords] codewords, [numDataCodewords] of them data. *)
Record blockGroup : Type := {
  numBlocks : Z;
  numCodewords : Z;
  numDataCodewords : Z
}.

Record qrCodeVersion : Type := {
  level : RecoveryLevel;
  version : Z;
  block : list blockGroup;
  numRemainderBits : Z
}.

(** Modelled from the spec: version.go is not among the sources. Section
    4.F of the design document: the catalog reports [num_data_bits] and
    [num_blocks]; the number of data bits is the sum over the blocks of
    the data codewords per block, times 8. *)
Definition numDataBits (v : qrCodeVersion) : Z :=
  fold_right (fun b acc => numBlocks b * numDataCodewords b * 8 + acc)
             0 (block v).

(** Modelled from the spec: version.go is not among the sources. The method
    [numBlocks()] of a version: the number of its blocks, over all
    groups. *)
Definition versionNumBlocks (v : qrCodeVersion) : Z :=
  fold_right (fun b acc => numBlocks b + acc) 0 (block v).

(** Modelled from the spec: version.go is not among the sources. The
    number of zero bits that pad a stream of [numDataBits_] bits to the
    next codeword boundary. *)
Definition numBitsToPadToCodeword (v : qrCodeVersion) (numDataBits_ : Z) : Z :=
  (8 - numDataBits_ mod 8) mod 8.

(** ** Package qrcode, qrcode.go: padding *)

(** Pad codewords 0b11101100 and 0b00010001. *)
Definition padding (i : Z) : Bits :=
  if i =? 0
  then [true; true; true; false; true; true; false; false]
  else [false; false; false; true; false; false; false; true].

(** The loop [for numDataBits-q.data.Len() >= 8]; every turn appends the
    eight bits of a pad codeword. *)
Equations? padCodewords (numDataBits_ : Z) (data_ : Bits) (i : Z) : Bits
  by wf (Z.to_nat (numDataBits_ - Len data_)) lt :=
  padCodewords numDataBits_ data_ i with Z_ge_dec (numDataBits_ - Len data_) 8 => {
    | left _ := padCodewords numDataBits_ (Append data_ (padding i)) (1 - i);
    | right _ := data_ }.
Proof.
  unfold Append, Len in *. rewrite length_app.
  assert (length (padding i) = 8%nat) by (unfold padding; destruct (i =? 0); reflexivity).
  lia.
Qed.

(** [addPadding] on the stream [q.data] of a symbol of version [v]; the
    result is the new content of [q.data]. *)
Definition addPadding (v : qrCodeVersion) (data_ : Bits) : result Bits :=
  let numDataBits_ := numDataBits v in
  if Len data_ =? numDataBits_ then Ok data_
  else
    let data1 :=
      AppendNumBools data_ (numBitsToPadToCodeword v (Len data_)) false in
    let data2 := padCodewords numDataBits_ data1 0 in
    if negb (Len data2 =? numDataBits_)
    then Panic "BUG: got len, expected numDataBits"
    else Ok data2.

(** [k] pad codewords, alternating, the first with index [i]. *)
Fixpoint padCodewordsOf (k : nat) (i : Z) : Bits :=
  match k with
  | O => []
  | S j => padding i ++ padCodewordsOf j (1 - i)
  end.

(** ** Package qrcode, qrcode.go: blocks and interleaving *)

(** The local type [dataBlock] of [encodeBlocks]; the zero value has a nil
    stream. *)
Module dataBlock.
Record t : Type := {
  data : option Bits;
  ecStartOffset : Z
}.
Definition zero : t := {| data := None; ecStartOffset := 0 |}.
End dataBlock.

(** [make([]dataBlock, n)]. *)
Definition makeBlocks (n : Z) : result (list dataBlock.t) :=
  if n <? 0 then Panic "makeslice: len out of range"
  else Ok (repeat dataBlock.zero (Z.to_nat n)).

(** The write [block[blockID] = x], with Go's bounds check. *)
Definition setBlock (blocks : list dataBlock.t) (blockID : Z) (x : dataBlock.t)
  : result (list dataBlock.t) :=
  if (0 <=? blockID) && (blockID <? Z.of_nat (length blocks))
  then Ok (<[Z.to_nat blockID := x]> blocks)
  else Panic "index out of range".

(** The variables of the first loop of [encodeBlocks]. *)
Record splitVars : Type := {
  sv_block : list dataBlock.t;
  sv_start : Z;
  sv_end : Z;
  sv_blockID : Z
}.

(** The body of [for j := 0; j < b.numBlocks; j++]. *)
Definition splitBody (qdata : Bits) (b : blockGroup) (vars : splitVars)
  : result splitVars :=
  let start := sv_end vars in
  let end_ := start + numDataCodewords b * 8 in
  let numErrorCodewords := numCodewords b - numDataCodewords b in
  let* sub := Substr qdata start end_ in
  let* encoded := Encode sub numErrorCodewords in
  let* blocks :=
    setBlock (sv_block vars) (sv_blockID vars)
      {| dataBlock.data := Some encoded;
         dataBlock.ecStartOffset := end_ - start |} in
  Ok {| sv_block := blocks; sv_start := start; sv_end := end_;
        sv_blockID := sv_blockID vars + 1 |}.

Fixpoint splitGroup (turns : nat) (qdata : Bits) (b : blockGroup)
         (vars : splitVars) : result splitVars :=
  match turns with
  | O => Ok vars
  | S n =>
      let* vars' := splitBody qdata b vars in
      splitGroup n qdata b vars'
  end.

(** [for _, b := range q.version.block]. *)
Fixpoint splitGroups (qdata : Bits) (groups : list blockGroup)
         (vars : splitVars) : result splitVars :=
  match groups with
  | [] => Ok vars
  | b :: rest =>
      let* vars' := splitGroup (Z.to_nat (numBlocks b)) qdata b vars in
      splitGroups qdata rest vars'
  end.

(** What a block adds in the turn [i] of "Combine data blocks": nothing
    ([continue]) from its error correction offset on, else the eight bits
    from [i]. *)
Definition dataColumn (i : Z) (b : dataBlock.t) : option (result Bits) :=
  if i >=? dataBlock.ecStartOffset b then None
  else
    Some match dataBlock.data b with
         | None => Panic "nil pointer dereference"
         | Some d => Substr d i (i + 8)
         end.

(** The same for "Combine error correction blocks". *)
Definition ecColumn (i : Z) (b : dataBlock.t) : option (result Bits) :=
  let offset := i + dataBlock.ecStartOffset b in
  match dataBlock.data b with
  | None => Some (Panic "nil pointer dereference")
  | Some d =>
      if offset >=? Len d then None
      else Some (Substr d offset (offset + 8))
  end.

(** [for j, b := range block], on the variables [result] and [working]. *)
Fixpoint blockPass (column : dataBlock.t -> option (result Bits))
         (blocks : list dataBlock.t) (result_ : Bits) (working : bool)
  : result (Bits * bool) :=
  match blocks with
  | [] => Ok (result_, working)
  | b :: rest =>
      match column b with
      | None => blockPass column rest result_ working
      | Some r =>
          let* bits := r in
          blockPass column rest (Append result_ bits) true
      end
  end.

(** [for i := 0; working; i += 8], entered with [working] true. The loop
    ends when a turn adds nothing; [fuel] bounds the number of turns, and
    [None] is the loop out of fuel. *)
Fixpoint columnLoop (fuel : nat)
         (column : Z -> dataBlock.t -> option (result Bits))
         (blocks : list dataBlock.t) (i : Z) (result_ : Bits)
  : option (result Bits) :=
  match fuel with
  | O => None
  | S f =>
      match blockPass (column i) blocks result_ false with
      | Panic msg => Some (Panic msg)
      | Ok (result', working) =>
          if working then columnLoop f column blocks (i + 8) result'
          else Some (Ok result')
      end
  end.

Definition encodeBlocks (fuel : nat) (v : qrCodeVersion) (qdata : Bits)
  : option (result Bits) :=
  match
    (let* block_ := makeBlocks (versionNumBlocks v) in
     splitGroups qdata (block v)
       {| sv_block := block_; sv_start := 0; sv_end := 0; sv_blockID := 0 |})
  with
  | Panic msg => Some (Panic msg)
  | Ok vars =>
      match columnLoop fuel dataColumn (sv_block vars) 0 [] with
      | None => None
      | Some (Panic msg) => Some (Panic msg)
      | Some (Ok result1) =>
          match columnLoop fuel ecColumn (sv_block vars) 0 result1 with
          | None => None
          | Some (Panic msg) => Some (Panic msg)
          | Some (Ok result2) =>
              Some (Ok (AppendNumBools result2 (numRemainderBits v) false))
          end
      end
  end.

(** *** The interleaved stream, as the design document describes it

    Written from section 4.G of the design document. The layout of a
    version is the list of its blocks in block-index order, each with its
    numbers k of data codewords and n - k of error correction codewords;
    the payload is cut into the data of the blocks in this order; a list
    of rows of whole bytes is read column by column, a row that has no
    byte in a column being skipped. *)

Definition groupLayout (g : blockGroup) : list (Z * Z) :=
  repeat (numDataCodewords g, numCodewords g - numDataCodewords g)
         (Z.to_nat (numBlocks g)).

Definition blockLayout (v : qrCodeVersion) : list (Z * Z) :=
  flat_map groupLayout (block v).

Fixpoint splitPayload (layout : list (Z * Z)) (bits : Bits) : list Bits :=
  match layout with
  | [] => []
  | (k, _) :: rest =>
      firstn (Z.to_nat (8 * k)) bits
      :: splitPayload rest (skipn (Z.to_nat (8 * k)) bits)
  end.

(** The bits that [Encode] appends to a block. *)
Definition ecBits (d : Bits) (numECBytes : Z) : Bits :=
  match Encode d numECBytes with
  | Ok out => skipn (length d) out
  | Panic _ => []
  end.

Definition dataRows (v : qrCodeVersion) (qdata : Bits) : list Bits :=
  splitPayload (blockLayout v) qdata.

Definition ecRows (v : qrCodeVersion) (qdata : Bits) : list Bits :=
  map (fun dl => ecBits (fst dl) (snd (snd dl)))
      (combine (dataRows v qdata) (blockLayout v)).

Definition rowBytes (row : Bits) : nat := Nat.div (length row) 8.

Definition byteOf (row : Bits) (c : nat) : Bits :=
  firstn 8 (skipn (8 * c) row).

Definition columnOf (rows : list Bits) (c : nat) : Bits :=
  concat (map (fun row => if (c <? rowBytes row)%nat then byteOf row c else [])
              rows).

Definition maxRowBytes (rows : list Bits) : nat :=
  fold_right (fun row acc => Nat.max (rowBytes row) acc) 0%nat rows.

Definition columnMajor (rows : list Bits) : Bits :=
  concat (map (columnOf rows) (seq 0 (maxRowBytes rows))).

Definition interleaved (v : qrCodeVersion) (qdata : Bits) : Bits :=
  columnMajor (dataRows v qdata) ++ columnMajor (ecRows v qdata)
  ++ repeat false (Z.to_nat (numRemainderBits v)).

(** The blocks of a layout on a payload, each with its encoded stream and
    the offset of its error correction bits, and the number of payload
    bits that a layout takes. *)
Fixpoint blocksFrom (layout : list (Z * Z)) (bits : Bits)
  : list dataBlock.t :=
  match layout with
  | [] => []
  | (k, e) :: rest =>
      let d := firstn (Z.to_nat (8 * k)) bits in
      {| dataBlock.data := Some (d ++ ecBits d e);
         dataBlock.ecStartOffset := 8 * k |}
      :: blocksFrom rest (skipn (Z.to_nat (8 * k)) bits)
  end.

Definition layoutBits (layout : list (Z * Z)) : Z :=
  fold_right (fun ke acc => 8 * fst ke + acc) 0 layout.

Definition validBlock (ke : Z * Z) : Prop :=
  0 <= fst ke /\ 2 <= snd ke <= 256.

(** The number of bits of the codewords of a version, data and error
    correction, over all blocks. *)
Definition numCodewordBits (v : qrCodeVersion) : Z :=
  fold_right (fun b acc => numBlocks b * numCodewords b * 8 + acc)
             0 (block v).

(** The number of error correction bits of a layout. *)
Definition layoutECBits (layout : list (Z * Z)) : Z :=
  fold_right (fun ke acc => 8 * snd ke + acc) 0 layout.

(** A row of whole bytes. *)
Definition wholeRow (row : Bits) : Prop :=
  length row = (8 * rowBytes row)%nat.

(** A layout that [encodeBlocks] can use: counts are not negative, and
    every block has from 2 to 256 error correction codewords. *)
Definition validGroup (g : blockGroup) : Prop :=
  0 <= numBlocks g /\ 0 <= numDataCodewords g /\
  2 <= numCodewords g - numDataCodewords g <= 256.

(** ** Package qrcode, qrcode.go: construction *)

(** A Go [error] returned by [New]. [New] builds one error itself, with
    the message "content too long to encode"; any other error it returns
    is the one that [dataEncoder.encode] returned. The design document also
    names an error [InvalidRecoveryLevel]; it is a value of the type so
    that the claim about it can be stated. *)
Inductive error : Type :=
| ContentTooLong
| InvalidRecoveryLevel
| EncoderError (msg : string).

Inductive dataEncoderType : Type :=
| dataEncoderType1To9
| dataEncoderType10To26
| dataEncoderType27To40.

(** Modelled from the spec: encoder.go is not among the sources. The
    version bands of the three encoders: 1-9, 10-26, 27-40. *)
Definition minVersion (t : dataEncoderType) : Z :=
  match t with
  | dataEncoderType1To9 => 1
  | dataEncoderType10To26 => 10
  | dataEncoderType27To40 => 27
  end.

(** Modelled from the spec: encoder.go is not among the sources. The last
    version of each band. *)
Definition maxVersion (t : dataEncoderType) : Z :=
  match t with
  | dataEncoderType1To9 => 9
  | dataEncoderType10To26 => 26
  | dataEncoderType27To40 => 40
  end.

(** The version of smallest number in a list; the first one among equals. *)
Definition smallerVersion (v : qrCodeVersion) (acc : option qrCodeVersion)
  : option qrCodeVersion :=
  match acc with
  | None => Some v
  | Some w => if version v <=? version w then Some v else Some w
  end.

Definition smallestVersion (l : list qrCodeVersion) : option qrCodeVersion :=
  fold_right smallerVersion None l.

(** The place of a band in the order in which [New] tries the bands. *)
Definition bandIndex (t : dataEncoderType) : Z :=
  match t with
  | dataEncoderType1To9 => 0
  | dataEncoderType10To26 => 1
  | dataEncoderType27To40 => 2
  end.

Module QRCode.
Record t (symbol_ : Type) : Type := {
  Content : list Z;
  Level : RecoveryLevel;
  VersionNumber : Z;
  DisableBorder : bool;
  encoder : dataEncoderType;
  version : qrCodeVersion;
  data : Bits;
  symbol : option symbol_;
  mask : Z
}.
Arguments Content {symbol_}.
Arguments Level {symbol_}.
Arguments VersionNumber {symbol_}.
Arguments DisableBorder {symbol_}.
Arguments encoder {symbol_}.
Arguments version {symbol_}.
Arguments data {symbol_}.
Arguments symbol {symbol_}.
Arguments mask {symbol_}.
End QRCode.

Section Construction.

(** The parts of the package that are not among the sources. *)

(** The type of a laid-out symbol (symbol.go). *)
Variable symbol_ : Type.

(** [newDataEncoder(t).encode(content)] (encoder.go): the encoded bit
    stream, or an error message. *)
Variable encoderEncode : dataEncoderType -> list Z -> string + Bits.

(** The table [versions] of the catalog (version.go). *)
Variable versions : list qrCodeVersion.

(** Whether a version has room for an encoded stream of the given
    length: [num_data_bits >= encoded_length + terminator + any
    band-switch overhead]; the design document does not give the
    overhead. *)
Variable fits : qrCodeVersion -> Z -> bool.

(** A version that can be chosen: at the level, within the band of the
    encoder, with room for the stream. *)
Definition candidate (level_ : RecoveryLevel) (t : dataEncoderType)
           (numBits : Z) (v : qrCodeVersion) : bool :=
  (level v =? level_) && (minVersion t <=? version v) &&
  (version v <=? maxVersion t) && fits v numBits.

(** Modelled from the spec: version.go is not among the sources. Section
    4.E of the design document, capacity selection: given level and
    encoded length, the smallest version in the band of the encoder that
    has room for the stream; none when no version of the band has. *)
Definition chooseQRCodeVersion (level_ : RecoveryLevel) (t : dataEncoderType)
           (numBits : Z) : option qrCodeVersion :=
  smallestVersion (List.filter (candidate level_ t numBits) versions).

(** What the band of the encoder [t] offers for a content: the encoded
    stream and the version chosen for it. *)
Definition bandChoice (content : list Z) (level_ : RecoveryLevel)
           (t : dataEncoderType) : option (Bits * qrCodeVersion) :=
  match encoderEncode t content with
  | inl _ => None
  | inr encoded =>
      match chooseQRCodeVersion level_ t (Len encoded) with
      | Some v => Some (encoded, v)
      | None => None
      end
  end.

(** The variables of [New] that live across the turns of its loop. *)
Record newVars : Type := {
  nv_encoder : option dataEncoderType;
  nv_encoded : option Bits;
  nv_chosenVersion : option qrCodeVersion;
  nv_err : option error
}.

(** The loop [for _, t := range encoders]: [continue] on an encoding
    error, [break] once a version is chosen. *)
Fixpoint newLoop (content : list Z) (level_ : RecoveryLevel)
         (encoders : list dataEncoderType) (vars : newVars) : newVars :=
  match encoders with
  | [] => vars
  | t :: rest =>
      match encoderEncode t content with
      | inl msg =>
          newLoop content level_ rest
            {| nv_encoder := Some t; nv_encoded := None;
               nv_chosenVersion := nv_chosenVersion vars;
               nv_err := Some (EncoderError msg) |}
      | inr encoded =>
          let chosen := chooseQRCodeVersion level_ t (Len encoded) in
          let vars' :=
            {| nv_encoder := Some t; nv_encoded := Some encoded;
               nv_chosenVersion := chosen; nv_err := None |} in
          match chosen with
          | Some _ => vars'
          | None => newLoop content level_ rest vars'
          end
      end
  end.

Definition New (content : list Z) (level_ : RecoveryLevel)
  : error + QRCode.t symbol_ :=
  let encoders :=
    [dataEncoderType1To9; dataEncoderType10To26; dataEncoderType27To40] in
  let vars :=
    newLoop content level_ encoders
      {| nv_encoder := None; nv_encoded := None;
         nv_chosenVersion := None; nv_err := None |} in
  match nv_err vars with
  | Some e => inl e
  | None =>
      match nv_chosenVersion vars, nv_encoder vars, nv_encoded vars with
      | Some chosen, Some t, Some encoded =>
          inr {| QRCode.Content := content;
                 QRCode.Level := level_;
                 QRCode.VersionNumber := version chosen;
                 QRCode.DisableBorder := false;
                 QRCode.encoder := t;
                 QRCode.version := chosen;
                 QRCode.data := encoded;
                 QRCode.symbol := None;
                 QRCode.mask := 0 |}
      | _, _, _ => inl ContentTooLong
      end
  end.

(** *** Mask selection *)

(** [buildRegularSymbol], [numEmptyModules] and [penaltyScore]
    (regular_symbol.go, symbol.go). *)
Variable buildRegularSymbol :
  qrCodeVersion -> Z -> Bits -> bool -> string + symbol_.
Variable numEmptyModules : symbol_ -> Z.
Variable penaltyScore : symbol_ -> Z.

(** The variables that the mask loop of [encode] updates: [q.symbol],
    [q.mask] and the local [penalty]. *)
Record maskVars : Type := {
  mv_symbol : option symbol_;
  mv_mask : Z;
  mv_penalty : Z
}.

Definition isNil {A} (o : option A) : bool :=
  match o with None => true | Some _ => false end.

(** The body of [for mask := 0; mask < numMasks; mask++]. *)
Definition maskBody (v : qrCodeVersion) (encoded : Bits) (border : bool)
           (vars : maskVars) (mask_ : Z) : result maskVars :=
  match buildRegularSymbol v mask_ encoded border with
  | inl msg => Panic msg
  | inr s =>
      if negb (numEmptyModules s =? 0)
      then Panic "bug: numEmptyModules is not 0"
      else
        let p := penaltyScore s in
        if isNil (mv_symbol vars) || (p <? mv_penalty vars)
        then Ok {| mv_symbol := Some s; mv_mask := mask_; mv_penalty := p |}
        else Ok vars
  end.

(** Every mask builds a symbol without empty modules. *)
Definition allMasksBuild (v : qrCodeVersion) (encoded : Bits)
           (border : bool) : Prop :=
  forall k, 0 <= k < 8 ->
    exists s, buildRegularSymbol v k encoded border = inr s /\
              numEmptyModules s = 0.


Fixpoint maskLoop (v : qrCodeVersion) (encoded : Bits) (border : bool)
         (masks : list Z) (vars : maskVars) : result maskVars :=
  match masks with
  | [] => Ok vars
  | m :: rest =>
      let* vars' := maskBody v encoded border vars m in
      maskLoop v encoded border rest vars'
  end.

(** The second half of [encode], from [const numMasks int = 8] on, for
    the interleaved stream [encoded] that [q.encodeBlocks()] returned. *)
Definition encodeMasks (q : QRCode.t symbol_) (encoded : Bits)
  : result (QRCode.t symbol_) :=
  let numMasks := 8%nat in
  let penalty := 0 in
  let* vars :=
    maskLoop (QRCode.version q) encoded (negb (QRCode.DisableBorder q))
      (zrange numMasks)
      {| mv_symbol := QRCode.symbol q; mv_mask := QRCode.mask q;
         mv_penalty := penalty |} in
  Ok {| QRCode.Content := QRCode.Content q;
        QRCode.Level := QRCode.Level q;
        QRCode.VersionNumber := QRCode.VersionNumber q;
        QRCode.DisableBorder := QRCode.DisableBorder q;
        QRCode.encoder := QRCode.encoder q;
        QRCode.version := QRCode.version q;
        QRCode.data := QRCode.data q;
        QRCode.symbol := mv_symbol vars;
        QRCode.mask := mv_mask vars |}.

(** [numTerminatorBitsRequired] (version.go). *)
Variable numTerminatorBitsRequired : qrCodeVersion -> Z -> Z.

Definition addTerminatorBits (data_ : Bits) (numTerminatorBits : Z) : Bits :=
  AppendNumBools data_ numTerminatorBits false.

(** [encode]: terminator, padding, blocks, then the masks. [q.data] is
    updated in place by the first two steps. [None] is the interleaving
    out of fuel. *)
Definition encode (fuel : nat) (q : QRCode.t symbol_)
  : option (result (QRCode.t symbol_)) :=
  let numTerminatorBits :=
    numTerminatorBitsRequired (QRCode.version q) (Len (QRCode.data q)) in
  let data1 := addTerminatorBits (QRCode.data q) numTerminatorBits in
  match addPadding (QRCode.version q) data1 with
  | Panic msg => Some (Panic msg)
  | Ok data2 =>
      let q2 :=
        {| QRCode.Content := QRCode.Content q;
           QRCode.Level := QRCode.Level q;
           QRCode.VersionNumber := QRCode.VersionNumber q;
           QRCode.DisableBorder := QRCode.DisableBorder q;
           QRCode.encoder := QRCode.encoder q;
           QRCode.version := QRCode.version q;
           QRCode.data := data2;
           QRCode.symbol := QRCode.symbol q;
           QRCode.mask := QRCode.mask q |} in
      match encodeBlocks fuel (QRCode.version q) data2 with
      | None => None
      | Some (Panic msg) => Some (Panic msg)
      | Some (Ok encoded) => Some (encodeMasks q2 encoded)
      end
  end.

End Construction.

(** ** Package qrcode, qrcode.go: text renderings

    [ToString] and [ToSmallString] draw the bitmap [q.Bitmap()], a slice
    of rows of modules; they are given here as functions of that bitmap
    [bits]. A [bytes.Buffer] is the string written so far. *)

(** [buf.WriteString(s)]. *)
Definition WriteString (buf s : string) : string := (buf ++ s)%string.

(** The line feed (code 10), and the glyphs U+2588, U+2584 and U+2580 in
    UTF-8. *)
Definition newline : string :=
  String (Ascii.Ascii false true false true false false false false) "".
Definition fullBlock : string := "█".
Definition lowerHalfBlock : string := "▄".
Definition upperHalfBlock : string := "▀".

(** Reading [t[i]] of a slice with Go's bounds check. *)
Definition elemAt {A} (t : list A) (i : Z) : result A :=
  if i <? 0 then Panic "index out of range"
  else match t !! Z.to_nat i with
       | Some a => Ok a
       | None => Panic "index out of range"
       end.

(** What the body of the inner loop of [ToString] writes for the module
    [b]. *)
Definition moduleGlyph (b inverseColor : bool) : string :=
  if negb (Bool.eqb b inverseColor) then "  "
  else (fullBlock ++ fullBlock)%string.

(** [for x := range bits[y]] of [ToString]. *)
Fixpoint stringRow (row : list bool) (inverseColor : bool) (buf : string)
  : string :=
  match row with
  | [] => buf
  | b :: rest =>
      stringRow rest inverseColor
        (WriteString buf (moduleGlyph b inverseColor))
  end.

(** [for y := range bits] of [ToString]. *)
Fixpoint stringRows (bits : list (list bool)) (inverseColor : bool)
         (buf : string) : string :=
  match bits with
  | [] => buf
  | row :: rest =>
      stringRows rest inverseColor
        (WriteString (stringRow row inverseColor buf) newline)
  end.

Definition ToString (bits : list (list bool)) (inverseColor : bool)
  : string :=
  stringRows bits inverseColor "".

(** What the body of the inner loop of [ToSmallString] writes for the
    module [b] of the row [y] and the module [b'] below it. *)
Definition pairGlyph (b b' inverseColor : bool) : string :=
  if Bool.eqb b b'
  then (if negb (Bool.eqb b inverseColor) then " " else fullBlock)
  else (if negb (Bool.eqb b inverseColor) then lowerHalfBlock
        else upperHalfBlock).

(** [for x := range bits[y]] of the first loop of [ToSmallString], from
    the column [x] on; [row] holds the modules of [bits[y]] from [x] on.
    [bits[y+1][x]] is read with its bounds checks. *)
Fixpoint smallRow (bits : list (list bool)) (y : Z) (row : list bool)
         (x : Z) (inverseColor : bool) (buf : string) : result string :=
  match row with
  | [] => Ok buf
  | b :: rest =>
      let* below := elemAt bits (y + 1) in
      let* b' := elemAt below x in
      smallRow bits y rest (x + 1) inverseColor
        (WriteString buf (pairGlyph b b' inverseColor))
  end.

(** [for y := 0; y < len(bits)-1; y += 2], from [y] on. *)
Equations? smallLoop (bits : list (list bool)) (inverseColor : bool)
           (y : Z) (buf : string) : result string
  by wf (Z.to_nat (Z.of_nat (length bits) - y)) lt :=
  smallLoop bits inverseColor y buf
    with Z_lt_dec y (Z.of_nat (length bits) - 1) => {
    | left _ with (let* row := elemAt bits y in
                   smallRow bits y row 0 inverseColor buf) => {
        | Ok buf' :=
            smallLoop bits inverseColor (y + 2) (WriteString buf' newline);
        | Panic msg := Panic msg };
    | right _ := Ok buf }.
Proof. lia. Qed.

(** What the body of the loop for the last row of an odd number of rows
    writes for the module [b]. *)
Definition lastGlyph (b inverseColor : bool) : string :=
  if negb (Bool.eqb b inverseColor) then " " else upperHalfBlock.

(** [for x := range bits[y]] of the last row of an odd number of rows. *)
Fixpoint lastRow (row : list bool) (inverseColor : bool) (buf : string)
  : string :=
  match row with
  | [] => buf
  | b :: rest =>
      lastRow rest inverseColor (WriteString buf (lastGlyph b inverseColor))
  end.

Definition ToSmallString (bits : list (list bool)) (inverseColor : bool)
  : result string :=
  let* buf := smallLoop bits inverseColor 0 "" in
  if Z.of_nat (length bits) mod 2 =? 1
  then
    let y := Z.of_nat (length bits) - 1 in
    let* row := elemAt bits y in
    Ok (WriteString (lastRow row inverseColor buf) newline)
  else Ok buf.

(** The same loops as recursions on the rows that remain: the line for
    the rows [top] and [bottom], and the lines for the rows [rows]. *)
Fixpoint pairLine (top bottom : list bool) (inverseColor : bool)
         (buf : string) : result string :=
  match top with
  | [] => Ok buf
  | b :: rest =>
      match bottom with
      | [] => Panic "index out of range"
      | b' :: below =>
          pairLine rest below inverseColor
            (WriteString buf (pairGlyph b b' inverseColor))
      end
  end.

Fixpoint smallLines (rows : list (list bool)) (inverseColor : bool)
         (buf : string) : result string :=
  match rows with
  | [] => Ok buf
  | top :: tail =>
      match tail with
      | [] => Ok (WriteString (lastRow top inverseColor buf) newline)
      | bottom :: rest =>
          let* buf' := pairLine top bottom inverseColor buf in
          smallLines rest inverseColor (WriteString buf' newline)
      end
  end.

(** * Properties *)

Lemma ok_not_panics {A} (r : result A) : is_ok r -> ~ panics r.
Proof. intros [a ->] [m H]. discriminate. Qed.

Lemma zrange_spec (n : nat) (x : Z) : In x (zrange n) <-> 0 <= x < Z.of_nat n.
Proof.
  unfold zrange. rewrite in_map_iff. split.
  - intros (k & <- & Hk). apply in_seq in Hk. lia.
  - intros H. exists (Z.to_nat x). split; [lia|]. apply in_seq. lia.
Qed.

Lemma forall_zrange (n : nat) (P : Z -> bool) :
  forallb P (zrange n) = true -> forall x, 0 <= x < Z.of_nat n -> P x = true.
Proof.
  intros H x Hx. rewrite forallb_forall in H. apply H, zrange_spec, Hx.
Qed.

Lemma forall2_zrange (n m : nat) (P : Z -> Z -> bool) :
  forallb (fun a => forallb (P a) (zrange m)) (zrange n) = true ->
  forall a b, 0 <= a < Z.of_nat n -> 0 <= b < Z.of_nat m -> P a b = true.
Proof.
  intros H a b Ha Hb.
  apply (forall_zrange m (P a)); [|exact Hb].
  apply (forall_zrange n (fun a => forallb (P a) (zrange m))); assumption.
Qed.

(** ** The tables of GF(2^8) *)

Lemma gfExpTable_length : length gfExpTable = 256%nat.
Proof. reflexivity. Qed.

Lemma gfLogTable_length : length gfLogTable = 256%nat.
Proof. reflexivity. Qed.

Lemma exp_is_alpha_pow (i : Z) :
  0 <= i <= 254 -> at_ gfExpTable i = alpha_pow (Z.to_nat i).
Proof.
  intros Hi.
  apply Z.eqb_eq.
  apply (forall_zrange 255
           (fun i => at_ gfExpTable i =? alpha_pow (Z.to_nat i)));
    [vm_compute; reflexivity | lia].
Qed.

Lemma log_range (v : Z) : 1 <= v <= 255 -> 0 <= at_ gfLogTable v <= 254.
Proof.
  intros Hv.
  assert (H : ((0 <=? at_ gfLogTable v) && (at_ gfLogTable v <=? 254)
               || (v =? 0)) = true).
  { apply (forall_zrange 256
             (fun v => (0 <=? at_ gfLogTable v) && (at_ gfLogTable v <=? 254)
                       || (v =? 0)));
      [vm_compute; reflexivity | lia]. }
  apply orb_true_iff in H as [H|H]; [|lia].
  apply andb_true_iff in H as [H1 H2]. lia.
Qed.

Lemma exp_log (v : Z) : 1 <= v <= 255 -> at_ gfExpTable (at_ gfLogTable v) = v.
Proof.
  intros Hv.
  assert (H : ((at_ gfExpTable (at_ gfLogTable v) =? v) || (v =? 0)) = true).
  { apply (forall_zrange 256
             (fun v => (at_ gfExpTable (at_ gfLogTable v) =? v) || (v =? 0)));
      [vm_compute; reflexivity | lia]. }
  apply orb_true_iff in H as [H|H]; lia.
Qed.

Lemma log_exp (i : Z) : 0 <= i <= 254 -> at_ gfLogTable (at_ gfExpTable i) = i.
Proof.
  intros Hi.
  apply Z.eqb_eq.
  apply (forall_zrange 255
           (fun i => at_ gfLogTable (at_ gfExpTable i) =? i));
    [vm_compute; reflexivity | lia].
Qed.

Lemma exp_range (i : Z) : 0 <= i <= 255 -> 1 <= at_ gfExpTable i <= 255.
Proof.
  intros Hi.
  assert (H : ((1 <=? at_ gfExpTable i) && (at_ gfExpTable i <=? 255)) = true).
  { apply (forall_zrange 256
             (fun i => (1 <=? at_ gfExpTable i) && (at_ gfExpTable i <=? 255)));
      [vm_compute; reflexivity | lia]. }
  apply andb_true_iff in H as [H1 H2]. lia.
Qed.

(** C3. The two tables are the tables of GF(2^8) = GF(2)[x]/(x^8+x^4+x^3+x^2+1)
    for the generator alpha = 2: [gfExpTable[i]] is alpha^i for i = 0..254,
    the entry 255 repeats the entry 0, which is 1, and for a non-zero [v]
    the entry [gfLogTable[v]] is the one exponent in 0..254 whose power of
    alpha is [v]. *)
Theorem gf_tables_are_field_tables :
  (forall i, 0 <= i <= 254 -> at_ gfExpTable i = alpha_pow (Z.to_nat i)) /\
  at_ gfExpTable 255 = 1 /\ at_ gfExpTable 0 = 1 /\
  (forall v, 1 <= v <= 255 ->
     0 <= at_ gfLogTable v <= 254 /\
     alpha_pow (Z.to_nat (at_ gfLogTable v)) = v /\
     forall j, 0 <= j <= 254 -> alpha_pow (Z.to_nat j) = v ->
               j = at_ gfLogTable v).
Proof.
  split; [exact exp_is_alpha_pow|].
  split; [reflexivity|]. split; [reflexivity|].
  intros v Hv. pose proof (log_range v Hv) as Hl.
  split; [exact Hl|]. split.
  - rewrite <- exp_is_alpha_pow by exact Hl. apply exp_log, Hv.
  - intros j Hj Hp. rewrite <- exp_is_alpha_pow in Hp by exact Hj.
    subst v. symmetry. apply log_exp, Hj.
Qed.

Lemma gf_tables_are_field_tables_witness :
  at_ gfExpTable 8 = alpha_pow 8 /\
  alpha_pow (Z.to_nat (at_ gfLogTable 29)) = 29.
Proof.
  split.
  - apply (proj1 gf_tables_are_field_tables 8). lia.
  - apply (proj2 (proj2 (proj2 gf_tables_are_field_tables)) 29). lia.
Defined.

(** ** Division *)

(** C8. [gfDivide a b] is 0 when [a] is 0, whatever [b] is; it panics
    exactly when [b] is 0 and [a] is not; in every other case it is
    [gfMultiply a] of the inverse of [b]. So 0/5 = 0 and 5/0 panics. *)
Theorem gfDivide_cases (a b : gfElement) :
  is_gf a -> is_gf b ->
  (a = 0 -> gfDivide a b = Ok 0) /\
  (panics (gfDivide a b) <-> b = 0 /\ a <> 0) /\
  (a <> 0 -> b <> 0 ->
     exists inv, gfInverse b = Ok inv /\ gfDivide a b = Ok (gfMultiply a inv)) /\
  gfDivide 0 5 = Ok 0 /\ panics (gfDivide 5 0).
Proof.
  intros Ha Hb. unfold gfDivide, gfInverse, gfZero.
  split; [intros ->; reflexivity|].
  split; [split|split; [|split]].
  - intros [m Hm].
    destruct (Z.eqb_spec a 0); [discriminate|].
    destruct (Z.eqb_spec b 0); [split; assumption|discriminate].
  - intros [-> Hna].
    destruct (Z.eqb_spec a 0); [contradiction|].
    eexists; reflexivity.
  - intros Hna Hnb.
    destruct (Z.eqb_spec a 0); [contradiction|].
    destruct (Z.eqb_spec b 0); [contradiction|].
    eexists; split; reflexivity.
  - reflexivity.
  - eexists; reflexivity.
Qed.

Lemma gfDivide_cases_witness :
  gfDivide 87 19 = Ok (gfMultiply 87 (at_ gfExpTable (255 - at_ gfLogTable 19))).
Proof.
  destruct (gfDivide_cases 87 19) as (_ & _ & H & _);
    [unfold is_gf; lia | unfold is_gf; lia |].
  destruct H as (inv & Hinv & Hdiv); [lia | lia |].
  unfold gfInverse in Hinv. simpl in Hinv. injection Hinv as <-.
  exact Hdiv.
Defined.


(** ** Field laws of the table arithmetic *)

Lemma is_gf_zrange (a : Z) : is_gf a <-> 0 <= a < Z.of_nat 256.
Proof. unfold is_gf. lia. Qed.

Lemma gfAdd_is_gf (a b : gfElement) : is_gf a -> is_gf b -> is_gf (gfAdd a b).
Proof.
  intros Ha Hb.
  assert (H : ((0 <=? gfAdd a b) && (gfAdd a b <? 256)) = true).
  { apply (forall2_zrange 256 256
             (fun a b => (0 <=? gfAdd a b) && (gfAdd a b <? 256)));
      [vm_compute; reflexivity | apply is_gf_zrange, Ha | apply is_gf_zrange, Hb]. }
  apply andb_true_iff in H as [H1 H2]. unfold is_gf. lia.
Qed.

Lemma gfMultiply_is_gf (a b : gfElement) :
  is_gf a -> is_gf b -> is_gf (gfMultiply a b).
Proof.
  intros Ha Hb.
  assert (H : ((0 <=? gfMultiply a b) && (gfMultiply a b <? 256)) = true).
  { apply (forall2_zrange 256 256
             (fun a b => (0 <=? gfMultiply a b) && (gfMultiply a b <? 256)));
      [vm_compute; reflexivity | apply is_gf_zrange, Ha | apply is_gf_zrange, Hb]. }
  apply andb_true_iff in H as [H1 H2]. unfold is_gf. lia.
Qed.

(** The table product is the product of residues modulo the field
    polynomial. *)
Lemma gfMultiply_pmul (a b : gfElement) :
  is_gf a -> is_gf b -> gfMultiply a b = pmul a b.
Proof.
  intros Ha Hb. apply Z.eqb_eq.
  apply (forall2_zrange 256 256 (fun a b => gfMultiply a b =? pmul a b));
    [vm_compute; reflexivity | apply is_gf_zrange, Ha | apply is_gf_zrange, Hb].
Qed.

Lemma gfMultiply_comm (a b : gfElement) : gfMultiply a b = gfMultiply b a.
Proof.
  unfold gfMultiply. rewrite orb_comm, (Z.add_comm (at_ gfLogTable a)).
  reflexivity.
Qed.

Lemma gfMultiply_0_l (b : gfElement) : gfMultiply 0 b = 0.
Proof. reflexivity. Qed.

Lemma gfMultiply_0_r (a : gfElement) : gfMultiply a 0 = 0.
Proof. rewrite gfMultiply_comm. reflexivity. Qed.

Lemma gfMultiply_1_r (a : gfElement) : is_gf a -> gfMultiply a 1 = a.
Proof.
  intros Ha. apply Z.eqb_eq.
  apply (forall_zrange 256 (fun a => gfMultiply a 1 =? a));
    [vm_compute; reflexivity | apply is_gf_zrange, Ha].
Qed.

Lemma gfMultiply_1_l (a : gfElement) : is_gf a -> gfMultiply 1 a = a.
Proof. intros Ha. rewrite gfMultiply_comm. apply gfMultiply_1_r, Ha. Qed.

Lemma lxor_swap4 (a b c d : Z) :
  Z.lxor (Z.lxor a b) (Z.lxor c d) = Z.lxor (Z.lxor a c) (Z.lxor b d).
Proof.
  rewrite !Z.lxor_assoc. f_equal.
  rewrite <- !Z.lxor_assoc. f_equal. apply Z.lxor_comm.
Qed.

Lemma pmul_bits_lxor_r (n : nat) (a b c : Z) :
  pmul_bits n a (Z.lxor b c) = Z.lxor (pmul_bits n a b) (pmul_bits n a c).
Proof.
  revert a b c. induction n as [|n IH]; intros a b c; cbn [pmul_bits].
  - reflexivity.
  - rewrite Z.shiftr_lxor, IH, Z.lxor_spec.
    rewrite <- lxor_swap4. f_equal.
    destruct (Z.testbit b 0), (Z.testbit c 0); cbn [xorb];
      rewrite ?Z.lxor_0_l, ?Z.lxor_0_r, ?Z.lxor_nilpotent; reflexivity.
Qed.

Lemma gfMultiply_add_distr_l (a b c : gfElement) :
  is_gf a -> is_gf b -> is_gf c ->
  gfMultiply a (gfAdd b c) = gfAdd (gfMultiply a b) (gfMultiply a c).
Proof.
  intros Ha Hb Hc.
  rewrite !gfMultiply_pmul by auto using gfAdd_is_gf.
  apply pmul_bits_lxor_r.
Qed.

Lemma gfMultiply_add_distr_r (a b c : gfElement) :
  is_gf a -> is_gf b -> is_gf c ->
  gfMultiply (gfAdd a b) c = gfAdd (gfMultiply a c) (gfMultiply b c).
Proof.
  intros Ha Hb Hc.
  rewrite (gfMultiply_comm (gfAdd a b)), gfMultiply_add_distr_l by assumption.
  f_equal; apply gfMultiply_comm.
Qed.

Example gfMultiply_87_19 : gfMultiply 87 19 = 224.
Proof. reflexivity. Qed.

Example gfInverse_2 : gfInverse 2 = Ok 142.
Proof. reflexivity. Qed.

Example rsGeneratorPoly_2 : rsGeneratorPoly 2 = Ok {| term := [2; 3; 1] |}.
Proof. reflexivity. Qed.

Example rsGeneratorPoly_7 :
  rsGeneratorPoly 7 = Ok {| term := [117; 68; 11; 164; 154; 122; 127; 1] |}.
Proof. vm_compute. reflexivity. Qed.

(** ** Sums in GF(2^8) *)

Lemma gfSum_ext (f g : nat -> gfElement) (n : nat) :
  (forall i, (i < n)%nat -> f i = g i) -> gfSum f n = gfSum g n.
Proof.
  induction n as [|n IH]; intros H; cbn [gfSum]; [reflexivity|].
  rewrite IH by (intros; apply H; lia).
  rewrite H by lia. reflexivity.
Qed.

Lemma gfSum_zero (f : nat -> gfElement) (n : nat) :
  (forall i, (i < n)%nat -> f i = 0) -> gfSum f n = 0.
Proof.
  induction n as [|n IH]; intros H; cbn [gfSum]; [reflexivity|].
  rewrite IH by (intros; apply H; lia).
  rewrite H by lia. reflexivity.
Qed.

Lemma gfSum_add (f g : nat -> gfElement) (n : nat) :
  gfSum (fun i => gfAdd (f i) (g i)) n = gfAdd (gfSum f n) (gfSum g n).
Proof.
  induction n as [|n IH]; cbn [gfSum]; [reflexivity|].
  rewrite IH. unfold gfAdd. apply lxor_swap4.
Qed.

Lemma gfSum_single (f : nat -> gfElement) (n j : nat) :
  (j < n)%nat -> (forall i, (i < n)%nat -> i <> j -> f i = 0) ->
  gfSum f n = f j.
Proof.
  induction n as [|n IH]; intros Hj H; [lia|]. cbn [gfSum].
  destruct (Nat.eq_dec j n) as [->|Hne].
  - rewrite gfSum_zero by (intros; apply H; lia). reflexivity.
  - rewrite IH by (try lia; intros; apply H; lia).
    rewrite (H n) by lia.
    unfold gfAdd. apply Z.lxor_0_r.
Qed.

Lemma gfSum_is_gf (f : nat -> gfElement) (n : nat) :
  (forall i, (i < n)%nat -> is_gf (f i)) -> is_gf (gfSum f n).
Proof.
  induction n as [|n IH]; intros H; cbn [gfSum].
  - unfold is_gf, gfZero. lia.
  - apply gfAdd_is_gf; [apply IH; intros; apply H; lia | apply H; lia].
Qed.

(** ** Coefficients *)

Lemma is_gf_0 : is_gf 0.
Proof. unfold is_gf. lia. Qed.

Lemma is_gf_1 : is_gf 1.
Proof. unfold is_gf. lia. Qed.

Lemma coef_is_gf (p : list gfElement) (i : nat) : all_gf p -> is_gf (coef p i).
Proof.
  intros Hp. unfold coef.
  destruct (Nat.lt_ge_cases i (length p)) as [Hi|Hi].
  - unfold all_gf in Hp. rewrite List.Forall_forall in Hp.
    apply Hp, nth_In, Hi.
  - rewrite nth_overflow by exact Hi. apply is_gf_0.
Qed.

Lemma coef_overflow (p : list gfElement) (i : nat) :
  (length p <= i)%nat -> coef p i = 0.
Proof. intros H. apply nth_overflow, H. Qed.

Lemma coef_map_seq (f : nat -> gfElement) (n i : nat) :
  coef (map f (seq 0 n)) i = if (i <? n)%nat then f i else 0.
Proof.
  unfold coef. destruct (Nat.ltb_spec i n) as [Hi|Hi].
  - rewrite (nth_indep _ 0 (f 0%nat)) by (rewrite length_map, length_seq; exact Hi).
    rewrite map_nth, seq_nth by exact Hi. reflexivity.
  - apply nth_overflow. rewrite length_map, length_seq. exact Hi.
Qed.

Lemma all_gf_map_seq (f : nat -> gfElement) (n : nat) :
  (forall i, (i < n)%nat -> is_gf (f i)) -> all_gf (map f (seq 0 n)).
Proof.
  intros H. apply List.Forall_forall. intros x Hx.
  apply in_map_iff in Hx as (i & <- & Hi). apply in_seq in Hi.
  apply H. lia.
Qed.

Lemma convCoef_is_gf (a b : list gfElement) (k : nat) :
  all_gf a -> all_gf b -> is_gf (convCoef a b k).
Proof.
  intros Ha Hb. apply gfSum_is_gf. intros i _.
  apply gfMultiply_is_gf; apply coef_is_gf; assumption.
Qed.

Lemma convCoef_overflow (a b : list gfElement) (k : nat) :
  (length a + length b - 1 <= k)%nat -> convCoef a b k = 0.
Proof.
  intros Hk. apply gfSum_zero. intros i Hi.
  destruct (Nat.lt_ge_cases i (length a)) as [Hia|Hia].
  - rewrite (coef_overflow b) by lia. apply gfMultiply_0_r.
  - rewrite (coef_overflow a) by lia. apply gfMultiply_0_l.
Qed.

Lemma coef_gfPolyMultiply (a b : gfPoly) (k : nat) :
  coef (term (gfPolyMultiply a b)) k = convCoef (term a) (term b) k.
Proof.
  unfold gfPolyMultiply, numTerms. cbn [term]. rewrite coef_map_seq.
  destruct (Nat.ltb_spec k (length (term a) + length (term b) - 1)) as [H|H].
  - reflexivity.
  - symmetry. apply convCoef_overflow, H.
Qed.

Lemma numTerms_gfPolyMultiply (a b : gfPoly) :
  numTerms (gfPolyMultiply a b) = (numTerms a + numTerms b - 1)%nat.
Proof.
  unfold gfPolyMultiply, numTerms. cbn [term].
  rewrite length_map, length_seq. reflexivity.
Qed.

Lemma all_gf_gfPolyMultiply (a b : gfPoly) :
  all_gf (term a) -> all_gf (term b) -> all_gf (term (gfPolyMultiply a b)).
Proof.
  intros Ha Hb. unfold gfPolyMultiply. cbn [term].
  apply all_gf_map_seq. intros i _. apply convCoef_is_gf; assumption.
Qed.

Lemma convCoef_nil_l (b : list gfElement) (k : nat) : convCoef [] b k = 0.
Proof.
  apply gfSum_zero. intros i _. unfold coef at 1.
  destruct i; apply gfMultiply_0_l.
Qed.

(** Appending a term [c] x^s to a polynomial of [s] terms adds [c] x^s [b]
    to its product with [b]. *)
Lemma convCoef_snoc (q b : list gfElement) (c : gfElement) (k : nat) :
  all_gf q -> all_gf b -> is_gf c ->
  convCoef (q ++ [c]) b k =
  gfAdd (convCoef q b k)
        (if (length q <=? k)%nat
         then gfMultiply c (coef b (k - length q)) else 0).
Proof.
  intros Hq Hb Hc. unfold convCoef.
  rewrite (gfSum_ext _
    (fun i => gfAdd (gfMultiply (coef q i) (coef b (k - i)))
                    (gfMultiply (if (i =? length q)%nat then c else 0)
                                (coef b (k - i))))).
  2:{ intros i _.
      rewrite <- gfMultiply_add_distr_r;
        [| apply coef_is_gf, Hq
         | destruct (i =? length q)%nat; [exact Hc | apply is_gf_0]
         | apply coef_is_gf, Hb].
      f_equal. unfold coef, gfAdd.
      destruct (Nat.eqb_spec i (length q)) as [->|Hne].
      - rewrite app_nth2, Nat.sub_diag by lia. cbn [nth].
        rewrite nth_overflow by lia. reflexivity.
      - destruct (Nat.lt_ge_cases i (length q)) as [Hi|Hi].
        + rewrite app_nth1 by exact Hi. symmetry. apply Z.lxor_0_r.
        + rewrite !nth_overflow; [reflexivity | lia |].
          rewrite length_app. cbn [length]. lia. }
  rewrite gfSum_add. f_equal.
  destruct (Nat.leb_spec (length q) k) as [Hk|Hk].
  - rewrite (gfSum_single _ (S k) (length q)); [| lia |].
    + rewrite Nat.eqb_refl. reflexivity.
    + intros i _ Hne.
      destruct (Nat.eqb_spec i (length q)); [contradiction | reflexivity].
  - apply gfSum_zero. intros i Hi.
    destruct (Nat.eqb_spec i (length q)); [lia | reflexivity].
Qed.

(** ** Long division *)

Lemma coef_firstn (l : list gfElement) (n i : nat) :
  coef (firstn n l) i = if (i <? n)%nat then coef l i else 0.
Proof. unfold coef. apply nth_firstn. Qed.

Lemma all_gf_firstn (l : list gfElement) (n : nat) :
  all_gf l -> all_gf (firstn n l).
Proof.
  apply Forall_take.
Qed.

Lemma coef_xorShifted (r s : list gfElement) (d i : nat) :
  coef (xorShifted r d s) i =
  if (i <? length r)%nat
  then gfAdd (coef r i) (if (d <=? i)%nat then coef s (i - d) else 0)
  else 0.
Proof. unfold xorShifted. apply coef_map_seq. Qed.

Lemma coef_map_gfMultiply (c : gfElement) (b : list gfElement) (i : nat) :
  coef (map (gfMultiply c) b) i = gfMultiply c (coef b i).
Proof.
  unfold coef. rewrite <- (gfMultiply_0_r c) at 1. apply map_nth.
Qed.

Lemma all_gf_remainderStep (b r : list gfElement) :
  all_gf b -> all_gf r -> all_gf (remainderStep b r).
Proof.
  intros Hb Hr. unfold remainderStep. apply all_gf_firstn.
  unfold xorShifted. apply all_gf_map_seq. intros i _.
  apply gfAdd_is_gf; [apply coef_is_gf, Hr|].
  destruct (_ <=? _)%nat; [|apply is_gf_0].
  rewrite coef_map_gfMultiply.
  apply gfMultiply_is_gf; apply coef_is_gf; assumption.
Qed.

Lemma length_remainderStep (b r : list gfElement) :
  length (remainderStep b r) = (length r - 1)%nat.
Proof.
  unfold remainderStep, xorShifted.
  rewrite length_firstn, length_map, length_seq. lia.
Qed.

(** One step removes the leading term of the residue and changes the
    residue by a multiple [c] x^d [b] of a monic divisor [b]. *)
Lemma coef_remainderStep (b r : list gfElement) (n s k : nat) :
  all_gf b -> all_gf r ->
  length b = S n -> coef b n = 1 -> length r = (S s + n)%nat ->
  coef (remainderStep b r) k =
  gfAdd (coef r k)
        (if (s <=? k)%nat
         then gfMultiply (coef r (s + n)) (coef b (k - s)) else 0).
Proof.
  intros Hb Hr Hlb Hmonic Hlr. unfold remainderStep.
  rewrite coef_firstn, coef_xorShifted, Hlr, Hlb.
  replace (S s + n - 1)%nat with (s + n)%nat by lia.
  replace (S s + n - S n)%nat with s by lia.
  destruct (Nat.ltb_spec k (s + n)) as [Hk|Hk].
  - destruct (Nat.ltb_spec k (S s + n)); [|lia].
    destruct (s <=? k)%nat; [|reflexivity].
    rewrite coef_map_gfMultiply. reflexivity.
  - destruct (Nat.leb_spec s k); [|lia].
    destruct (Nat.eq_dec k (s + n)%nat) as [->|Hne].
    + replace (s + n - s)%nat with n by lia.
      rewrite Hmonic, gfMultiply_1_r by (apply coef_is_gf, Hr).
      unfold gfAdd. symmetry. apply Z.lxor_nilpotent.
    + rewrite (coef_overflow r k), (coef_overflow b (k - s)) by lia.
      rewrite gfMultiply_0_r. reflexivity.
Qed.

(** The steps of the long division by a monic [b] of degree [n], on a
    residue of [s + n] terms, leave [n] terms [rem] with
    [r = q b + rem] for a quotient [q] of [s] terms. *)
Lemma remainderSteps_division (b : list gfElement) (n : nat) :
  all_gf b -> length b = S n -> coef b n = 1 ->
  forall (s : nat) (r : list gfElement),
    all_gf r -> length r = (s + n)%nat ->
    exists q : list gfElement,
      length q = s /\ all_gf q /\
      length (remainderSteps b r s) = n /\
      all_gf (remainderSteps b r s) /\
      forall k, coef r k = gfAdd (convCoef q b k)
                                 (coef (remainderSteps b r s) k).
Proof.
  intros Hb Hlb Hmonic. induction s as [|s IH]; intros r Hr Hlr.
  - exists []. cbn [remainderSteps]. repeat split; try assumption.
    + constructor.
    + intros k. rewrite convCoef_nil_l. reflexivity.
  - cbn [remainderSteps].
    destruct (IH (remainderStep b r)) as (q & Hlq & Hq & Hlrem & Hrem & Heq).
    { apply all_gf_remainderStep; assumption. }
    { rewrite length_remainderStep. lia. }
    set (c := coef r (s + n)).
    assert (Hc : is_gf c) by (apply coef_is_gf, Hr).
    exists (q ++ [c]). repeat split; try assumption.
    + rewrite length_app. cbn [length]. lia.
    + apply Forall_app. split; [exact Hq | constructor; [exact Hc | constructor]].
    + intros k. rewrite convCoef_snoc by assumption. rewrite Hlq.
      specialize (Heq k).
      rewrite (coef_remainderStep b r n s k) in Heq by assumption.
      fold c in Heq. unfold gfAdd in *.
      set (sh := if (s <=? k)%nat then gfMultiply c (coef b (k - s)) else 0)
        in *.
      rewrite (Z.lxor_assoc (convCoef q b k)), (Z.lxor_comm sh),
        <- Z.lxor_assoc, <- Heq.
      rewrite Z.lxor_assoc, Z.lxor_nilpotent, Z.lxor_0_r. reflexivity.
Qed.

(** ** The generator polynomial *)

Lemma exp_is_alpha_pow_255 (i : Z) :
  0 <= i <= 255 -> at_ gfExpTable i = alpha_pow (Z.to_nat i).
Proof.
  intros Hi. destruct (Z.eq_dec i 255) as [->|Hne].
  - vm_compute. reflexivity.
  - apply exp_is_alpha_pow. lia.
Qed.

Lemma index_gfExpTable (i : Z) :
  0 <= i <= 255 -> index gfExpTable i = Ok (at_ gfExpTable i).
Proof.
  intros Hi. unfold index.
  change (Z.of_nat (length gfExpTable)) with 256.
  destruct (Z.leb_spec 0 i); [|lia].
  destruct (Z.ltb_spec i 256); [|lia]. reflexivity.
Qed.

Lemma index_gfExpTable_beyond (i : Z) :
  256 <= i -> index gfExpTable i = Panic "index out of range".
Proof.
  intros Hi. unfold index.
  change (Z.of_nat (length gfExpTable)) with 256.
  destruct (Z.ltb_spec i 256); [lia|].
  rewrite andb_false_r. reflexivity.
Qed.

(** The product with a monic linear factor, coefficient by coefficient. *)
Lemma convCoef_linear (g : list gfElement) (e : gfElement) (k : nat) :
  all_gf g ->
  convCoef g [e; 1] k =
  gfAdd (gfMultiply (coef g k) e)
        (match k with O => 0 | S j => coef g j end).
Proof.
  intros Hg. unfold convCoef. cbn [gfSum].
  rewrite Nat.sub_diag. change (coef [e; 1] 0) with e.
  unfold gfAdd. rewrite Z.lxor_comm. f_equal.
  destruct k as [|j]; [reflexivity|]. cbn [gfSum].
  rewrite gfSum_zero.
  - replace (S j - j)%nat with 1%nat by lia. change (coef [e; 1] 1) with 1.
    unfold gfAdd, gfZero. rewrite Z.lxor_0_l.
    apply gfMultiply_1_r. apply (coef_is_gf g j Hg).
  - intros i Hi. rewrite (coef_overflow [e; 1]) by (cbn [length]; lia).
    apply gfMultiply_0_r.
Qed.

Lemma pmul_0_r (c : Z) : pmul c 0 = 0.
Proof. reflexivity. Qed.

Lemma coef_xorLists (a b : list Z) (i : nat) :
  coef (xorLists a b) i = Z.lxor (coef a i) (coef b i).
Proof.
  revert b i. unfold coef. induction a as [|x a IH]; intros b i.
  - cbn [xorLists]. destruct i; cbn [nth]; rewrite Z.lxor_0_l; reflexivity.
  - destruct b as [|y b]; cbn [xorLists].
    + destruct i; cbn [nth]; rewrite Z.lxor_0_r; reflexivity.
    + destruct i; cbn [nth]; [reflexivity | apply IH].
Qed.

Lemma length_xorLists (a b : list Z) :
  length (xorLists a b) = Nat.max (length a) (length b).
Proof.
  revert b. induction a as [|x a IH]; intros [|y b]; cbn [xorLists length];
    try reflexivity.
  rewrite IH. reflexivity.
Qed.

Lemma term_times_linear (g : gfPoly) (e : gfElement) :
  all_gf (term g) -> is_gf e ->
  term (gfPolyMultiply g {| term := [e; 1] |}) = timesLinear (term g) e.
Proof.
  intros Hg He. unfold gfPolyMultiply, timesLinear, numTerms. cbn [term length].
  apply (nth_ext _ _ 0 0).
  - rewrite length_map, length_seq, length_xorLists, length_map.
    cbn [length]. lia.
  - intros k _. fold (coef (map (convCoef (term g) [e; 1])
                          (seq 0 (length (term g) + 2 - 1))) k).
    fold (coef (xorLists (0 :: term g) (map (pmul e) (term g))) k).
    rewrite coef_map_seq, coef_xorLists.
    assert (Hmap : coef (map (pmul e) (term g)) k = pmul e (coef (term g) k)).
    { unfold coef. rewrite <- (pmul_0_r e) at 1. apply map_nth. }
    rewrite Hmap, <- gfMultiply_pmul, (gfMultiply_comm e)
      by (try exact He; apply coef_is_gf, Hg).
    destruct (Nat.ltb_spec k (length (term g) + 2 - 1)) as [Hk|Hk].
    + rewrite convCoef_linear by exact Hg. unfold gfAdd.
      rewrite Z.lxor_comm. f_equal.
    + rewrite (coef_overflow (term g) k) by lia.
      rewrite gfMultiply_0_l, Z.lxor_0_r.
      destruct k as [|j]; [lia|]. cbn [coef nth].
      symmetry. apply nth_overflow. lia.
Qed.

(** The loop over [k, k+1, ..., k+m-1], from a monic polynomial of degree
    [k] that is the product of the first [k] factors. *)
Lemma rsGeneratorLoop_product (m k : nat) (g : gfPoly) :
  (k + m <= 256)%nat ->
  all_gf (term g) -> term g = generatorProduct k ->
  numTerms g = S k -> coef (term g) k = 1 ->
  exists g', rsGeneratorLoop (map Z.of_nat (seq k m)) g = Ok g' /\
             all_gf (term g') /\ term g' = generatorProduct (k + m) /\
             numTerms g' = S (k + m) /\ coef (term g') (k + m) = 1.
Proof.
  revert k g. induction m as [|m IH]; intros k g Hkm Hg Hprod Hlen Hmonic.
  - exists g. rewrite Nat.add_0_r. cbn [seq map rsGeneratorLoop]. auto.
  - cbn [seq map rsGeneratorLoop].
    rewrite index_gfExpTable by lia. cbn [rbind].
    assert (He : is_gf (at_ gfExpTable (Z.of_nat k))).
    { pose proof (exp_range (Z.of_nat k)). unfold is_gf. lia. }
    destruct (IH (S k)
                (gfPolyMultiply g {| term := [at_ gfExpTable (Z.of_nat k); 1] |}))
      as (g' & Hrun & Hg' & Hprod' & Hlen' & Hmonic').
    + lia.
    + apply all_gf_gfPolyMultiply; [exact Hg|].
      constructor; [exact He | constructor; [apply is_gf_1 | constructor]].
    + rewrite term_times_linear by assumption.
      rewrite exp_is_alpha_pow_255, Nat2Z.id, Hprod by lia. reflexivity.
    + rewrite numTerms_gfPolyMultiply, Hlen. unfold numTerms. cbn [term length].
      lia.
    + rewrite coef_gfPolyMultiply. cbn [term].
      rewrite convCoef_linear by exact Hg.
      rewrite (coef_overflow (term g) (S k)) by (unfold numTerms in Hlen; lia).
      rewrite gfMultiply_0_l, Hmonic. reflexivity.
    + exists g'. replace (k + S m)%nat with (S k + m)%nat by lia. auto.
Qed.

Lemma rsGeneratorLoop_beyond_table (m k : nat) (g : gfPoly) :
  (k <= 256 < k + m)%nat ->
  rsGeneratorLoop (map Z.of_nat (seq k m)) g = Panic "index out of range".
Proof.
  revert k g. induction m as [|m IH]; intros k g Hkm; [lia|].
  cbn [seq map rsGeneratorLoop].
  destruct (Nat.eq_dec k 256%nat) as [->|Hne].
  - rewrite index_gfExpTable_beyond by lia. reflexivity.
  - rewrite index_gfExpTable by lia. cbn [rbind]. apply IH. lia.
Qed.

Lemma rsGeneratorPoly_ok (degree : Z) :
  2 <= degree <= 256 ->
  exists g, rsGeneratorPoly degree = Ok g /\
            all_gf (term g) /\
            term g = generatorProduct (Z.to_nat degree) /\
            numTerms g = S (Z.to_nat degree) /\
            coef (term g) (Z.to_nat degree) = 1.
Proof.
  intros Hd. unfold rsGeneratorPoly, zrange.
  destruct (Z.ltb_spec degree 2); [lia|].
  apply (rsGeneratorLoop_product (Z.to_nat degree) 0 {| term := [1] |});
    try reflexivity; [lia|].
  constructor; [apply is_gf_1 | constructor].
Qed.

Lemma rsGeneratorPoly_beyond_table (degree : Z) :
  256 < degree -> rsGeneratorPoly degree = Panic "index out of range".
Proof.
  intros Hd. unfold rsGeneratorPoly, zrange.
  destruct (Z.ltb_spec degree 2); [lia|].
  apply rsGeneratorLoop_beyond_table. lia.
Qed.

(** ** Bits and bytes *)

Lemma length_byteBits (v : Z) : length (byteBits v) = 8%nat.
Proof. reflexivity. Qed.

Lemma length_concat_byteBits (l : list Z) :
  length (concat (map byteBits l)) = (8 * length l)%nat.
Proof.
  induction l as [|v l IH]; [reflexivity|].
  cbn [map concat]. rewrite length_app, IH, length_byteBits.
  cbn [length]. lia.
Qed.

Lemma bitsValue_byteBits (v : Z) : is_gf v -> bitsValue (byteBits v) = v.
Proof.
  intros Hv. apply Z.eqb_eq.
  apply (forall_zrange 256 (fun v => bitsValue (byteBits v) =? v));
    [vm_compute; reflexivity | apply is_gf_zrange, Hv].
Qed.

Lemma fold_bits_bound (l : Bits) (acc : Z) :
  0 <= acc ->
  0 <= fold_left (fun a (x : bool) => 2 * a + (if x then 1 else 0)) l acc
    <= (acc + 1) * 2 ^ Z.of_nat (length l) - 1.
Proof.
  revert acc. induction l as [|x l IH]; intros acc Hacc.
  - cbn [fold_left length]. change (2 ^ Z.of_nat 0) with 1. lia.
  - cbn [fold_left length]. rewrite Nat2Z.inj_succ, Z.pow_succ_r by lia.
    specialize (IH (2 * acc + (if x then 1 else 0))).
    assert (0 < 2 ^ Z.of_nat (length l)) by (apply Z.pow_pos_nonneg; lia).
    destruct x; nia.
Qed.

Lemma byteAt_is_gf (b : Bits) (k : nat) : is_gf (byteAt b k).
Proof.
  unfold byteAt, bitsValue.
  set (chunk := firstn 8 (skipn (8 * k) b)).
  assert (Hlen : length (chunk ++ repeat false (8 - length chunk)) = 8%nat).
  { assert (length chunk <= 8)%nat by (unfold chunk; rewrite length_firstn; lia).
    rewrite length_app, repeat_length. lia. }
  pose proof (fold_bits_bound (chunk ++ repeat false (8 - length chunk)) 0) as H.
  rewrite Hlen in H. change (2 ^ Z.of_nat 8) with 256 in H.
  unfold is_gf. lia.
Qed.

Lemma all_gf_Bytes (b : Bits) : all_gf (Bytes b).
Proof.
  unfold Bytes. apply List.Forall_forall. intros x Hx.
  apply in_map_iff in Hx as (k & <- & _). apply byteAt_is_gf.
Qed.

Lemma all_gf_rev (l : list gfElement) : all_gf l -> all_gf (rev l).
Proof. apply Forall_rev. Qed.

Lemma length_data (e : gfPoly) (n : Z) : length (data e n) = Z.to_nat n.
Proof.
  unfold data. rewrite length_app, repeat_length, length_firstn, length_rev.
  lia.
Qed.

(** ** The product with x^n *)

Lemma coef_monomial (n j : nat) :
  coef (repeat 0 n ++ [1]) j = if (j =? n)%nat then 1 else 0.
Proof.
  unfold coef. destruct (Nat.eqb_spec j n) as [->|Hne].
  - rewrite app_nth2 by (rewrite repeat_length; lia).
    rewrite repeat_length, Nat.sub_diag. reflexivity.
  - destruct (Nat.lt_ge_cases j n) as [Hj|Hj].
    + rewrite app_nth1 by (rewrite repeat_length; exact Hj).
      apply nth_repeat.
    + apply nth_overflow. rewrite length_app, repeat_length. cbn [length]. lia.
Qed.

Lemma convCoef_monomial (p : list gfElement) (n k : nat) :
  all_gf p -> convCoef p (repeat 0 n ++ [1]) k = shiftCoef p n k.
Proof.
  intros Hp. unfold convCoef, shiftCoef.
  destruct (Nat.leb_spec n k) as [Hk|Hk].
  - rewrite (gfSum_single _ (S k) (k - n)); [| lia |].
    + rewrite coef_monomial.
      destruct (Nat.eqb_spec (k - (k - n)) n); [|lia].
      apply gfMultiply_1_r, coef_is_gf, Hp.
    + intros i Hi Hne. rewrite coef_monomial.
      destruct (Nat.eqb_spec (k - i) n); [lia|]. apply gfMultiply_0_r.
  - apply gfSum_zero. intros i Hi. rewrite coef_monomial.
    destruct (Nat.eqb_spec (k - i) n); [lia|]. apply gfMultiply_0_r.
Qed.

(** ** The encoder *)

Lemma Encode_division (data_ : Bits) (numECBytes : Z) :
  2 <= numECBytes <= 256 ->
  exists (generator : gfPoly) (ec quotient : list gfElement),
    rsGeneratorPoly numECBytes = Ok generator /\
    Encode data_ numECBytes = Ok (data_ ++ concat (map byteBits ec)) /\
    length ec = Z.to_nat numECBytes /\ all_gf ec /\ all_gf quotient /\
    forall k,
      shiftCoef (rev (Bytes data_)) (Z.to_nat numECBytes) k =
      gfAdd (convCoef quotient (term generator) k) (coef (rev ec) k).
Proof.
  intros Hn.
  destruct (rsGeneratorPoly_ok numECBytes Hn)
    as (g & Hgen & Hg & _ & Hlen & Hmonic).
  set (n := Z.to_nat numECBytes) in *.
  set (m := newGFPolyFromData data_).
  set (a := gfPolyMultiply m (newGFPolyMonomial gfOne numECBytes)).
  assert (Hm : all_gf (term m)) by (apply all_gf_rev, all_gf_Bytes).
  assert (Hx : all_gf (term (newGFPolyMonomial gfOne numECBytes))).
  { unfold newGFPolyMonomial. cbn [term]. apply Forall_app. split.
    - apply List.Forall_forall. intros x Hx. apply repeat_spec in Hx as ->.
      apply is_gf_0.
    - constructor; [apply is_gf_1 | constructor]. }
  assert (Ha : all_gf (term a)) by (apply all_gf_gfPolyMultiply; assumption).
  assert (Hla : length (term a) = (numTerms m + n)%nat).
  { fold (numTerms a). unfold a. rewrite numTerms_gfPolyMultiply.
    unfold newGFPolyMonomial, numTerms at 2. cbn [term].
    rewrite length_app, repeat_length. cbn [length]. fold n. lia. }
  destruct (remainderSteps_division (term g) n Hg Hlen Hmonic
              (numTerms m) (term a) Ha Hla)
    as (q & Hlq & Hq & Hlrem & Hrem & Hdiv).
  assert (Hsteps : (S (numTerms a) - numTerms g = numTerms m)%nat).
  { unfold numTerms at 1. rewrite Hla, Hlen. lia. }
  set (rem := remainderSteps (term g) (term a) (numTerms m)) in *.
  assert (Hec : data (gfPolyRemainder a g) numECBytes = rev rem).
  { unfold data, gfPolyRemainder. cbn [term]. rewrite Hsteps. fold rem. fold n.
    rewrite length_rev, Hlrem, Nat.sub_diag. cbn [repeat app].
    apply firstn_all2. rewrite length_rev. lia. }
  exists g, (rev rem), q.
  split; [exact Hgen|]. split; [|split; [|split; [|split; [exact Hq|]]]].
  - unfold Encode. fold m. fold a. rewrite Hgen. cbn [rbind].
    rewrite Hec. reflexivity.
  - rewrite length_rev. exact Hlrem.
  - apply all_gf_rev, Hrem.
  - intros k. rewrite rev_involutive, <- Hdiv.
    unfold a. rewrite coef_gfPolyMultiply.
    unfold newGFPolyMonomial. cbn [term]. fold n.
    symmetry. apply convCoef_monomial. exact Hm.
Qed.

Lemma lxor_move (a b c d : Z) :
  Z.lxor a b = Z.lxor c d -> Z.lxor a c = Z.lxor b d.
Proof.
  intros H. apply Z.bits_inj'. intros n _.
  apply (f_equal (fun z => Z.testbit z n)) in H.
  rewrite !Z.lxor_spec in *.
  destruct (Z.testbit a n), (Z.testbit b n), (Z.testbit c n),
    (Z.testbit d n); cbn in *; congruence.
Qed.

(** A monic divisor of degree [n] leaves one remainder of fewer than
    [n + 1] terms only. *)
Lemma division_remainder_unique (g q q' r r' : list gfElement) (n : nat) :
  all_gf g -> all_gf q -> all_gf q' ->
  length g = S n -> coef g n = 1 ->
  (length r <= n)%nat -> (length r' <= n)%nat ->
  (forall k, gfAdd (convCoef q g k) (coef r k) =
             gfAdd (convCoef q' g k) (coef r' k)) ->
  forall k, coef r k = coef r' k.
Proof.
  intros Hg Hq Hq' Hlen Hmonic Hr Hr' Heq.
  set (d := fun i => gfAdd (coef q i) (coef q' i)).
  assert (Hd : forall i, is_gf (d i)).
  { intros i. apply gfAdd_is_gf; apply coef_is_gf; assumption. }
  assert (Hconv : forall k,
             gfSum (fun i => gfMultiply (d i) (coef g (k - i))) (S k) =
             gfAdd (coef r k) (coef r' k)).
  { intros k.
    rewrite (gfSum_ext _
      (fun i => gfAdd (gfMultiply (coef q i) (coef g (k - i)))
                      (gfMultiply (coef q' i) (coef g (k - i))))).
    2:{ intros i _. unfold d.
        apply gfMultiply_add_distr_r; apply coef_is_gf; assumption. }
    rewrite gfSum_add. fold (convCoef q g k). fold (convCoef q' g k).
    apply lxor_move, Heq. }
  assert (Hzero : forall m, (forall i, (m <= i)%nat -> d i = 0) ->
                            forall i, d i = 0).
  { induction m as [|m IH]; intros Hm i; [apply Hm; lia|].
    apply IH. intros j Hj.
    destruct (Nat.eq_dec j m) as [->|Hne]; [|apply Hm; lia].
    specialize (Hconv (m + n)%nat).
    rewrite (gfSum_single _ _ m) in Hconv; [| lia |].
    - replace (m + n - m)%nat with n in Hconv by lia.
      rewrite Hmonic, gfMultiply_1_r in Hconv by apply Hd.
      rewrite Hconv, !coef_overflow by lia. reflexivity.
    - intros i' Hi' Hne.
      destruct (Nat.lt_ge_cases i' m) as [Hlt|Hge].
      + rewrite (coef_overflow g) by lia. apply gfMultiply_0_r.
      + rewrite Hm by lia. apply gfMultiply_0_l. }
  assert (Hd0 : forall i, d i = 0).
  { apply (Hzero (Nat.max (length q) (length q'))). intros i Hi.
    unfold d. rewrite !coef_overflow by lia. reflexivity. }
  intros k. specialize (Hconv k).
  rewrite gfSum_zero in Hconv
    by (intros i _; rewrite Hd0; apply gfMultiply_0_l).
  unfold gfAdd, gfZero in Hconv. symmetry in Hconv.
  apply Z.lxor_eq in Hconv. exact Hconv.
Qed.

(** C1 (amended). For [2 <= numECBytes <= 256], [Encode] returns the input
    bits unchanged, followed by [numECBytes] bytes, [Len data + 8 *
    numECBytes] bits in all. The bytes are, in descending degree order, the
    coefficients of the remainder of M(x) x^numECBytes by the generator
    polynomial, M being the polynomial whose coefficients in descending
    degree order are the bytes of the input: M x^numECBytes = Q G + R for
    some Q, and every such R of fewer than [numECBytes + 1] terms has these
    coefficients. *)
Theorem Encode_appends_remainder (data_ : Bits) (numECBytes : Z) :
  2 <= numECBytes <= 256 ->
  exists (generator : gfPoly) (ec quotient : list gfElement),
    rsGeneratorPoly numECBytes = Ok generator /\
    Encode data_ numECBytes = Ok (data_ ++ concat (map byteBits ec)) /\
    Len (data_ ++ concat (map byteBits ec)) = Len data_ + 8 * numECBytes /\
    length ec = Z.to_nat numECBytes /\ all_gf ec /\
    (forall k,
       shiftCoef (term (newGFPolyFromData data_)) (Z.to_nat numECBytes) k =
       gfAdd (convCoef quotient (term generator) k) (coef (rev ec) k)) /\
    (forall q' r' : list gfElement,
       all_gf q' -> (length r' <= Z.to_nat numECBytes)%nat ->
       (forall k,
          shiftCoef (term (newGFPolyFromData data_)) (Z.to_nat numECBytes) k =
          gfAdd (convCoef q' (term generator) k) (coef r' k)) ->
       forall k, coef r' k = coef (rev ec) k).
Proof.
  intros Hn.
  destruct (Encode_division data_ numECBytes Hn)
    as (g & ec & q & Hgen & Henc & Hlen & Hec & Hq & Hdiv).
  destruct (rsGeneratorPoly_ok numECBytes Hn)
    as (g' & Hgen' & Hg & _ & Hlg & Hmonic).
  rewrite Hgen in Hgen'. injection Hgen' as <-.
  exists g, ec, q. repeat split; try assumption.
  - unfold Len. rewrite length_app, length_concat_byteBits, Hlen. lia.
  - intros q' r' Hq' Hr' Hdiv' k.
    apply (division_remainder_unique (term g) q' q r' (rev ec)
             (Z.to_nat numECBytes)); try assumption.
    + rewrite length_rev. lia.
    + intros j. rewrite <- Hdiv'. apply Hdiv.
Qed.

Lemma Encode_appends_remainder_witness :
  exists out, Encode [true; false; true] 2 = Ok out /\ Len out = 3 + 8 * 2.
Proof.
  destruct (Encode_appends_remainder [true; false; true] 2)
    as (g & ec & q & _ & Henc & Hlen & _); [lia|].
  eexists. split; [exact Henc | exact Hlen].
Defined.

(** The claim C1 as stated, for every [numECBytes >= 2], fails beyond the
    table of powers: with 257 error correction bytes the generator loop
    reads [gfExpTable[256]]. *)
Lemma Encode_257_panics :
  257 >= 2 /\ Encode [] 257 = Panic "index out of range".
Proof.
  split; [lia|]. unfold Encode.
  rewrite rsGeneratorPoly_beyond_table by lia. reflexivity.
Qed.

(** The error correction codewords of the 1-M symbol for HELLO WORLD. *)
Example Encode_hello_world :
  Encode (AppendBytes [] [32; 91; 11; 120; 209; 114; 220; 77;
                          67; 64; 236; 17; 236; 17; 236; 17]) 10 =
  Ok (AppendBytes [] [32; 91; 11; 120; 209; 114; 220; 77;
                      67; 64; 236; 17; 236; 17; 236; 17;
                      196; 35; 39; 119; 235; 215; 231; 226; 93; 23]).
Proof. vm_compute. reflexivity. Qed.

(** ** The generator polynomial: C4 *)

(** C4 (amended). [rsGeneratorPoly degree] panics with "degree < 2" when
    [degree < 2]; for [2 <= degree <= 256] it returns the product of the
    factors (x + alpha^i), i = 0..degree-1, a monic polynomial of
    [degree + 1] terms, so of degree [degree]; beyond 256 it panics on the
    index of the table of powers. *)
Theorem rsGeneratorPoly_cases (degree : Z) :
  (degree < 2 -> rsGeneratorPoly degree = Panic "degree < 2") /\
  (2 <= degree <= 256 ->
     exists g, rsGeneratorPoly degree = Ok g /\
               term g = generatorProduct (Z.to_nat degree) /\
               Z.of_nat (numTerms g) = degree + 1 /\
               coef (term g) (Z.to_nat degree) = 1) /\
  (256 < degree -> rsGeneratorPoly degree = Panic "index out of range").
Proof.
  split; [|split].
  - intros Hd. unfold rsGeneratorPoly.
    destruct (Z.ltb_spec degree 2); [reflexivity | lia].
  - intros Hd.
    destruct (rsGeneratorPoly_ok degree Hd) as (g & Hgen & _ & Hp & Hl & Hm).
    exists g. repeat split; try assumption. lia.
  - apply rsGeneratorPoly_beyond_table.
Qed.

Lemma rsGeneratorPoly_cases_witness :
  exists g, rsGeneratorPoly 7 = Ok g /\ term g = generatorProduct 7.
Proof.
  destruct (proj1 (proj2 (rsGeneratorPoly_cases 7))) as (g & Hg & Hp & _);
    [lia|].
  exists g. split; [exact Hg | exact Hp].
Defined.

(** The claim C4 as stated fails at 257: the degree is not below 2, and
    the call panics. *)
Lemma rsGeneratorPoly_257_panics :
  ~ 257 < 2 /\ rsGeneratorPoly 257 = Panic "index out of range".
Proof.
  split; [lia|]. apply rsGeneratorPoly_beyond_table. lia.
Qed.
Example addPadding_ex :
  addPadding {| level := Low; version := 1;
                block := [ {| numBlocks := 1; numCodewords := 7;
                              numDataCodewords := 4 |} ];
                numRemainderBits := 0 |}
             [true; false; true] =
  Ok ([true; false; true] ++ repeat false 5 ++ padCodewordsOf 3 0).
Proof. vm_compute. reflexivity. Qed.

(** ** Padding: C9 *)

Lemma length_padding (i : Z) : length (padding i) = 8%nat.
Proof. unfold padding. destruct (i =? 0); reflexivity. Qed.

Lemma padCodewords_fills (numDataBits_ : Z) (data_ : Bits) (i : Z) :
  Len data_ <= numDataBits_ ->
  (numDataBits_ - Len data_) mod 8 = 0 ->
  exists k : nat,
    padCodewords numDataBits_ data_ i = data_ ++ padCodewordsOf k i /\
    Len (padCodewords numDataBits_ data_ i) = numDataBits_.
Proof.
  funelim (padCodewords numDataBits_ data_ i); intros Hle Hmod.
  - destruct H as (k & Hk & Hlen).
    + unfold Append, Len in *. rewrite length_app, length_padding. lia.
    + unfold Append, Len in *. rewrite length_app, length_padding.
      replace (numDataBits_ - Z.of_nat (length data_ + 8))
        with (numDataBits_ - Z.of_nat (length data_) + (-1) * 8) by lia.
      rewrite Z.mod_add by lia. exact Hmod.
    + exists (S k). rewrite Hlen. split; [|reflexivity].
      rewrite Hk. unfold Append. cbn [padCodewordsOf].
      rewrite app_assoc. reflexivity.
  - exists 0%nat. cbn [padCodewordsOf]. rewrite app_nil_r.
    split; [reflexivity|].
    assert (0 <= numDataBits_ - Len data_ < 8) as Hr by lia.
    rewrite (Z.mod_small _ _ Hr) in Hmod. lia.
Qed.

Lemma numDataBits_mod_8 (v : qrCodeVersion) : numDataBits v mod 8 = 0.
Proof.
  unfold numDataBits. induction (block v) as [|b l IH]; [reflexivity|].
  cbn [fold_right]. rewrite Z.add_comm, Z.mod_add by lia. exact IH.
Qed.

(** C9. When the stream is no longer than [numDataBits] and
    [numDataBits] is a multiple of 8, [addPadding] returns without panic,
    and the stream then has exactly [numDataBits] bits: the old bits,
    fewer than 8 zero bits up to the codeword boundary, and pad codewords
    in alternation, 0b11101100 first. *)
Theorem addPadding_fills (v : qrCodeVersion) (data_ : Bits) :
  Len data_ <= numDataBits v ->
  numDataBits v mod 8 = 0 ->
  exists (z : Z) (k : nat),
    0 <= z < 8 /\ (Len data_ + z) mod 8 = 0 /\
    addPadding v data_ =
      Ok (data_ ++ repeat false (Z.to_nat z) ++ padCodewordsOf k 0) /\
    Len (data_ ++ repeat false (Z.to_nat z) ++ padCodewordsOf k 0) =
      numDataBits v.
Proof.
  intros Hle Hmod. unfold addPadding.
  destruct (Z.eqb_spec (Len data_) (numDataBits v)) as [Heq|Hne].
  - exists 0, 0%nat. cbn [Z.to_nat repeat padCodewordsOf app].
    rewrite app_nil_r, Z.add_0_r, Heq. repeat split; try lia; reflexivity.
  - set (z := numBitsToPadToCodeword v (Len data_)).
    assert (Hz : 0 <= z < 8) by (apply Z.mod_pos_bound; lia).
    assert (Hzmod : (Len data_ + z) mod 8 = 0).
    { unfold z, numBitsToPadToCodeword.
      rewrite Z.add_mod_idemp_r by lia.
      replace (Len data_ + (8 - Len data_ mod 8))
        with (Len data_ - Len data_ mod 8 + 1 * 8) by lia.
      rewrite Z.mod_add by lia.
      rewrite Zminus_mod_idemp_r, Z.sub_diag. reflexivity. }
    assert (Hlen1 : Len (AppendNumBools data_ z false) = Len data_ + z).
    { unfold AppendNumBools, Len. rewrite length_app, repeat_length. lia. }
    assert (Hle1 : Len data_ + z <= numDataBits v).
    { pose proof (Z.div_mod (Len data_ + z) 8) as E1.
      pose proof (Z.div_mod (numDataBits v) 8) as E2.
      pose proof (Z.div_mod (Len data_) 8) as E3.
      pose proof (Z.mod_pos_bound (Len data_) 8) as B3.
      assert (Hcases : z = 0 \/ z = 8 - Len data_ mod 8).
      { unfold z, numBitsToPadToCodeword.
        destruct (Z.eq_dec (Len data_ mod 8) 0) as [E|E].
        - left. rewrite E. reflexivity.
        - right. apply Z.mod_small. lia. }
      lia. }
    destruct (padCodewords_fills (numDataBits v)
                (AppendNumBools data_ z false) 0) as (k & Hk & Hfull).
    { rewrite Hlen1. exact Hle1. }
    { rewrite Hlen1.
      replace (numDataBits v - (Len data_ + z))
        with (numDataBits v + (-1) * (Len data_ + z)) by lia.
      rewrite <- Z.add_mod_idemp_l, Hmod, Z.add_0_l by lia.
      rewrite Z.mul_mod, Hzmod, Z.mul_0_r by lia. reflexivity. }
    exists z, k. rewrite Hfull, Z.eqb_refl. cbn [negb].
    unfold AppendNumBools in Hk. rewrite <- app_assoc in Hk.
    rewrite <- Hk. repeat split; try lia; try reflexivity; exact Hfull.
Qed.

Lemma addPadding_fills_witness :
  exists padded,
    addPadding {| level := Low; version := 1;
                  block := [ {| numBlocks := 1; numCodewords := 7;
                                numDataCodewords := 4 |} ];
                  numRemainderBits := 0 |}
               [true; false; true] = Ok padded /\ Len padded = 32.
Proof.
  destruct (addPadding_fills
              {| level := Low; version := 1;
                 block := [ {| numBlocks := 1; numCodewords := 7;
                               numDataCodewords := 4 |} ];
                 numRemainderBits := 0 |}
              [true; false; true]) as (z & k & _ & _ & Hpad & Hlen).
  - vm_compute. discriminate.
  - reflexivity.
  - eexists. split; [exact Hpad | exact Hlen].
Defined.

(** ** Mask selection: C5 *)

Section MaskSelection.

Variable symbol_ : Type.
Variable buildRegularSymbol :
  qrCodeVersion -> Z -> Bits -> bool -> string + symbol_.
Variable numEmptyModules : symbol_ -> Z.
Variable penaltyScore : symbol_ -> Z.

Variable v : qrCodeVersion.
Variable encoded : Bits.
Variable border : bool.

Let loop := maskLoop symbol_ buildRegularSymbol numEmptyModules penaltyScore
                     v encoded border.



End MaskSelection.




(** The selection on a concrete table of penalties: the first of the two
    masks of least penalty wins. *)
Example encodeMasks_tie :
  match encodeMasks Z (fun _ k _ _ => inr k) (fun _ => 0)
          (fun s => at_ [9; 7; 5; 8; 5; 6; 9; 9] s)
          {| QRCode.Content := []; QRCode.Level := Medium;
             QRCode.VersionNumber := 1; QRCode.DisableBorder := false;
             QRCode.encoder := dataEncoderType1To9;
             QRCode.version := {| level := Medium; version := 1; block := [];
                                  numRemainderBits := 0 |};
             QRCode.data := []; QRCode.symbol := None; QRCode.mask := 0 |} []
  with
  | Ok q' => QRCode.mask q' = 2 /\ QRCode.symbol q' = Some 2
  | Panic _ => False
  end.
Proof. vm_compute. split; reflexivity. Qed.

(** A second call of [encode] on the same value: [q.symbol] is set and the
    local [penalty] starts at 0 again, so with penalties that are not
    negative the earlier choice stays. *)
Lemma maskLoop_keeps_choice
    (symbol_ : Type)
    (buildRegularSymbol : qrCodeVersion -> Z -> Bits -> bool -> string + symbol_)
    (numEmptyModules penaltyScore : symbol_ -> Z)
    (v : qrCodeVersion) (encoded : Bits) (border : bool)
    (masks : list Z) (s0 : symbol_) (m0 : Z) :
  (forall s, 0 <= penaltyScore s) ->
  forall vars',
    maskLoop symbol_ buildRegularSymbol numEmptyModules penaltyScore
      v encoded border masks
      {| mv_symbol := Some s0; mv_mask := m0; mv_penalty := 0 |} = Ok vars' ->
    vars' = {| mv_symbol := Some s0; mv_mask := m0; mv_penalty := 0 |}.
Proof.
  intros Hpos. induction masks as [|m rest IH]; intros vars' Hrun.
  - cbn [maskLoop] in Hrun. injection Hrun as <-. reflexivity.
  - cbn [maskLoop] in Hrun. unfold maskBody in Hrun at 1.
    destruct (buildRegularSymbol v m encoded border) as [msg|s];
      [discriminate|].
    destruct (negb (numEmptyModules s =? 0)); [discriminate|].
    cbn [mv_symbol mv_penalty isNil orb] in Hrun.
    destruct (Z.ltb_spec (penaltyScore s) 0) as [Hlt|Hge].
    + specialize (Hpos s). lia.
    + cbn [rbind] in Hrun. apply IH, Hrun.
Qed.

(** ** Construction: C6 and C7 *)

Lemma smallestVersion_spec (l : list qrCodeVersion) (v : qrCodeVersion) :
  smallestVersion l = Some v ->
  In v l /\ forall w, In w l -> version v <= version w.
Proof.
  revert v. induction l as [|x l IH]; intros v H; [discriminate|].
  unfold smallestVersion in H. cbn [fold_right] in H.
  fold (smallestVersion l) in H.
  destruct (smallestVersion l) as [w|] eqn:Hl; cbn [smallerVersion] in H.
  - destruct (IH w eq_refl) as [Hin Hmin].
    destruct (Z.leb_spec (version x) (version w)); injection H as <-.
    + split; [left; reflexivity|]. intros u [<-|Hu]; [lia|].
      specialize (Hmin u Hu). lia.
    + split; [right; exact Hin|]. intros u [<-|Hu]; [lia|]. apply Hmin, Hu.
  - injection H as <-. split; [left; reflexivity|].
    intros u [<-|Hu]; [lia|].
    destruct l as [|y l]; [contradiction|].
    unfold smallestVersion in Hl. cbn [fold_right] in Hl.
    destruct (fold_right smallerVersion None l); cbn [smallerVersion] in Hl;
      [destruct (version y <=? version _)|]; discriminate.
Qed.

Lemma smallestVersion_none (l : list qrCodeVersion) :
  smallestVersion l = None -> l = [].
Proof.
  destruct l as [|y l]; [reflexivity|]. unfold smallestVersion.
  cbn [fold_right].
  destruct (fold_right smallerVersion None l); cbn [smallerVersion];
    [destruct (version y <=? version _)|]; discriminate.
Qed.

Section NewProperties.

Variable symbol_ : Type.
Variable encoderEncode : dataEncoderType -> list Z -> string + Bits.
Variable versions : list qrCodeVersion.
Variable fits : qrCodeVersion -> Z -> bool.

Let choose := chooseQRCodeVersion versions fits.
Let choice := bandChoice encoderEncode versions fits.
Let new := New symbol_ encoderEncode versions fits.

(** The version chosen in a band is, among the versions of the catalog
    at the level, within the band and with room for the stream, the one
    of smallest number. *)
Lemma chooseQRCodeVersion_smallest
      (level_ : RecoveryLevel) (t : dataEncoderType) (numBits : Z)
      (v : qrCodeVersion) :
  choose level_ t numBits = Some v ->
  In v versions /\ level v = level_ /\
  minVersion t <= version v <= maxVersion t /\ fits v numBits = true /\
  forall w, In w versions -> level w = level_ ->
            minVersion t <= version w <= maxVersion t ->
            fits w numBits = true -> version v <= version w.
Proof.
  intros H. unfold choose, chooseQRCodeVersion in H.
  apply smallestVersion_spec in H as [Hin Hmin].
  apply filter_In in Hin as [Hin Hc]. unfold candidate in Hc.
  apply andb_true_iff in Hc as [Hc Hf].
  apply andb_true_iff in Hc as [Hc Hmax].
  apply andb_true_iff in Hc as [Hl Hminv].
  repeat split; try assumption; try lia.
  intros w Hw Hlw Hband Hfw. apply Hmin. apply filter_In.
  split; [exact Hw|]. unfold candidate.
  rewrite Hfw, andb_true_r. repeat (apply andb_true_iff; split); lia.
Qed.

(** No version of the catalog at the level: no band chooses one. *)
Lemma chooseQRCodeVersion_no_level
      (level_ : RecoveryLevel) (t : dataEncoderType) (numBits : Z) :
  (forall v, In v versions -> level v <> level_) ->
  choose level_ t numBits = None.
Proof.
  intros Hno. destruct (choose level_ t numBits) as [v|] eqn:H;
    [|reflexivity].
  apply chooseQRCodeVersion_smallest in H as (Hin & Hl & _).
  exfalso. exact (Hno v Hin Hl).
Qed.


(** The outcome of [New], by the first band that offers a version. *)
Lemma New_outcome (content : list Z) (level_ : RecoveryLevel) :
  (forall t encoded v,
      choice content level_ t = Some (encoded, v) ->
      (forall t', bandIndex t' < bandIndex t ->
                  choice content level_ t' = None) ->
      new content level_ =
      inr {| QRCode.Content := content; QRCode.Level := level_;
             QRCode.VersionNumber := version v;
             QRCode.DisableBorder := false; QRCode.encoder := t;
             QRCode.version := v; QRCode.data := encoded;
             QRCode.symbol := None; QRCode.mask := 0 |}) /\
  ((forall t, choice content level_ t = None) ->
   match encoderEncode dataEncoderType27To40 content with
   | inr _ => new content level_ = inl ContentTooLong
   | inl msg => new content level_ = inl (EncoderError msg)
   end).
Proof.
  unfold new, New, choice, bandChoice. cbn [newLoop].
  split.
  - intros t encoded v Hc Hfirst.
    pose proof (Hfirst dataEncoderType1To9) as H1.
    pose proof (Hfirst dataEncoderType10To26) as H2.
    destruct t; cbn [bandIndex] in H1, H2;
      try (specialize (H1 ltac:(lia))); try (specialize (H2 ltac:(lia)));
      destruct (encoderEncode dataEncoderType1To9 content) as [m1|e1];
      try destruct (chooseQRCodeVersion versions fits level_
                      dataEncoderType1To9 (Len e1)) as [v1|];
      try discriminate;
      try (injection Hc as <- <-; reflexivity);
      destruct (encoderEncode dataEncoderType10To26 content) as [m2|e2];
      try destruct (chooseQRCodeVersion versions fits level_
                      dataEncoderType10To26 (Len e2)) as [v2|];
      try discriminate;
      try (injection Hc as <- <-; reflexivity);
      destruct (encoderEncode dataEncoderType27To40 content) as [m3|e3];
      try destruct (chooseQRCodeVersion versions fits level_
                      dataEncoderType27To40 (Len e3)) as [v3|];
      try discriminate;
      try (injection Hc as <- <-; reflexivity).
  - intros Hnone.
    pose proof (Hnone dataEncoderType1To9) as H1.
    pose proof (Hnone dataEncoderType10To26) as H2.
    pose proof (Hnone dataEncoderType27To40) as H3.
    destruct (encoderEncode dataEncoderType1To9 content) as [m1|e1];
      try destruct (chooseQRCodeVersion versions fits level_
                      dataEncoderType1To9 (Len e1)) as [v1|];
      try discriminate;
      destruct (encoderEncode dataEncoderType10To26 content) as [m2|e2];
      try destruct (chooseQRCodeVersion versions fits level_
                      dataEncoderType10To26 (Len e2)) as [v2|];
      try discriminate;
      destruct (encoderEncode dataEncoderType27To40 content) as [m3|e3];
      try destruct (chooseQRCodeVersion versions fits level_
                      dataEncoderType27To40 (Len e3)) as [v3|];
      try discriminate; reflexivity.
Qed.

End NewProperties.



Example New_first_band :
  exists q,
    New unit (fun _ c => inr (AppendBytes [] c))
      [ {| level := Medium; version := 1;
           block := [ {| numBlocks := 1; numCodewords := 26;
                         numDataCodewords := 16 |} ];
           numRemainderBits := 0 |};
        {| level := Medium; version := 2;
           block := [ {| numBlocks := 1; numCodewords := 44;
                         numDataCodewords := 28 |} ];
           numRemainderBits := 7 |} ]
      (fun v n => n <=? numDataBits v)
      (repeat 65 17) Medium = inr q /\
    QRCode.VersionNumber q = 2 /\ QRCode.encoder q = dataEncoderType1To9.
Proof. eexists. split; [reflexivity|]. split; reflexivity. Qed.

(** An error of the encoder of the last band is what [New] returns when
    no band offers a version. *)
Lemma New_returns_encoder_error
    (symbol_ : Type)
    (encoderEncode : dataEncoderType -> list Z -> string + Bits)
    (versions : list qrCodeVersion) (fits : qrCodeVersion -> Z -> bool)
    (content : list Z) (level_ : RecoveryLevel) (msg : string) :
  (forall t, bandChoice encoderEncode versions fits content level_ t = None) ->
  encoderEncode dataEncoderType27To40 content = inl msg ->
  New symbol_ encoderEncode versions fits content level_
    = inl (EncoderError msg).
Proof.
  intros Hno Henc.
  destruct (New_outcome symbol_ encoderEncode versions fits content level_)
    as [_ Hnone].
  specialize (Hnone Hno). rewrite Henc in Hnone. exact Hnone.
Qed.

(** C7 (amended). For a recovery level outside {L, M, Q, H}, which no
    version of the catalog has, [New] returns an error and no symbol, and
    does not panic; the error is never [InvalidRecoveryLevel]: it is
    "content too long to encode" when the encoder of the last band has
    returned a stream, and the error of that encoder otherwise. *)
Theorem New_invalid_level
    (symbol_ : Type)
    (encoderEncode : dataEncoderType -> list Z -> string + Bits)
    (versions : list qrCodeVersion) (fits : qrCodeVersion -> Z -> bool)
    (content : list Z) (level_ : RecoveryLevel) :
  (forall v, In v versions -> validLevel (level v)) ->
  ~ validLevel level_ ->
  (exists e, New symbol_ encoderEncode versions fits content level_ = inl e /\
             e <> InvalidRecoveryLevel) /\
  (forall encoded,
     encoderEncode dataEncoderType27To40 content = inr encoded ->
     New symbol_ encoderEncode versions fits content level_
       = inl ContentTooLong) /\
  (forall msg,
     encoderEncode dataEncoderType27To40 content = inl msg ->
     New symbol_ encoderEncode versions fits content level_
       = inl (EncoderError msg)).
Proof.
  intros Hcat Hlevel.
  assert (Hno : forall t,
             bandChoice encoderEncode versions fits content level_ t = None).
  { intros t. unfold bandChoice.
    destruct (encoderEncode t content) as [msg|e]; [reflexivity|].
    rewrite chooseQRCodeVersion_no_level; [reflexivity|].
    intros v Hv Heq. apply Hlevel. rewrite <- Heq. apply Hcat, Hv. }
  destruct (New_outcome symbol_ encoderEncode versions fits content level_)
    as [_ Hnone].
  specialize (Hnone Hno).
  destruct (encoderEncode dataEncoderType27To40 content) as [msg|e].
  - split; [exists (EncoderError msg); split; [exact Hnone | discriminate]|].
    split; [discriminate|]. intros msg' H. injection H as <-. exact Hnone.
  - split; [exists ContentTooLong; split; [exact Hnone | discriminate]|].
    split; [intros; exact Hnone | discriminate].
Qed.

Lemma New_invalid_level_witness :
  New unit (fun _ c => inr (AppendBytes [] c))
      [ {| level := Medium; version := 1;
           block := [ {| numBlocks := 1; numCodewords := 26;
                         numDataCodewords := 16 |} ];
           numRemainderBits := 0 |} ]
      (fun v n => n <=? numDataBits v)
      [65] 7 = inl ContentTooLong.
Proof.
  destruct (New_invalid_level unit
              (fun _ c => inr (AppendBytes [] c))
              [ {| level := Medium; version := 1;
                   block := [ {| numBlocks := 1; numCodewords := 26;
                                 numDataCodewords := 16 |} ];
                   numRemainderBits := 0 |} ]
              (fun v n => n <=? numDataBits v)
              [65] 7) as (_ & H & _).
  - intros v [<-|[]]. right. left. reflexivity.
  - unfold validLevel, Low, Medium, High, Highest. lia.
  - apply (H (AppendBytes [] [65])). reflexivity.
Defined.

(** The claim C7 as stated fails at the level 7: the error that [New]
    returns for one byte of content is "content too long to encode". *)
Lemma New_level_7_content_too_long :
  ~ validLevel 7 /\
  New unit (fun _ c => inr (AppendBytes [] c))
      [ {| level := Medium; version := 1;
           block := [ {| numBlocks := 1; numCodewords := 26;
                         numDataCodewords := 16 |} ];
           numRemainderBits := 0 |} ]
      (fun v n => n <=? numDataBits v)
      [65] 7 = inl ContentTooLong /\
  ContentTooLong <> InvalidRecoveryLevel.
Proof.
  split; [unfold validLevel, Low, Medium, High, Highest; lia|].
  split; [reflexivity | discriminate].
Qed.

(** ** The encoder on pointers: C10 *)

Lemma fresh_not_in_use (h : store) (l : positive) :
  is_Some (h !! l) -> fresh (dom h) <> l.
Proof.
  intros Hl Heq. apply elem_of_dom in Hl.
  rewrite <- Heq in Hl. exact (is_fresh (dom h) Hl).
Qed.

(** The store after [EncodePtr] agrees with the store before on every
    location that was in use; the result is a new location, with the bits
    that [Encode] computes. *)
Lemma EncodePtr_frame (h : store) (data_ : positive) (numECBytes : Z) :
  (forall l, is_Some (h !! l) ->
             fst (EncodePtr data_ numECBytes h) !! l = h !! l) /\
  (forall bits, h !! data_ = Some bits ->
     match Encode bits numECBytes, snd (EncodePtr data_ numECBytes h) with
     | Ok out, Ok r =>
         h !! r = None /\ fst (EncodePtr data_ numECBytes h) !! r = Some out
     | Panic m, Panic m' => m = m'
     | _, _ => False
     end).
Proof.
  unfold EncodePtr, sbind, readBits, slift, sret, ClonePtr, AppendBytesPtr,
    Encode, Clone.
  destruct (h !! data_) as [bits|] eqn:Hd; cbn [fst snd].
  2:{ split; [reflexivity | discriminate]. }
  destruct (rsGeneratorPoly numECBytes) as [g|m]; cbn [fst snd rbind sbind].
  2:{ split; [reflexivity|]. intros b Hb. reflexivity. }
  unfold sbind, readBits. rewrite Hd.
  rewrite lookup_insert_eq. cbn [fst snd].
  assert (Hfresh : h !! fresh (dom h) = None).
  { apply not_elem_of_dom, is_fresh. }
  split.
  - intros l Hl. rewrite insert_insert_eq.
    apply lookup_insert_ne, fresh_not_in_use, Hl.
  - intros b Hb. injection Hb as <-. split; [exact Hfresh|].
    rewrite insert_insert_eq. apply lookup_insert_eq.
Qed.

(** C10. [Encode] does not change its argument: whatever the store, the
    pointer and the number of error correction bytes, and whether the
    call returns or panics, the stream behind [data] has the same bits
    after the call as before; the bytes go to a clone, a stream that was
    not in use before. *)
Theorem Encode_keeps_input (h : store) (data_ : positive) (numECBytes : Z) :
  fst (EncodePtr data_ numECBytes h) !! data_ = h !! data_ /\
  forall r, snd (EncodePtr data_ numECBytes h) = Ok r ->
            r <> data_ /\ h !! r = None.
Proof.
  destruct (EncodePtr_frame h data_ numECBytes) as [Hframe Hres].
  destruct (h !! data_) as [bits|] eqn:Hd.
  - split.
    + rewrite <- Hd. apply Hframe. rewrite Hd. eexists; reflexivity.
    + intros r Hr. specialize (Hres bits eq_refl). rewrite Hr in Hres.
      destruct (Encode bits numECBytes) as [out|m]; [|contradiction].
      destruct Hres as [Hnew _]. split; [|exact Hnew].
      intros ->. rewrite Hd in Hnew. discriminate.
  - split.
    + unfold EncodePtr, sbind, readBits. rewrite Hd. cbn [fst]. exact Hd.
    + intros r Hr. unfold EncodePtr, sbind, readBits in Hr.
      rewrite Hd in Hr. cbn [snd] in Hr. discriminate.
Qed.

Example EncodePtr_ex :
  let h : store := {[ 1%positive := [true; false; true] ]} in
  fst (EncodePtr 1%positive 2 h) !! 1%positive = Some [true; false; true] /\
  snd (EncodePtr 1%positive 2 h) = Ok 2%positive /\
  option_map (@length bool) (fst (EncodePtr 1%positive 2 h) !! 2%positive)
    = Some 19%nat.
Proof. vm_compute. repeat split. Qed.

(** ** Blocks and interleaving: C2 *)

Lemma Substr_ok (b : Bits) (start end_ : Z) :
  0 <= start -> start <= end_ -> end_ <= Len b ->
  Substr b start end_ =
  Ok (firstn (Z.to_nat (end_ - start)) (skipn (Z.to_nat start) b)).
Proof.
  intros H1 H2 H3. unfold Substr.
  destruct (Z.leb_spec 0 start); [|lia].
  destruct (Z.leb_spec start end_); [|lia].
  destruct (Z.leb_spec end_ (Len b)); [|lia]. reflexivity.
Qed.

Lemma Encode_shape (d : Bits) (e : Z) :
  2 <= e <= 256 ->
  Encode d e = Ok (d ++ ecBits d e) /\
  length (ecBits d e) = (8 * Z.to_nat e)%nat.
Proof.
  intros He.
  destruct (Encode_division d e He) as (g & ec & q & _ & Henc & Hlen & _).
  unfold ecBits. rewrite Henc, drop_app_length.
  split; [reflexivity|]. rewrite length_concat_byteBits, Hlen. reflexivity.
Qed.

Lemma layoutBits_nonneg (l : list (Z * Z)) :
  Forall validBlock l -> 0 <= layoutBits l.
Proof.
  induction 1 as [|[k e] l [Hk _] _ IH]; [reflexivity|].
  unfold layoutBits. cbn [fold_right fst]. fold (layoutBits l).
  cbn [fst] in Hk. lia.
Qed.

Lemma layoutBits_app (l1 l2 : list (Z * Z)) :
  layoutBits (l1 ++ l2) = layoutBits l1 + layoutBits l2.
Proof.
  induction l1 as [|ke l1 IH]; [reflexivity|].
  unfold layoutBits in *. cbn [app fold_right]. rewrite IH. lia.
Qed.

Lemma layoutBits_repeat (k e : Z) (n : nat) :
  layoutBits (repeat (k, e) n) = Z.of_nat n * (8 * k).
Proof.
  induction n as [|n IH]; [reflexivity|].
  unfold layoutBits in *. cbn [repeat fold_right fst]. rewrite IH. lia.
Qed.

Lemma blocksFrom_app (l1 l2 : list (Z * Z)) (bits : Bits) :
  Forall validBlock l1 ->
  blocksFrom (l1 ++ l2) bits =
  blocksFrom l1 bits ++ blocksFrom l2 (skipn (Z.to_nat (layoutBits l1)) bits).
Proof.
  intros Hv. revert bits.
  induction Hv as [|[k e] l1 [Hk He] Hv IH]; intros bits; [reflexivity|].
  cbn [app blocksFrom]. f_equal. rewrite IH, skipn_skipn. do 2 f_equal.
  unfold layoutBits. cbn [fold_right fst]. fold (layoutBits l1).
  cbn [fst] in Hk. pose proof (layoutBits_nonneg l1 Hv). f_equal. lia.
Qed.

Lemma length_blocksFrom (l : list (Z * Z)) (bits : Bits) :
  length (blocksFrom l bits) = length l.
Proof.
  revert bits. induction l as [|[k e] l IH]; intros bits; [reflexivity|].
  cbn [blocksFrom length]. rewrite IH. reflexivity.
Qed.

(** One turn of the inner loop writes the next block. *)
Lemma splitBody_block (qdata : Bits) (b : blockGroup)
      (done : list dataBlock.t) (m : nat) (s start0 : Z) :
  0 <= numDataCodewords b ->
  2 <= numCodewords b - numDataCodewords b <= 256 ->
  0 <= s -> s + 8 * numDataCodewords b <= Len qdata ->
  splitBody qdata b
    {| sv_block := done ++ repeat dataBlock.zero (S m); sv_start := start0;
       sv_end := s; sv_blockID := Z.of_nat (length done) |} =
  Ok {| sv_block :=
          (done ++ blocksFrom
                     [(numDataCodewords b,
                       numCodewords b - numDataCodewords b)]
                     (skipn (Z.to_nat s) qdata))
          ++ repeat dataBlock.zero m;
        sv_start := s;
        sv_end := s + 8 * numDataCodewords b;
        sv_blockID := Z.of_nat (length done) + 1 |}.
Proof.
  intros Hk He Hs Hlen. unfold splitBody. cbn [sv_end sv_block sv_blockID].
  rewrite Substr_ok by lia. cbn [rbind].
  replace (s + numDataCodewords b * 8 - s) with (8 * numDataCodewords b) by lia.
  destruct (Encode_shape
              (firstn (Z.to_nat (8 * numDataCodewords b))
                      (skipn (Z.to_nat s) qdata))
              (numCodewords b - numDataCodewords b) He) as [Henc _].
  rewrite Henc. cbn [rbind]. unfold setBlock.
  rewrite length_app, repeat_length.
  destruct (Z.leb_spec 0 (Z.of_nat (length done))); [|lia].
  destruct (Z.ltb_spec (Z.of_nat (length done))
                       (Z.of_nat (length done + S m))); [|lia].
  cbn [andb rbind]. rewrite Nat2Z.id.
  replace (length done) with (length done + 0)%nat at 1 by lia.
  rewrite insert_app_r. cbn [repeat blocksFrom].
  rewrite <- app_assoc. cbn [app].
  f_equal. f_equal; lia.
Qed.

Lemma splitGroup_blocks (n : nat) (qdata : Bits) (b : blockGroup) :
  0 <= numDataCodewords b ->
  2 <= numCodewords b - numDataCodewords b <= 256 ->
  forall (done : list dataBlock.t) (m : nat) (s start0 : Z),
    0 <= s ->
    s + Z.of_nat n * (8 * numDataCodewords b) <= Len qdata ->
    exists start',
      splitGroup n qdata b
        {| sv_block := done ++ repeat dataBlock.zero (n + m);
           sv_start := start0; sv_end := s;
           sv_blockID := Z.of_nat (length done) |} =
      Ok {| sv_block :=
              (done ++ blocksFrom
                         (repeat (numDataCodewords b,
                                  numCodewords b - numDataCodewords b) n)
                         (skipn (Z.to_nat s) qdata))
              ++ repeat dataBlock.zero m;
            sv_start := start';
            sv_end := s + Z.of_nat n * (8 * numDataCodewords b);
            sv_blockID := Z.of_nat (length done + n) |}.
Proof.
  intros Hk He. induction n as [|n IH]; intros done m s start0 Hs Hlen.
  - exists start0. cbn [splitGroup repeat blocksFrom plus].
    rewrite app_nil_r, Nat.add_0_r. do 2 f_equal. lia.
  - cbn [splitGroup plus]. rewrite splitBody_block by lia. cbn [rbind].
    set (blk := blocksFrom _ (skipn (Z.to_nat s) qdata)).
    replace (Z.of_nat (length done) + 1) with (Z.of_nat (length (done ++ blk)))
      by (unfold blk; rewrite length_app; cbn [blocksFrom length]; lia).
    destruct (IH (done ++ blk) m (s + 8 * numDataCodewords b) s)
      as (start' & Hrun); [lia | lia |].
    exists start'. rewrite Hrun. f_equal. f_equal.
    + f_equal. rewrite <- app_assoc. f_equal. unfold blk.
      cbn [repeat blocksFrom app]. f_equal. rewrite skipn_skipn.
      do 2 f_equal. lia.
    + lia.
    + unfold blk. rewrite length_app. cbn [blocksFrom length]. lia.
Qed.

Lemma length_groupLayout (g : blockGroup) :
  length (groupLayout g) = Z.to_nat (numBlocks g).
Proof. apply repeat_length. Qed.

Lemma validBlock_groupLayout (g : blockGroup) :
  validGroup g -> Forall validBlock (groupLayout g).
Proof.
  intros (Hn & Hk & He). apply List.Forall_forall. intros ke Hin.
  apply repeat_spec in Hin as ->. split; assumption.
Qed.

Lemma validBlock_flat_map (groups : list blockGroup) :
  Forall validGroup groups -> Forall validBlock (flat_map groupLayout groups).
Proof.
  induction 1 as [|g groups Hg _ IH]; [constructor|].
  cbn [flat_map]. apply Forall_app. split; [|exact IH].
  apply validBlock_groupLayout, Hg.
Qed.

Lemma splitGroups_blocks (qdata : Bits) (groups : list blockGroup) :
  Forall validGroup groups ->
  forall (done : list dataBlock.t) (m : nat) (s start0 : Z),
    0 <= s ->
    s + layoutBits (flat_map groupLayout groups) <= Len qdata ->
    exists start',
      splitGroups qdata groups
        {| sv_block :=
             done ++ repeat dataBlock.zero
                       (length (flat_map groupLayout groups) + m);
           sv_start := start0; sv_end := s;
           sv_blockID := Z.of_nat (length done) |} =
      Ok {| sv_block :=
              (done ++ blocksFrom (flat_map groupLayout groups)
                                  (skipn (Z.to_nat s) qdata))
              ++ repeat dataBlock.zero m;
            sv_start := start';
            sv_end := s + layoutBits (flat_map groupLayout groups);
            sv_blockID :=
              Z.of_nat (length done + length (flat_map groupLayout groups)) |}.
Proof.
  induction 1 as [|g groups Hg Hgs IH]; intros done m s start0 Hs Hlen.
  - exists start0. cbn [splitGroups flat_map blocksFrom length plus].
    rewrite app_nil_r, Nat.add_0_r. do 2 f_equal.
    unfold layoutBits. cbn [fold_right]. lia.
  - cbn [splitGroups flat_map] in *.
    rewrite layoutBits_app in *. rewrite length_app, <- Nat.add_assoc.
    pose proof Hg as (Hn & Hk & He).
    pose proof (layoutBits_nonneg _ (validBlock_flat_map groups Hgs)) as Hpos.
    assert (Hgl : layoutBits (groupLayout g) =
                  Z.of_nat (Z.to_nat (numBlocks g)) * (8 * numDataCodewords g))
      by apply layoutBits_repeat.
    rewrite Hgl in *. rewrite length_groupLayout.
    destruct (splitGroup_blocks (Z.to_nat (numBlocks g)) qdata g Hk He done
                (length (flat_map groupLayout groups) + m) s start0)
      as (start1 & Hrun1); [lia | lia |].
    rewrite Hrun1. cbn [rbind].
    fold (groupLayout g).
    set (done1 := done ++ blocksFrom (groupLayout g) (skipn (Z.to_nat s) qdata)).
    replace (Z.of_nat (length done + Z.to_nat (numBlocks g)))
      with (Z.of_nat (length done1))
      by (unfold done1; rewrite length_app, length_blocksFrom,
            length_groupLayout; reflexivity).
    destruct (IH done1 m
                (s + Z.of_nat (Z.to_nat (numBlocks g))
                     * (8 * numDataCodewords g)) start1)
      as (start' & Hrun); [lia | lia |].
    exists start'. rewrite Hrun. f_equal. f_equal.
    + f_equal. unfold done1. rewrite <- app_assoc. f_equal.
      rewrite blocksFrom_app by (apply validBlock_groupLayout, Hg).
      f_equal. rewrite skipn_skipn. do 2 f_equal. rewrite Hgl. lia.
    + lia.
    + unfold done1. rewrite length_app, length_blocksFrom, length_groupLayout. lia.
Qed.

(** *** The two interleaving loops *)

Lemma columnOf_cons (row : Bits) (rows : list Bits) (c : nat) :
  columnOf (row :: rows) c =
  (if (c <? rowBytes row)%nat then byteOf row c else []) ++ columnOf rows c.
Proof. reflexivity. Qed.

Lemma columnOf_beyond (rows : list Bits) (c : nat) :
  (maxRowBytes rows <= c)%nat -> columnOf rows c = [].
Proof.
  induction rows as [|row rows IH]; intros Hc; [reflexivity|].
  cbn [maxRowBytes fold_right] in Hc. fold (maxRowBytes rows) in Hc.
  rewrite columnOf_cons, IH by lia.
  destruct (Nat.ltb_spec c (rowBytes row)); [lia | reflexivity].
Qed.

(** One turn over the blocks adds the column [c] of the rows, when every
    block adds in this turn what its row has in the column. *)
Lemma blockPass_column (col : dataBlock.t -> option (result Bits)) (c : nat)
      (bs : list dataBlock.t) (rows : list Bits) :
  Forall2 (fun b row =>
             col b = if (c <? rowBytes row)%nat
                     then Some (Ok (byteOf row c)) else None) bs rows ->
  forall (res : Bits) (w : bool),
    blockPass col bs res w =
    Ok (res ++ columnOf rows c, w || (c <? maxRowBytes rows)%nat).
Proof.
  induction 1 as [|b row bs rows Hcol _ IH]; intros res w.
  - cbn [blockPass]. unfold columnOf. cbn [map concat maxRowBytes fold_right].
    rewrite app_nil_r, orb_false_r. reflexivity.
  - cbn [blockPass]. rewrite Hcol, columnOf_cons.
    cbn [maxRowBytes fold_right]. fold (maxRowBytes rows).
    destruct (Nat.ltb_spec c (rowBytes row)) as [Hlt|Hge].
    + cbn [rbind]. rewrite IH. unfold Append. rewrite <- app_assoc.
      f_equal. f_equal.
      destruct (Nat.ltb_spec c (Nat.max (rowBytes row) (maxRowBytes rows)));
        [|lia].
      rewrite orb_true_r. reflexivity.
    + rewrite IH. cbn [app]. do 2 f_equal.
      destruct (Nat.ltb_spec c (maxRowBytes rows)),
        (Nat.ltb_spec c (Nat.max (rowBytes row) (maxRowBytes rows)));
        try reflexivity; lia.
Qed.

(** With fuel for one turn more than the longest row has bytes, the loop
    adds the columns in order and stops. *)
Lemma columnLoop_columns
      (column : Z -> dataBlock.t -> option (result Bits))
      (bs : list dataBlock.t) (rows : list Bits) :
  (forall c : nat,
      Forall2 (fun b row =>
                 column (8 * Z.of_nat c) b =
                 if (c <? rowBytes row)%nat
                 then Some (Ok (byteOf row c)) else None) bs rows) ->
  forall (n c : nat) (res : Bits) (fuel : nat),
    maxRowBytes rows = (c + n)%nat -> (n < fuel)%nat ->
    columnLoop fuel column bs (8 * Z.of_nat c) res =
    Some (Ok (res ++ concat (map (columnOf rows) (seq c n)))).
Proof.
  intros Hrel. induction n as [|n IH]; intros c res fuel Hmax Hfuel;
    (destruct fuel as [|f]; [lia|]); cbn [columnLoop];
    rewrite (blockPass_column _ c bs rows (Hrel c)); cbn [orb].
  - destruct (Nat.ltb_spec c (maxRowBytes rows)); [lia|].
    rewrite columnOf_beyond by lia. reflexivity.
  - destruct (Nat.ltb_spec c (maxRowBytes rows)); [|lia].
    replace (8 * Z.of_nat c + 8) with (8 * Z.of_nat (S c)) by lia.
    rewrite IH by lia. cbn [seq map concat]. rewrite <- app_assoc.
    reflexivity.
Qed.

Lemma byte_of_left (d ec : Bits) (a : nat) :
  (a + 8 <= length d)%nat ->
  firstn 8 (skipn a (d ++ ec)) = firstn 8 (skipn a d).
Proof.
  intros Ha. rewrite skipn_app, firstn_app, length_skipn.
  replace (8 - (length d - a))%nat with 0%nat by lia.
  cbn [firstn]. apply app_nil_r.
Qed.

Lemma byte_of_right (d ec : Bits) (a : nat) :
  firstn 8 (skipn (length d + a) (d ++ ec)) = firstn 8 (skipn a ec).
Proof.
  rewrite skipn_app, skipn_all2 by lia. cbn [app].
  do 2 f_equal. lia.
Qed.

Lemma rowBytes_whole (row : Bits) (k : nat) :
  length row = (8 * k)%nat -> rowBytes row = k.
Proof.
  intros H. unfold rowBytes. rewrite H, Nat.mul_comm. apply Nat.div_mul. lia.
Qed.

Lemma dataColumn_rows (layout : list (Z * Z)) (c : nat) :
  Forall validBlock layout ->
  forall bits : Bits,
    layoutBits layout <= Len bits ->
    Forall2 (fun b row =>
               dataColumn (8 * Z.of_nat c) b =
               if (c <? rowBytes row)%nat
               then Some (Ok (byteOf row c)) else None)
            (blocksFrom layout bits) (splitPayload layout bits).
Proof.
  induction 1 as [|[k e] layout [Hk He] Hv IH]; intros bits Hlen;
    [constructor|].
  cbn [fst snd] in Hk, He.
  unfold layoutBits in Hlen. cbn [fold_right fst] in Hlen.
  fold (layoutBits layout) in Hlen.
  pose proof (layoutBits_nonneg layout Hv) as Hpos.
  cbn [blocksFrom splitPayload].
  set (d := firstn (Z.to_nat (8 * k)) bits).
  assert (Hd : length d = (8 * Z.to_nat k)%nat).
  { unfold d. rewrite length_firstn. unfold Len in Hlen. lia. }
  constructor.
  - unfold dataColumn. cbn [dataBlock.ecStartOffset dataBlock.data].
    rewrite (rowBytes_whole d (Z.to_nat k) Hd).
    destruct (Nat.ltb_spec c (Z.to_nat k)) as [Hlt|Hge].
    + destruct (Z.geb_spec (8 * Z.of_nat c) (8 * k)); [lia|].
      rewrite Substr_ok by (unfold Len; rewrite ?length_app; lia).
      do 2 f_equal. unfold byteOf.
      replace (Z.to_nat (8 * Z.of_nat c + 8 - 8 * Z.of_nat c)) with 8%nat
        by lia.
      replace (Z.to_nat (8 * Z.of_nat c)) with (8 * c)%nat by lia.
      apply byte_of_left. lia.
    + destruct (Z.geb_spec (8 * Z.of_nat c) (8 * k)); [reflexivity | lia].
  - apply IH. unfold Len in *. rewrite length_skipn. lia.
Qed.

Lemma ecColumn_rows (layout : list (Z * Z)) (c : nat) :
  Forall validBlock layout ->
  forall bits : Bits,
    layoutBits layout <= Len bits ->
    Forall2 (fun b row =>
               ecColumn (8 * Z.of_nat c) b =
               if (c <? rowBytes row)%nat
               then Some (Ok (byteOf row c)) else None)
            (blocksFrom layout bits)
            (map (fun dl => ecBits (fst dl) (snd (snd dl)))
                 (combine (splitPayload layout bits) layout)).
Proof.
  induction 1 as [|[k e] layout [Hk He] Hv IH]; intros bits Hlen;
    [constructor|].
  cbn [fst snd] in Hk, He.
  unfold layoutBits in Hlen. cbn [fold_right fst] in Hlen.
  fold (layoutBits layout) in Hlen.
  pose proof (layoutBits_nonneg layout Hv) as Hpos.
  cbn [blocksFrom splitPayload combine map fst snd].
  set (d := firstn (Z.to_nat (8 * k)) bits).
  assert (Hd : length d = (8 * Z.to_nat k)%nat).
  { unfold d. rewrite length_firstn. unfold Len in Hlen. lia. }
  destruct (Encode_shape d e He) as [_ Hec].
  constructor.
  - unfold ecColumn. cbn [dataBlock.ecStartOffset dataBlock.data].
    rewrite (rowBytes_whole (ecBits d e) (Z.to_nat e) Hec).
    assert (HL : Len (d ++ ecBits d e) = 8 * k + 8 * e).
    { unfold Len. rewrite length_app, Hd, Hec. lia. }
    rewrite HL.
    destruct (Nat.ltb_spec c (Z.to_nat e)) as [Hlt|Hge].
    + destruct (Z.geb_spec (8 * Z.of_nat c + 8 * k) (8 * k + 8 * e)); [lia|].
      rewrite Substr_ok by lia.
      do 2 f_equal. unfold byteOf.
      replace (Z.to_nat (8 * Z.of_nat c + 8 * k + 8
                         - (8 * Z.of_nat c + 8 * k))) with 8%nat by lia.
      replace (Z.to_nat (8 * Z.of_nat c + 8 * k))
        with (length d + 8 * c)%nat by lia.
      apply byte_of_right.
    + destruct (Z.geb_spec (8 * Z.of_nat c + 8 * k) (8 * k + 8 * e));
        [reflexivity | lia].
  - apply IH. unfold Len in *. rewrite length_skipn. lia.
Qed.

(** *** The layout of a version *)

Lemma versionNumBlocks_layout (v : qrCodeVersion) :
  Forall validGroup (block v) ->
  versionNumBlocks v = Z.of_nat (length (blockLayout v)).
Proof.
  unfold versionNumBlocks, blockLayout.
  induction 1 as [|g groups (Hn & _) _ IH]; [reflexivity|].
  cbn [fold_right flat_map]. rewrite length_app, length_groupLayout, IH. lia.
Qed.

Lemma layoutBits_groupLayout (g : blockGroup) :
  layoutBits (groupLayout g) =
  Z.of_nat (Z.to_nat (numBlocks g)) * (8 * numDataCodewords g).
Proof. apply layoutBits_repeat. Qed.

Lemma numDataBits_layout (v : qrCodeVersion) :
  Forall validGroup (block v) ->
  numDataBits v = layoutBits (blockLayout v).
Proof.
  unfold numDataBits, blockLayout.
  induction 1 as [|g groups (Hn & _) _ IH]; [reflexivity|].
  cbn [fold_right flat_map].
  rewrite layoutBits_app, IH, layoutBits_groupLayout, Z2Nat.id by exact Hn.
  ring.
Qed.

Lemma splitPayload_concat (layout : list (Z * Z)) :
  Forall validBlock layout ->
  forall bits : Bits,
    concat (splitPayload layout bits) =
    firstn (Z.to_nat (layoutBits layout)) bits.
Proof.
  induction 1 as [|[k e] layout [Hk _] Hv IH]; intros bits; [reflexivity|].
  cbn [fst] in Hk. cbn [splitPayload concat]. rewrite IH.
  unfold layoutBits. cbn [fold_right fst]. fold (layoutBits layout).
  pose proof (layoutBits_nonneg layout Hv) as Hpos.
  replace (Z.to_nat (8 * k + layoutBits layout))
    with (Z.to_nat (8 * k) + Z.to_nat (layoutBits layout))%nat by lia.
  rewrite <- (firstn_skipn (Z.to_nat (8 * k)) bits) at 3.
  rewrite firstn_app, length_firstn.
  destruct (Nat.le_ge_cases (Z.to_nat (8 * k)) (length bits)) as [Hle|Hge].
  - rewrite Nat.min_l by exact Hle. rewrite firstn_firstn.
    rewrite Nat.min_r by lia. do 2 f_equal. lia.
  - rewrite !skipn_all2 by lia. rewrite !firstn_nil, !app_nil_r.
    rewrite firstn_firstn. f_equal. lia.
Qed.

Lemma splitPayload_rows (layout : list (Z * Z)) :
  Forall validBlock layout ->
  forall bits : Bits,
    layoutBits layout <= Len bits ->
    Forall2 (fun d ke =>
               Len d = 8 * fst ke /\
               Encode d (snd ke) = Ok (d ++ ecBits d (snd ke)) /\
               Len (ecBits d (snd ke)) = 8 * snd ke)
            (splitPayload layout bits) layout.
Proof.
  induction 1 as [|[k e] layout [Hk He] Hv IH]; intros bits Hlen;
    [constructor|].
  cbn [fst snd] in Hk, He.
  unfold layoutBits in Hlen. cbn [fold_right fst] in Hlen.
  fold (layoutBits layout) in Hlen.
  pose proof (layoutBits_nonneg layout Hv) as Hpos.
  cbn [splitPayload]. constructor.
  - cbn [fst snd].
    destruct (Encode_shape (firstn (Z.to_nat (8 * k)) bits) e He)
      as [Henc Hec].
    split; [|split; [exact Henc|]].
    + unfold Len in *. rewrite length_firstn. lia.
    + unfold Len. rewrite Hec. lia.
  - apply IH. unfold Len in *. rewrite length_skipn. lia.
Qed.

(** C2. For a version whose groups have counts that are not negative and
    from 2 to 256 error correction codewords per block, and a payload of
    at least [numDataBits] bits: the payload is cut into the blocks of the
    layout in block-index order, k_i data codewords each; [Encode] appends
    n_i - k_i error correction bytes to each; and with fuel enough for the
    turns of its two loops [encodeBlocks] returns the data bytes read
    column by column over the blocks in block-index order, a block without
    a byte in a column being skipped, then the error correction bytes read
    the same way, then [numRemainderBits] zero bits. *)
Theorem encodeBlocks_interleaves (v : qrCodeVersion) (qdata : Bits) :
  Forall validGroup (block v) ->
  numDataBits v <= Len qdata ->
  concat (dataRows v qdata) = firstn (Z.to_nat (numDataBits v)) qdata /\
  Forall2 (fun d ke =>
             Len d = 8 * fst ke /\
             Encode d (snd ke) = Ok (d ++ ecBits d (snd ke)) /\
             Len (ecBits d (snd ke)) = 8 * snd ke)
          (dataRows v qdata) (blockLayout v) /\
  exists fuel0 : nat,
    forall fuel : nat, (fuel0 <= fuel)%nat ->
      encodeBlocks fuel v qdata = Some (Ok (interleaved v qdata)).
Proof.
  intros Hvalid Hlen.
  pose proof (validBlock_flat_map (block v) Hvalid) as Hlayout.
  fold (blockLayout v) in Hlayout.
  rewrite (numDataBits_layout v Hvalid) in *.
  split; [apply splitPayload_concat, Hlayout|].
  split; [apply splitPayload_rows; assumption|].
  exists (S (Nat.max (maxRowBytes (dataRows v qdata))
                     (maxRowBytes (ecRows v qdata)))).
  intros fuel Hfuel. unfold encodeBlocks, makeBlocks.
  rewrite (versionNumBlocks_layout v Hvalid).
  destruct (Z.ltb_spec (Z.of_nat (length (blockLayout v))) 0); [lia|].
  cbn [rbind]. rewrite Nat2Z.id.
  destruct (splitGroups_blocks qdata (block v) Hvalid [] 0 0 0)
    as (start' & Hsplit); [lia | fold (blockLayout v); lia |].
  fold (blockLayout v) in Hsplit.
  cbn [app length] in Hsplit. rewrite Nat.add_0_r in Hsplit.
  change (Z.of_nat 0) with 0 in Hsplit.
  rewrite Hsplit. cbn [sv_block repeat Z.to_nat skipn].
  rewrite app_nil_r.
  assert (Hd : forall res,
             columnLoop fuel dataColumn (blocksFrom (blockLayout v) qdata)
                        0 res =
             Some (Ok (res ++ columnMajor (dataRows v qdata)))).
  { intros res.
    apply (columnLoop_columns dataColumn _ (dataRows v qdata)
             (fun c => dataColumn_rows (blockLayout v) c Hlayout qdata Hlen)
             (maxRowBytes (dataRows v qdata)) 0 res fuel eq_refl). lia. }
  assert (He : forall res,
             columnLoop fuel ecColumn (blocksFrom (blockLayout v) qdata)
                        0 res =
             Some (Ok (res ++ columnMajor (ecRows v qdata)))).
  { intros res.
    apply (columnLoop_columns ecColumn _ (ecRows v qdata)
             (fun c => ecColumn_rows (blockLayout v) c Hlayout qdata Hlen)
             (maxRowBytes (ecRows v qdata)) 0 res fuel eq_refl). lia. }
  rewrite Hd, He.
  unfold AppendNumBools, interleaved. cbn [app].
  rewrite <- app_assoc. reflexivity.
Qed.

Lemma encodeBlocks_interleaves_witness :
  exists fuel,
    option_map (fun r => match r with Ok out => Bytes out | Panic _ => [] end)
      (encodeBlocks fuel
         {| level := High; version := 5;
            block := [ {| numBlocks := 2; numCodewords := 4;
                          numDataCodewords := 2 |};
                       {| numBlocks := 1; numCodewords := 5;
                          numDataCodewords := 3 |} ];
            numRemainderBits := 3 |}
         (AppendBytes [] [1; 2; 3; 4; 5; 6; 7]))
    = Some [1; 3; 5; 2; 4; 6; 7; 1; 5; 40; 2; 2; 44; 0].
Proof.
  destruct (encodeBlocks_interleaves
              {| level := High; version := 5;
                 block := [ {| numBlocks := 2; numCodewords := 4;
                               numDataCodewords := 2 |};
                            {| numBlocks := 1; numCodewords := 5;
                               numDataCodewords := 3 |} ];
                 numRemainderBits := 3 |}
              (AppendBytes [] [1; 2; 3; 4; 5; 6; 7]))
    as (_ & _ & fuel0 & Hrun).
  - repeat constructor; cbn; lia.
  - vm_compute. discriminate.
  - exists fuel0. rewrite (Hrun fuel0 (le_n fuel0)). vm_compute. reflexivity.
Defined.

(** ** More on the field arithmetic of gf.go *)

Lemma gfMultiply_nonzero (a b : gfElement) :
  is_gf a -> is_gf b -> a <> 0 -> b <> 0 ->
  gfMultiply a b = at_ gfExpTable ((at_ gfLogTable a + at_ gfLogTable b) mod 255)
  /\ 1 <= gfMultiply a b <= 255.
Proof.
  intros Ha Hb Hna Hnb. unfold gfMultiply, gfZero.
  destruct (Z.eqb_spec a 0); [contradiction|].
  destruct (Z.eqb_spec b 0); [contradiction|]. cbn [orb].
  split; [reflexivity|]. apply exp_range.
  pose proof (Z.mod_pos_bound (at_ gfLogTable a + at_ gfLogTable b) 255).
  lia.
Qed.

Lemma gfMultiply_log (a b : gfElement) :
  is_gf a -> is_gf b -> a <> 0 -> b <> 0 ->
  at_ gfLogTable (gfMultiply a b) =
  (at_ gfLogTable a + at_ gfLogTable b) mod 255.
Proof.
  intros Ha Hb Hna Hnb.
  destruct (gfMultiply_nonzero a b Ha Hb Hna Hnb) as [-> _].
  apply log_exp.
  pose proof (Z.mod_pos_bound (at_ gfLogTable a + at_ gfLogTable b) 255).
  lia.
Qed.

Lemma gfMultiply_assoc (a b c : gfElement) :
  is_gf a -> is_gf b -> is_gf c ->
  gfMultiply (gfMultiply a b) c = gfMultiply a (gfMultiply b c).
Proof.
  intros Ha Hb Hc.
  destruct (Z.eq_dec a 0) as [->|Hna]; [reflexivity|].
  destruct (Z.eq_dec b 0) as [->|Hnb].
  { rewrite gfMultiply_0_r, gfMultiply_0_l, gfMultiply_0_r. reflexivity. }
  destruct (Z.eq_dec c 0) as [->|Hnc].
  { rewrite !gfMultiply_0_r. reflexivity. }
  destruct (gfMultiply_nonzero a b Ha Hb Hna Hnb) as [_ Hab].
  destruct (gfMultiply_nonzero b c Hb Hc Hnb Hnc) as [_ Hbc].
  destruct (gfMultiply_nonzero (gfMultiply a b) c) as [-> _];
    [unfold is_gf; lia | exact Hc | lia | exact Hnc |].
  destruct (gfMultiply_nonzero a (gfMultiply b c)) as [-> _];
    [exact Ha | unfold is_gf; lia | exact Hna | lia |].
  rewrite !gfMultiply_log by assumption.
  rewrite Z.add_mod_idemp_l, Z.add_mod_idemp_r, Z.add_assoc by lia.
  reflexivity.
Qed.

Lemma gfInverse_nonzero (a : gfElement) :
  1 <= a <= 255 ->
  gfInverse a = Ok (at_ gfExpTable (255 - at_ gfLogTable a)) /\
  1 <= at_ gfExpTable (255 - at_ gfLogTable a) <= 255 /\
  gfMultiply a (at_ gfExpTable (255 - at_ gfLogTable a)) = 1 /\
  gfInverse (at_ gfExpTable (255 - at_ gfLogTable a)) = Ok a.
Proof.
  intros Ha. unfold gfInverse at 1, gfZero.
  destruct (Z.eqb_spec a 0); [lia|]. split; [reflexivity|].
  pose proof (log_range a Ha) as Hl.
  split; [apply exp_range; lia|].
  assert (H : ((gfMultiply a (at_ gfExpTable (255 - at_ gfLogTable a)) =? 1)
               && match gfInverse (at_ gfExpTable (255 - at_ gfLogTable a)) with
                  | Ok x => x =? a
                  | Panic _ => false
                  end || (a =? 0)) = true).
  { apply (forall_zrange 256
             (fun a =>
                (gfMultiply a (at_ gfExpTable (255 - at_ gfLogTable a)) =? 1)
                && match gfInverse (at_ gfExpTable (255 - at_ gfLogTable a)) with
                   | Ok x => x =? a
                   | Panic _ => false
                   end || (a =? 0)));
      [vm_compute; reflexivity | lia]. }
  apply orb_true_iff in H as [H|H]; [|lia].
  apply andb_true_iff in H as [H1 H2]. split; [lia|].
  destruct (gfInverse (at_ gfExpTable (255 - at_ gfLogTable a))) as [x|m];
    [|discriminate].
  f_equal. lia.
Qed.

(** X1. [gfMultiply] is the multiplication of GF(2^8) that the head of
    gf.go announces: on bytes it equals the product of the two residues
    modulo x^8 + x^4 + x^3 + x^2 + 1, computed without the tables. *)
Theorem gfMultiply_is_product_modulo (a b : gfElement) :
  is_gf a -> is_gf b -> gfMultiply a b = pmul a b.
Proof. apply gfMultiply_pmul. Qed.

Lemma gfMultiply_is_product_modulo_witness : gfMultiply 87 19 = pmul 87 19.
Proof.
  apply (gfMultiply_is_product_modulo 87 19); unfold is_gf; lia.
Defined.

(** X2. On bytes [gfMultiply] stays within the bytes, is commutative and
    associative, and has [gfOne] as unit. *)
Theorem gfMultiply_commutative_monoid (a b c : gfElement) :
  is_gf a -> is_gf b -> is_gf c ->
  is_gf (gfMultiply a b) /\
  gfMultiply a b = gfMultiply b a /\
  gfMultiply (gfMultiply a b) c = gfMultiply a (gfMultiply b c) /\
  gfMultiply a gfOne = a /\ gfMultiply gfOne a = a.
Proof.
  intros Ha Hb Hc.
  split; [apply gfMultiply_is_gf; assumption|].
  split; [apply gfMultiply_comm|].
  split; [apply gfMultiply_assoc; assumption|].
  split; [apply gfMultiply_1_r, Ha | apply gfMultiply_1_l, Ha].
Qed.

Lemma gfMultiply_commutative_monoid_witness :
  gfMultiply (gfMultiply 87 19) 200 = gfMultiply 87 (gfMultiply 19 200).
Proof.
  apply (gfMultiply_commutative_monoid 87 19 200); unfold is_gf; lia.
Defined.

(** X3. [gfMultiply] distributes over [gfAdd], on both sides. *)
Theorem gfMultiply_distributes (a b c : gfElement) :
  is_gf a -> is_gf b -> is_gf c ->
  gfMultiply a (gfAdd b c) = gfAdd (gfMultiply a b) (gfMultiply a c) /\
  gfMultiply (gfAdd a b) c = gfAdd (gfMultiply a c) (gfMultiply b c).
Proof.
  intros Ha Hb Hc. split.
  - apply gfMultiply_add_distr_l; assumption.
  - apply gfMultiply_add_distr_r; assumption.
Qed.

Lemma gfMultiply_distributes_witness :
  gfMultiply 87 (gfAdd 19 200) = gfAdd (gfMultiply 87 19) (gfMultiply 87 200).
Proof.
  apply (gfMultiply_distributes 87 19 200); unfold is_gf; lia.
Defined.

(** X4. A product of bytes is zero only when a factor is zero. *)
Theorem gfMultiply_zero_iff (a b : gfElement) :
  is_gf a -> is_gf b ->
  (gfMultiply a b = 0 <-> a = 0 \/ b = 0).
Proof.
  intros Ha Hb. split.
  - intros H. destruct (Z.eq_dec a 0) as [?|Hna]; [left; assumption|].
    destruct (Z.eq_dec b 0) as [?|Hnb]; [right; assumption|].
    destruct (gfMultiply_nonzero a b Ha Hb Hna Hnb) as [_ Hr]. lia.
  - intros [-> | ->]; [apply gfMultiply_0_l | apply gfMultiply_0_r].
Qed.

Lemma gfMultiply_zero_iff_witness : gfMultiply 0 5 = 0.
Proof.
  apply (gfMultiply_zero_iff 0 5); [unfold is_gf; lia | unfold is_gf; lia |].
  left. reflexivity.
Defined.

(** X5. [gfInverse] panics on zero and on no other byte; the inverse of a
    non-zero byte is a non-zero byte, its product with the byte is 1, and
    its own inverse is the byte. *)
Theorem gfInverse_inverts (a : gfElement) :
  is_gf a ->
  (panics (gfInverse a) <-> a = 0) /\
  (a <> 0 ->
   exists i, gfInverse a = Ok i /\ is_gf i /\ i <> 0 /\
             gfMultiply a i = gfOne /\ gfInverse i = Ok a).
Proof.
  intros Ha. split; [split|].
  - intros [m Hm]. unfold gfInverse, gfZero in Hm.
    destruct (Z.eqb_spec a 0); [assumption | discriminate].
  - intros ->. eexists. reflexivity.
  - intros Hna. unfold is_gf in Ha.
    destruct (gfInverse_nonzero a) as (Hinv & Hr & Hmul & Hback); [lia|].
    eexists. split; [exact Hinv|].
    split; [unfold is_gf; lia|]. split; [lia|].
    split; [exact Hmul | exact Hback].
Qed.

Lemma gfInverse_inverts_witness :
  exists i, gfInverse 2 = Ok i /\ gfMultiply 2 i = gfOne.
Proof.
  destruct (gfInverse_inverts 2) as [_ H]; [unfold is_gf; lia|].
  destruct H as (i & Hi & _ & _ & Hm & _); [lia|].
  exists i. split; [exact Hi | exact Hm].
Defined.

(** X6. Division undoes multiplication and the other way round: for a
    non-zero byte [b], [gfDivide a b] returns a byte whose product with [b]
    is [a], and [gfDivide] of the product of [a] and [b] by [b] returns
    [a]. *)
Theorem gfDivide_undoes_gfMultiply (a b : gfElement) :
  is_gf a -> is_gf b -> b <> 0 ->
  (exists q, gfDivide a b = Ok q /\ is_gf q /\ gfMultiply q b = a) /\
  gfDivide (gfMultiply a b) b = Ok a.
Proof.
  intros Ha Hb Hnb. unfold is_gf in Hb.
  destruct (gfInverse_nonzero b) as (Hinv & Hr & Hmul & _); [lia|].
  set (i := at_ gfExpTable (255 - at_ gfLogTable b)) in *.
  assert (Hi : is_gf i) by (unfold is_gf; lia).
  assert (Hdiv : forall x, is_gf x -> gfDivide x b = Ok (gfMultiply x i)).
  { intros x Hx. unfold gfDivide, gfZero.
    destruct (Z.eqb_spec x 0) as [->|Hnx]; [reflexivity|].
    destruct (Z.eqb_spec b 0); [contradiction|].
    rewrite Hinv. reflexivity. }
  assert (Hib : gfMultiply i b = 1) by (rewrite gfMultiply_comm; exact Hmul).
  split.
  - exists (gfMultiply a i). split; [apply Hdiv, Ha|].
    split; [apply gfMultiply_is_gf; assumption|].
    rewrite gfMultiply_assoc, Hib by (try assumption; unfold is_gf; lia).
    apply gfMultiply_1_r, Ha.
  - rewrite Hdiv by (apply gfMultiply_is_gf; [exact Ha | unfold is_gf; lia]).
    rewrite gfMultiply_assoc, Hmul by (try assumption; unfold is_gf; lia).
    f_equal. apply gfMultiply_1_r, Ha.
Qed.

Lemma gfDivide_undoes_gfMultiply_witness :
  gfDivide (gfMultiply 87 19) 19 = Ok 87.
Proof.
  apply (gfDivide_undoes_gfMultiply 87 19); unfold is_gf; lia.
Defined.

(** X7. Addition and subtraction are the same operation, stay within the
    bytes, and undo each other; every byte is its own opposite. *)
Theorem gfSub_undoes_gfAdd (a b : gfElement) :
  is_gf a -> is_gf b ->
  is_gf (gfAdd a b) /\ gfSub a b = gfAdd a b /\
  gfSub (gfAdd a b) b = a /\ gfAdd (gfSub a b) b = a /\ gfAdd a a = gfZero.
Proof.
  intros Ha Hb. split; [apply gfAdd_is_gf; assumption|].
  split; [reflexivity|]. unfold gfAdd, gfSub, gfZero.
  rewrite !Z.lxor_assoc, !Z.lxor_nilpotent, !Z.lxor_0_r. auto.
Qed.

Lemma gfSub_undoes_gfAdd_witness : gfSub (gfAdd 87 19) 19 = 87.
Proof.
  apply (gfSub_undoes_gfAdd 87 19); unfold is_gf; lia.
Defined.

(** ** More on reed_solomon.go *)



Lemma all_zero_repeat (l : list gfElement) :
  (forall k, coef l k = 0) -> l = repeat 0 (length l).
Proof.
  induction l as [|x l IH]; intros H; [reflexivity|].
  cbn [length repeat]. f_equal.
  - exact (H 0%nat).
  - apply IH. intros k. exact (H (S k)).
Qed.

Lemma concat_byteBits_zero (n : nat) :
  concat (map byteBits (repeat 0 n)) = repeat false (8 * n).
Proof.
  induction n as [|n IH]; [reflexivity|].
  cbn [repeat map concat]. rewrite IH.
  replace (8 * S n)%nat with (8 + 8 * n)%nat by lia.
  rewrite repeat_app. reflexivity.
Qed.

(** X9. The empty stream: for 2 to 256 error correction bytes, [Encode]
    of no data returns that many zero bytes. *)
Theorem Encode_empty (numECBytes : Z) :
  2 <= numECBytes <= 256 ->
  Encode [] numECBytes = Ok (repeat false (8 * Z.to_nat numECBytes)).
Proof.
  intros Hn.
  destruct (Encode_division [] numECBytes Hn)
    as (g & ec & q & Hgen & Henc & Hlen & Hec & Hq & Hdiv).
  destruct (rsGeneratorPoly_ok numECBytes Hn)
    as (g' & Hgen' & Hg & _ & Hlg & Hmonic).
  rewrite Hgen in Hgen'. injection Hgen' as <-.
  assert (Hzero : forall k, coef (rev ec) k = 0).
  { intros k. symmetry.
    transitivity (coef [] k); [destruct k; reflexivity|].
    apply (division_remainder_unique (term g) [] q [] (rev ec)
             (Z.to_nat numECBytes)); try assumption.
    - constructor.
    - cbn [length]. lia.
    - rewrite length_rev. lia.
    - intros j. rewrite <- Hdiv, convCoef_nil_l.
      unfold shiftCoef. change (rev (Bytes [])) with (@nil Z).
      rewrite !(coef_overflow []) by (cbn [length]; lia).
      destruct (_ <=? _)%nat; reflexivity. }
  apply all_zero_repeat in Hzero. rewrite length_rev in Hzero.
  apply (f_equal (@rev Z)) in Hzero. rewrite rev_involutive in Hzero.
  assert (Hrep : rev (repeat 0 (length ec)) = repeat 0 (length ec)).
  { clear. induction (length ec) as [|n IH]; [reflexivity|].
    cbn [repeat rev]. rewrite IH. symmetry. apply repeat_cons. }
  rewrite Hrep in Hzero.
  rewrite Henc, Hzero, Hlen, concat_byteBits_zero. reflexivity.
Qed.

Lemma Encode_empty_witness : Encode [] 7 = Ok (repeat false 56).
Proof. apply (Encode_empty 7). lia. Defined.

(** *** Values of polynomials *)

Lemma gfPolyEval_is_gf (p : list gfElement) (x : gfElement) :
  all_gf p -> is_gf x -> is_gf (gfPolyEval p x).
Proof.
  intros Hp Hx. induction Hp as [|c p Hc Hp IH]; [apply is_gf_0|].
  cbn [gfPolyEval]. apply gfAdd_is_gf; [exact Hc|].
  apply gfMultiply_is_gf; assumption.
Qed.

Lemma gfPolyEval_zero (p : list gfElement) (x : gfElement) :
  (forall k, coef p k = 0) -> gfPolyEval p x = 0.
Proof.
  induction p as [|c p IH]; intros H; [reflexivity|].
  cbn [gfPolyEval]. rewrite IH by (intros k; exact (H (S k))).
  rewrite gfMultiply_0_r. unfold gfAdd. rewrite Z.lxor_0_r. exact (H 0%nat).
Qed.

(** The value depends on the coefficients only, not on zeros at the end
    of the list. *)
Lemma gfPolyEval_ext (p p' : list gfElement) (x : gfElement) :
  (forall k, coef p k = coef p' k) -> gfPolyEval p x = gfPolyEval p' x.
Proof.
  revert p'. induction p as [|c p IH]; intros p' H.
  - symmetry. apply gfPolyEval_zero. intros k. rewrite <- H.
    destruct k; reflexivity.
  - destruct p' as [|c' p'].
    + apply gfPolyEval_zero. intros k. rewrite H. destruct k; reflexivity.
    + cbn [gfPolyEval]. rewrite (IH p') by (intros k; exact (H (S k))).
      f_equal. exact (H 0%nat).
Qed.

Lemma all_gf_xorLists (a b : list gfElement) :
  all_gf a -> all_gf b -> all_gf (xorLists a b).
Proof.
  intros Ha. revert b. induction Ha as [|x a Hx Ha IH]; intros b Hb;
    [exact Hb|].
  destruct Hb as [|y b Hy Hb]; cbn [xorLists].
  - constructor; assumption.
  - constructor; [apply (gfAdd_is_gf x y); assumption | apply IH, Hb].
Qed.

Lemma gfPolyEval_xorLists (a b : list gfElement) (x : gfElement) :
  all_gf a -> all_gf b -> is_gf x ->
  gfPolyEval (xorLists a b) x = gfAdd (gfPolyEval a x) (gfPolyEval b x).
Proof.
  intros Ha. revert b. induction Ha as [|c a Hc Ha IH]; intros b Hb Hx.
  - cbn [xorLists gfPolyEval]. unfold gfAdd, gfZero.
    rewrite Z.lxor_0_l. reflexivity.
  - destruct Hb as [|d b Hd Hb]; cbn [xorLists gfPolyEval].
    + unfold gfAdd, gfZero. rewrite Z.lxor_0_r. reflexivity.
    + rewrite IH by assumption.
      rewrite gfMultiply_add_distr_l
        by (try exact Hx; apply gfPolyEval_is_gf; assumption).
      unfold gfAdd. apply lxor_swap4.
Qed.

Lemma gfPolyEval_scale (c x : gfElement) (p : list gfElement) :
  is_gf c -> is_gf x -> all_gf p ->
  gfPolyEval (map (gfMultiply c) p) x = gfMultiply c (gfPolyEval p x).
Proof.
  intros Hc Hx Hp. induction Hp as [|a p Ha Hp IH].
  - cbn [map gfPolyEval]. rewrite gfMultiply_0_r. reflexivity.
  - cbn [map gfPolyEval]. rewrite IH.
    rewrite gfMultiply_add_distr_l
      by (try assumption;
          try (apply gfMultiply_is_gf;
               [exact Hx | apply gfPolyEval_is_gf; assumption])).
    f_equal.
    rewrite <- !gfMultiply_assoc
      by (try assumption; apply gfPolyEval_is_gf; assumption).
    f_equal. apply gfMultiply_comm.
Qed.

Lemma gfPolyEval_shift_root (s : nat) (p : list gfElement) (x : gfElement) :
  gfPolyEval p x = 0 -> gfPolyEval (repeat 0 s ++ p) x = 0.
Proof.
  intros H. induction s as [|s IH]; [exact H|].
  cbn [repeat app gfPolyEval]. rewrite IH, gfMultiply_0_r. reflexivity.
Qed.

Lemma coef_shifted (s k : nat) (p : list gfElement) :
  coef (repeat 0 s ++ p) k = if (s <=? k)%nat then coef p (k - s) else 0.
Proof.
  unfold coef. destruct (Nat.leb_spec s k) as [H|H].
  - rewrite app_nth2 by (rewrite repeat_length; exact H).
    rewrite repeat_length. reflexivity.
  - rewrite app_nth1 by (rewrite repeat_length; exact H).
    apply nth_repeat.
Qed.

(** A root of [g] is a root of every product with [g]. *)
Lemma gfPolyEval_product_root (q g : list gfElement) (x : gfElement) :
  all_gf q -> all_gf g -> is_gf x -> gfPolyEval g x = 0 ->
  gfPolyEval (term (gfPolyMultiply {| term := q |} {| term := g |})) x = 0.
Proof.
  intros Hq Hg Hx Hroot. induction q as [|c q IH] using rev_ind.
  - apply gfPolyEval_zero. intros k.
    rewrite coef_gfPolyMultiply. apply convCoef_nil_l.
  - apply Forall_app in Hq as [Hq Hc].
    assert (Hc' : is_gf c) by (inversion Hc; assumption).
    set (a := term (gfPolyMultiply {| term := q |} {| term := g |})).
    set (b := repeat 0 (length q) ++ map (gfMultiply c) g).
    assert (Hb : all_gf b).
    { unfold b. apply Forall_app. split.
      - apply List.Forall_forall. intros y Hy.
        apply repeat_spec in Hy as ->. apply is_gf_0.
      - apply List.Forall_forall. intros y Hy.
        apply in_map_iff in Hy as (z & <- & Hz).
        apply gfMultiply_is_gf; [exact Hc'|].
        unfold all_gf in Hg. rewrite List.Forall_forall in Hg. apply Hg, Hz. }
    assert (Ha : all_gf a)
      by (apply (all_gf_gfPolyMultiply {| term := q |} {| term := g |});
          assumption).
    rewrite (gfPolyEval_ext _ (xorLists a b)).
    + rewrite gfPolyEval_xorLists by assumption.
      unfold a. rewrite (IH Hq). unfold b.
      rewrite gfPolyEval_shift_root; [reflexivity|].
      rewrite gfPolyEval_scale, Hroot by assumption.
      apply gfMultiply_0_r.
    + intros k. rewrite coef_gfPolyMultiply, coef_xorLists. cbn [term].
      rewrite convCoef_snoc by assumption.
      unfold a, b. rewrite coef_gfPolyMultiply, coef_shifted. cbn [term].
      unfold gfAdd. f_equal.
      destruct (_ <=? _)%nat; [|reflexivity].
      symmetry. apply coef_map_gfMultiply.
Qed.

(** *** The roots of the generator polynomial *)

Lemma alpha_pow_is_gf (i : nat) : (i <= 255)%nat -> is_gf (alpha_pow i).
Proof.
  intros Hi. rewrite <- (Nat2Z.id i), <- exp_is_alpha_pow_255 by lia.
  pose proof (exp_range (Z.of_nat i)). unfold is_gf. lia.
Qed.

Lemma all_gf_generatorProduct (n : nat) :
  (n <= 256)%nat -> all_gf (generatorProduct n).
Proof.
  intros Hn.
  destruct (rsGeneratorLoop_product n 0 {| term := [1] |})
    as (g & _ & Hg & Hp & _); try reflexivity; try lia.
  - constructor; [apply is_gf_1 | constructor].
  - cbn [plus] in Hp. rewrite <- Hp. exact Hg.
Qed.

Lemma gfPolyEval_timesLinear (p : list gfElement) (c x : gfElement) :
  all_gf p -> is_gf c -> is_gf x ->
  gfPolyEval (timesLinear p c) x = gfMultiply (gfAdd x c) (gfPolyEval p x).
Proof.
  intros Hp Hc Hx. unfold timesLinear.
  assert (Hmap : map (pmul c) p = map (gfMultiply c) p).
  { apply map_ext_in. intros a Ha. symmetry. apply gfMultiply_pmul; [exact Hc|].
    unfold all_gf in Hp. rewrite List.Forall_forall in Hp. apply Hp, Ha. }
  rewrite Hmap, gfPolyEval_xorLists; try assumption.
  - rewrite gfPolyEval_scale by assumption. cbn [gfPolyEval].
    unfold gfAdd at 2, gfZero. rewrite Z.lxor_0_l.
    symmetry. apply gfMultiply_add_distr_r; try assumption.
    apply gfPolyEval_is_gf; assumption.
  - constructor; [apply is_gf_0 | exact Hp].
  - apply List.Forall_forall. intros y Hy.
    apply in_map_iff in Hy as (z & <- & Hz).
    apply gfMultiply_is_gf; [exact Hc|].
    unfold all_gf in Hp. rewrite List.Forall_forall in Hp. apply Hp, Hz.
Qed.

Lemma generatorProduct_roots (n i : nat) :
  (n <= 256)%nat -> (i < n)%nat ->
  gfPolyEval (generatorProduct n) (alpha_pow i) = 0.
Proof.
  induction n as [|n IH]; intros Hn Hi; [lia|].
  cbn [generatorProduct].
  rewrite gfPolyEval_timesLinear
    by (try apply all_gf_generatorProduct; try apply alpha_pow_is_gf; lia).
  destruct (Nat.eq_dec i n) as [->|Hne].
  - unfold gfAdd. rewrite Z.lxor_nilpotent. apply gfMultiply_0_l.
  - rewrite IH by lia. apply gfMultiply_0_r.
Qed.

(** X10. The roots of the generator: for a degree from 2 to 256 the
    polynomial that [rsGeneratorPoly] returns takes the value zero at each
    of the powers [gfExpTable[0]], ..., [gfExpTable[degree - 1]]. *)
Theorem rsGeneratorPoly_roots (degree i : Z) :
  2 <= degree <= 256 -> 0 <= i < degree ->
  exists g, rsGeneratorPoly degree = Ok g /\
            gfPolyEval (term g) (at_ gfExpTable i) = gfZero.
Proof.
  intros Hd Hi.
  destruct (rsGeneratorPoly_ok degree Hd) as (g & Hgen & _ & Hp & _).
  exists g. split; [exact Hgen|].
  rewrite Hp, exp_is_alpha_pow_255 by lia.
  apply generatorProduct_roots; lia.
Qed.

Lemma rsGeneratorPoly_roots_witness :
  exists g, rsGeneratorPoly 7 = Ok g /\
            gfPolyEval (term g) (at_ gfExpTable 3) = gfZero.
Proof. apply (rsGeneratorPoly_roots 7 3); lia. Defined.

(** X11. The syndromes of an encoded block are zero: for 2 to 256 error
    correction bytes, the polynomial whose coefficients in descending
    degree order are the bytes of the data followed by the bytes that
    [Encode] appends takes the value zero at each of the powers
    [gfExpTable[0]], ..., [gfExpTable[numECBytes - 1]]. *)
Theorem Encode_syndromes_zero (data_ : Bits) (numECBytes i : Z) :
  2 <= numECBytes <= 256 -> 0 <= i < numECBytes ->
  exists ec : list gfElement,
    Encode data_ numECBytes = Ok (data_ ++ concat (map byteBits ec)) /\
    length ec = Z.to_nat numECBytes /\
    gfPolyEval (rev (Bytes data_ ++ ec)) (at_ gfExpTable i) = gfZero.
Proof.
  intros Hn Hi.
  destruct (Encode_division data_ numECBytes Hn)
    as (g & ec & q & Hgen & Henc & Hlen & Hec & Hq & Hdiv).
  destruct (rsGeneratorPoly_ok numECBytes Hn) as (g' & Hgen' & Hg & Hp & _).
  rewrite Hgen in Hgen'. injection Hgen' as <-.
  exists ec. split; [exact Henc|]. split; [exact Hlen|].
  assert (Hx : is_gf (at_ gfExpTable i)).
  { pose proof (exp_range i). unfold is_gf. lia. }
  rewrite (gfPolyEval_ext _
             (term (gfPolyMultiply {| term := q |} {| term := term g |}))).
  - apply gfPolyEval_product_root; try assumption.
    rewrite Hp, exp_is_alpha_pow_255 by lia.
    apply generatorProduct_roots; lia.
  - intros k. rewrite coef_gfPolyMultiply. cbn [term].
    specialize (Hdiv k). unfold shiftCoef in Hdiv.
    rewrite rev_app_distr. unfold coef at 1.
    destruct (Nat.leb_spec (Z.to_nat numECBytes) k) as [Hk|Hk].
    + rewrite app_nth2 by (rewrite length_rev; lia).
      rewrite length_rev, Hlen.
      fold (coef (rev (Bytes data_)) (k - Z.to_nat numECBytes)).
      rewrite Hdiv, (coef_overflow (rev ec)) by (rewrite length_rev; lia).
      unfold gfAdd. apply Z.lxor_0_r.
    + rewrite app_nth1 by (rewrite length_rev; lia).
      fold (coef (rev ec) k). symmetry in Hdiv.
      unfold gfAdd in Hdiv. apply Z.lxor_eq in Hdiv. symmetry. exact Hdiv.
Qed.

Lemma Encode_syndromes_zero_witness :
  exists ec : list gfElement,
    Encode (AppendBytes [] [32; 91; 11]) 7
      = Ok (AppendBytes [] [32; 91; 11] ++ concat (map byteBits ec)) /\
    gfPolyEval (rev (Bytes (AppendBytes [] [32; 91; 11]) ++ ec))
               (at_ gfExpTable 3) = gfZero.
Proof.
  destruct (Encode_syndromes_zero (AppendBytes [] [32; 91; 11]) 7 3)
    as (ec & Henc & _ & Hroot); [lia | lia |].
  exists ec. split; [exact Henc | exact Hroot].
Defined.

(** ** More on padding *)


Lemma padCodewords_stop (numDataBits_ : Z) (data_ : Bits) (i : Z) :
  numDataBits_ - Len data_ < 8 ->
  padCodewords numDataBits_ data_ i = data_.
Proof.
  intros H. funelim (padCodewords numDataBits_ data_ i); [lia | reflexivity].
Qed.



(** X13. A stream longer than [numDataBits] makes [addPadding] panic: no
    pad codeword is added, nothing is cut, and the final test of the
    length fails. *)
Theorem addPadding_overfull_panics (v : qrCodeVersion) (data_ : Bits) :
  numDataBits v < Len data_ ->
  addPadding v data_ = Panic "BUG: got len, expected numDataBits".
Proof.
  intros H. unfold addPadding.
  destruct (Z.eqb_spec (Len data_) (numDataBits v)); [lia|].
  set (z := numBitsToPadToCodeword v (Len data_)).
  assert (Hz : 0 <= z < 8) by (apply Z.mod_pos_bound; lia).
  assert (Hlen1 : Len (AppendNumBools data_ z false) = Len data_ + z).
  { unfold AppendNumBools, Len. rewrite length_app, repeat_length. lia. }
  rewrite padCodewords_stop by lia.
  destruct (Z.eqb_spec (Len (AppendNumBools data_ z false)) (numDataBits v));
    [lia | reflexivity].
Qed.

Lemma addPadding_overfull_panics_witness :
  addPadding {| level := Low; version := 1;
                block := [ {| numBlocks := 1; numCodewords := 3;
                              numDataCodewords := 1 |} ];
                numRemainderBits := 0 |}
             (repeat true 9) = Panic "BUG: got len, expected numDataBits".
Proof.
  apply (addPadding_overfull_panics
           {| level := Low; version := 1;
              block := [ {| numBlocks := 1; numCodewords := 3;
                            numDataCodewords := 1 |} ];
              numRemainderBits := 0 |}
           (repeat true 9)).
  vm_compute. reflexivity.
Defined.

(** ** More on the mask loop *)

Section MaskLoopMore.

Variable symbol_ : Type.
Variable buildRegularSymbol :
  qrCodeVersion -> Z -> Bits -> bool -> string + symbol_.
Variable numEmptyModules : symbol_ -> Z.
Variable penaltyScore : symbol_ -> Z.
Variable v : qrCodeVersion.
Variable encoded : Bits.
Variable border : bool.

Let loop := maskLoop symbol_ buildRegularSymbol numEmptyModules penaltyScore
                     v encoded border.

Lemma maskLoop_app (l1 l2 : list Z) (vars : maskVars symbol_) :
  loop (l1 ++ l2) vars = (let* vars' := loop l1 vars in loop l2 vars').
Proof.
  revert vars. induction l1 as [|m l1 IH]; intros vars; [reflexivity|].
  unfold loop. cbn [app maskLoop].
  destruct (maskBody _ _ _ _ _ _ _ vars m) as [vars1|msg]; cbn [rbind];
    [apply IH | reflexivity].
Qed.

Lemma maskLoop_returns (l : list Z) (vars : maskVars symbol_) :
  (forall m, In m l ->
     exists s, buildRegularSymbol v m encoded border = inr s /\
               numEmptyModules s = 0) ->
  exists vars', loop l vars = Ok vars'.
Proof.
  revert vars. induction l as [|m l IH]; intros vars H.
  - exists vars. reflexivity.
  - unfold loop. cbn [maskLoop]. unfold maskBody.
    destruct (H m (or_introl eq_refl)) as (s & -> & ->). cbn [Z.eqb negb].
    destruct (_ || _); cbn [rbind]; apply IH; intros m' Hm';
      apply H; right; exact Hm'.
Qed.

End MaskLoopMore.

Lemma zrange_split (n k : nat) :
  (k < n)%nat ->
  zrange n = zrange k ++ Z.of_nat k :: map Z.of_nat (seq (S k) (n - S k)).
Proof.
  intros H. unfold zrange.
  replace n with (k + S (n - S k))%nat at 1 by lia.
  rewrite seq_app, map_app. cbn [seq map plus]. reflexivity.
Qed.

(** X14. The first mask that cannot be used stops [encode] with a panic:
    when the masks below [k] build symbols without empty modules, an error
    of [buildRegularSymbol] for the mask [k] is the panic of the mask loop,
    and a symbol with empty modules is the panic "numEmptyModules". *)
Theorem encodeMasks_first_failure
    (symbol_ : Type)
    (buildRegularSymbol : qrCodeVersion -> Z -> Bits -> bool -> string + symbol_)
    (numEmptyModules penaltyScore : symbol_ -> Z)
    (q : QRCode.t symbol_) (encoded : Bits) (k : Z) :
  0 <= k < 8 ->
  (forall j, 0 <= j < k ->
     exists s, buildRegularSymbol (QRCode.version q) j encoded
                 (negb (QRCode.DisableBorder q)) = inr s /\
               numEmptyModules s = 0) ->
  (forall msg,
     buildRegularSymbol (QRCode.version q) k encoded
       (negb (QRCode.DisableBorder q)) = inl msg ->
     encodeMasks symbol_ buildRegularSymbol numEmptyModules penaltyScore
       q encoded = Panic msg) /\
  (forall s,
     buildRegularSymbol (QRCode.version q) k encoded
       (negb (QRCode.DisableBorder q)) = inr s ->
     numEmptyModules s <> 0 ->
     encodeMasks symbol_ buildRegularSymbol numEmptyModules penaltyScore
       q encoded = Panic "bug: numEmptyModules is not 0").
Proof.
  intros Hk Hbefore.
  assert (Hpre : forall vars,
             exists vars',
               maskLoop symbol_ buildRegularSymbol numEmptyModules penaltyScore
                 (QRCode.version q) encoded (negb (QRCode.DisableBorder q))
                 (zrange (Z.to_nat k)) vars = Ok vars').
  { intros vars. apply maskLoop_returns. intros m Hm.
    apply zrange_spec in Hm. apply Hbefore. lia. }
  unfold encodeMasks.
  rewrite (zrange_split 8 (Z.to_nat k)) by lia.
  rewrite maskLoop_app, Z2Nat.id by lia.
  match goal with
  | |- context [maskLoop _ _ _ _ _ _ _ (zrange _) ?vars0] =>
      destruct (Hpre vars0) as (vars1 & ->)
  end.
  cbn [rbind maskLoop]. unfold maskBody.
  split.
  - intros msg ->. reflexivity.
  - intros s -> Hne.
    destruct (Z.eqb_spec (numEmptyModules s) 0); [contradiction|].
    reflexivity.
Qed.

Lemma encodeMasks_first_failure_witness :
  encodeMasks Z (fun _ k _ _ => if k =? 5 then inl "no room" else inr k)
    (fun _ => 0) (fun s => s)
    {| QRCode.Content := []; QRCode.Level := Medium;
       QRCode.VersionNumber := 1; QRCode.DisableBorder := false;
       QRCode.encoder := dataEncoderType1To9;
       QRCode.version := {| level := Medium; version := 1; block := [];
                            numRemainderBits := 0 |};
       QRCode.data := []; QRCode.symbol := None; QRCode.mask := 0 |}
    [] = Panic "no room".
Proof.
  destruct (encodeMasks_first_failure Z
              (fun _ k _ _ => if k =? 5 then inl "no room" else inr k)
              (fun _ => 0) (fun s => s)
              {| QRCode.Content := []; QRCode.Level := Medium;
                 QRCode.VersionNumber := 1; QRCode.DisableBorder := false;
                 QRCode.encoder := dataEncoderType1To9;
                 QRCode.version := {| level := Medium; version := 1;
                                      block := []; numRemainderBits := 0 |};
                 QRCode.data := []; QRCode.symbol := None;
                 QRCode.mask := 0 |}
              [] 5) as [H _].
  - lia.
  - intros j Hj. exists j. split; [|reflexivity].
    destruct (Z.eqb_spec j 5); [lia | reflexivity].
  - apply H. reflexivity.
Defined.

(** X15. A second [encode] on the same value keeps the first choice: when
    [q.symbol] is already set, the masks build and no penalty is negative,
    the mask loop returns [q] as it was, with the earlier symbol and mask,
    whatever [q.DisableBorder] has become in between. *)
Theorem encodeMasks_keeps_earlier_symbol
    (symbol_ : Type)
    (buildRegularSymbol : qrCodeVersion -> Z -> Bits -> bool -> string + symbol_)
    (numEmptyModules penaltyScore : symbol_ -> Z)
    (q : QRCode.t symbol_) (encoded : Bits) (s0 : symbol_) :
  QRCode.symbol q = Some s0 ->
  (forall s, 0 <= penaltyScore s) ->
  allMasksBuild symbol_ buildRegularSymbol numEmptyModules
    (QRCode.version q) encoded (negb (QRCode.DisableBorder q)) ->
  encodeMasks symbol_ buildRegularSymbol numEmptyModules penaltyScore
    q encoded = Ok q.
Proof.
  intros Hsym Hpos Hall. unfold encodeMasks. rewrite Hsym.
  destruct (maskLoop_returns symbol_ buildRegularSymbol numEmptyModules
              penaltyScore (QRCode.version q) encoded
              (negb (QRCode.DisableBorder q)) (zrange 8)
              {| mv_symbol := Some s0; mv_mask := QRCode.mask q;
                 mv_penalty := 0 |}) as (vars' & Hrun).
  { intros m Hm. apply zrange_spec in Hm. apply Hall. lia. }
  rewrite Hrun. cbn [rbind].
  apply maskLoop_keeps_choice in Hrun; [|exact Hpos]. subst vars'.
  cbn [mv_symbol mv_mask]. rewrite <- Hsym. destruct q; reflexivity.
Qed.

Lemma encodeMasks_keeps_earlier_symbol_witness :
  encodeMasks Z (fun _ k _ _ => inr k) (fun _ => 0) (fun s => Z.abs (s - 4))
    {| QRCode.Content := []; QRCode.Level := Medium;
       QRCode.VersionNumber := 1; QRCode.DisableBorder := true;
       QRCode.encoder := dataEncoderType1To9;
       QRCode.version := {| level := Medium; version := 1; block := [];
                            numRemainderBits := 0 |};
       QRCode.data := []; QRCode.symbol := Some 6; QRCode.mask := 6 |} []
  = Ok {| QRCode.Content := []; QRCode.Level := Medium;
          QRCode.VersionNumber := 1; QRCode.DisableBorder := true;
          QRCode.encoder := dataEncoderType1To9;
          QRCode.version := {| level := Medium; version := 1; block := [];
                               numRemainderBits := 0 |};
          QRCode.data := []; QRCode.symbol := Some 6; QRCode.mask := 6 |}.
Proof.
  apply (encodeMasks_keeps_earlier_symbol Z (fun _ k _ _ => inr k)
           (fun _ => 0) (fun s => Z.abs (s - 4)) _ [] 6).
  - reflexivity.
  - intros s. lia.
  - intros k Hk. exists k. split; reflexivity.
Defined.

(** ** More on [New] *)

(** X16. [New] returns a symbol exactly when some band offers a version
    for the content; the symbol then holds the content and the level as
    given, the number of its version, no laid-out symbol, mask 0 and the
    border enabled, and its stream and version are what the band of its
    encoder offers. *)
Theorem New_succeeds_iff
    (symbol_ : Type)
    (encoderEncode : dataEncoderType -> list Z -> string + Bits)
    (versions : list qrCodeVersion) (fits : qrCodeVersion -> Z -> bool)
    (content : list Z) (level_ : RecoveryLevel) :
  ((exists q, New symbol_ encoderEncode versions fits content level_ = inr q)
   <-> exists t, bandChoice encoderEncode versions fits content level_ t
                 <> None) /\
  (forall q,
     New symbol_ encoderEncode versions fits content level_ = inr q ->
     QRCode.Content q = content /\ QRCode.Level q = level_ /\
     QRCode.VersionNumber q = version (QRCode.version q) /\
     QRCode.DisableBorder q = false /\
     QRCode.symbol q = None /\ QRCode.mask q = 0 /\
     bandChoice encoderEncode versions fits content level_ (QRCode.encoder q)
       = Some (QRCode.data q, QRCode.version q)).
Proof.
  destruct (New_outcome symbol_ encoderEncode versions fits content level_)
    as [Hsome Hnone].
  set (choice := bandChoice encoderEncode versions fits content level_) in *.
  assert (Hfirst :
            (forall t, choice t = None) \/
            exists t e v, choice t = Some (e, v) /\
                          forall t', bandIndex t' < bandIndex t ->
                                     choice t' = None).
  { destruct (choice dataEncoderType1To9) as [[e1 v1]|] eqn:H1.
    { right. exists dataEncoderType1To9, e1, v1. split; [exact H1|].
      intros t'. destruct t'; cbn [bandIndex]; lia. }
    destruct (choice dataEncoderType10To26) as [[e2 v2]|] eqn:H2.
    { right. exists dataEncoderType10To26, e2, v2. split; [exact H2|].
      intros t'. destruct t'; cbn [bandIndex]; try lia. intros _. exact H1. }
    destruct (choice dataEncoderType27To40) as [[e3 v3]|] eqn:H3.
    { right. exists dataEncoderType27To40, e3, v3. split; [exact H3|].
      intros t'. destruct t'; cbn [bandIndex]; try lia; intros _;
        assumption. }
    left. intros t. destruct t; assumption. }
  destruct Hfirst as [Hno | (t & e & v0 & Hc & Hbefore)].
  - specialize (Hnone Hno).
    assert (Herr : exists err,
               New symbol_ encoderEncode versions fits content level_
               = inl err).
    { destruct (encoderEncode dataEncoderType27To40 content);
        eexists; exact Hnone. }
    destruct Herr as (err & Herr). split; [split|].
    + intros [q Hq]. rewrite Herr in Hq. discriminate.
    + intros [t Ht]. exfalso. apply Ht, Hno.
    + intros q Hq. rewrite Herr in Hq. discriminate.
  - specialize (Hsome t e v0 Hc Hbefore). split; [split|].
    + intros _. exists t. rewrite Hc. discriminate.
    + intros _. eexists. exact Hsome.
    + intros q Hq. rewrite Hsome in Hq. injection Hq as <-.
      cbn. repeat split; try reflexivity. exact Hc.
Qed.

Lemma New_succeeds_iff_witness :
  exists q,
    New unit (fun _ c => inr (AppendBytes [] c))
      [ {| level := Medium; version := 1;
           block := [ {| numBlocks := 1; numCodewords := 26;
                         numDataCodewords := 16 |} ];
           numRemainderBits := 0 |} ]
      (fun v n => n <=? numDataBits v) [65] Medium = inr q.
Proof.
  apply (proj1 (New_succeeds_iff unit (fun _ c => inr (AppendBytes [] c))
                  [ {| level := Medium; version := 1;
                       block := [ {| numBlocks := 1; numCodewords := 26;
                                     numDataCodewords := 16 |} ];
                       numRemainderBits := 0 |} ]
                  (fun v n => n <=? numDataBits v) [65] Medium)).
  exists dataEncoderType1To9. vm_compute. discriminate.
Defined.

(** X17. An error of the last encoder hides "content too long": when no
    band offers a version and the encoder of the band 27-40 returns an
    error, [New] returns that error, also when the encoders of the earlier
    bands returned streams that fit no version. *)
Theorem New_passes_last_encoder_error
    (symbol_ : Type)
    (encoderEncode : dataEncoderType -> list Z -> string + Bits)
    (versions : list qrCodeVersion) (fits : qrCodeVersion -> Z -> bool)
    (content : list Z) (level_ : RecoveryLevel) (msg : string) :
  (forall t, bandChoice encoderEncode versions fits content level_ t = None) ->
  encoderEncode dataEncoderType27To40 content = inl msg ->
  New symbol_ encoderEncode versions fits content level_
    = inl (EncoderError msg).
Proof. apply New_returns_encoder_error. Qed.

Lemma New_passes_last_encoder_error_witness :
  New unit
      (fun t c => match t with
                  | dataEncoderType27To40 => inl "length too long"
                  | _ => inr (AppendBytes [] c)
                  end)
      [ {| level := Medium; version := 1;
           block := [ {| numBlocks := 1; numCodewords := 26;
                         numDataCodewords := 16 |} ];
           numRemainderBits := 0 |} ]
      (fun v n => n <=? numDataBits v) (repeat 65 17) Medium
  = inl (EncoderError "length too long").
Proof.
  apply (New_passes_last_encoder_error unit
           (fun t c => match t with
                       | dataEncoderType27To40 => inl "length too long"
                       | _ => inr (AppendBytes [] c)
                       end)).
  - intros t. destruct t; reflexivity.
  - reflexivity.
Defined.

(** ** More on the interleaving *)

Lemma encodeBlocks_result (v : qrCodeVersion) (qdata : Bits) (fuel : nat) :
  Forall validGroup (block v) ->
  numDataBits v <= Len qdata ->
  (S (Nat.max (maxRowBytes (dataRows v qdata))
              (maxRowBytes (ecRows v qdata))) <= fuel)%nat ->
  encodeBlocks fuel v qdata = Some (Ok (interleaved v qdata)).
Proof.
  intros Hvalid Hlen Hfuel.
  pose proof (validBlock_flat_map (block v) Hvalid) as Hlayout.
  fold (blockLayout v) in Hlayout.
  rewrite (numDataBits_layout v Hvalid) in *.
  unfold encodeBlocks, makeBlocks.
  rewrite (versionNumBlocks_layout v Hvalid).
  destruct (Z.ltb_spec (Z.of_nat (length (blockLayout v))) 0); [lia|].
  cbn [rbind]. rewrite Nat2Z.id.
  destruct (splitGroups_blocks qdata (block v) Hvalid [] 0 0 0)
    as (start' & Hsplit); [lia | fold (blockLayout v); lia |].
  fold (blockLayout v) in Hsplit.
  cbn [app length] in Hsplit. rewrite Nat.add_0_r in Hsplit.
  change (Z.of_nat 0) with 0 in Hsplit.
  rewrite Hsplit. cbn [sv_block repeat Z.to_nat skipn].
  rewrite app_nil_r.
  assert (Hd : forall res,
             columnLoop fuel dataColumn (blocksFrom (blockLayout v) qdata)
                        0 res =
             Some (Ok (res ++ columnMajor (dataRows v qdata)))).
  { intros res.
    apply (columnLoop_columns dataColumn _ (dataRows v qdata)
             (fun c => dataColumn_rows (blockLayout v) c Hlayout qdata Hlen)
             (maxRowBytes (dataRows v qdata)) 0 res fuel eq_refl). lia. }
  assert (He : forall res,
             columnLoop fuel ecColumn (blocksFrom (blockLayout v) qdata)
                        0 res =
             Some (Ok (res ++ columnMajor (ecRows v qdata)))).
  { intros res.
    apply (columnLoop_columns ecColumn _ (ecRows v qdata)
             (fun c => ecColumn_rows (blockLayout v) c Hlayout qdata Hlen)
             (maxRowBytes (ecRows v qdata)) 0 res fuel eq_refl). lia. }
  rewrite Hd, He.
  unfold AppendNumBools, interleaved. cbn [app].
  rewrite <- app_assoc. reflexivity.
Qed.

Lemma length_byteOf (row : Bits) (c : nat) :
  wholeRow row -> (c < rowBytes row)%nat -> length (byteOf row c) = 8%nat.
Proof.
  unfold wholeRow, byteOf. intros Hw Hc.
  rewrite length_firstn, length_skipn. lia.
Qed.

Lemma list_sum_cons (a : nat) (l : list nat) :
  list_sum (a :: l) = (a + list_sum l)%nat.
Proof. reflexivity. Qed.

Lemma length_columnOf (rows : list Bits) (c : nat) :
  Forall wholeRow rows ->
  length (columnOf rows c) =
  list_sum (map (fun row => if (c <? rowBytes row)%nat then 8 else 0)%nat rows).
Proof.
  induction 1 as [|row rows Hw _ IH]; [reflexivity|].
  rewrite columnOf_cons, length_app, IH. cbn [map list_sum].
  destruct (Nat.ltb_spec c (rowBytes row));
    [rewrite length_byteOf by assumption|]; reflexivity.
Qed.

Lemma length_columns (rows : list Bits) (m : nat) :
  Forall wholeRow rows ->
  length (concat (map (columnOf rows) (seq 0 m))) =
  list_sum (map (fun row => 8 * Nat.min (rowBytes row) m)%nat rows).
Proof.
  intros Hw. induction m as [|m IH].
  - cbn [seq map concat length]. clear Hw.
    induction rows as [|row rows IHr]; [reflexivity|].
    cbn [map]. rewrite list_sum_cons, <- IHr. lia.
  - rewrite seq_S, map_app, concat_app, length_app, IH. cbn [plus map concat].
    rewrite app_nil_r, length_columnOf by exact Hw.
    clear IH Hw. induction rows as [|row rows IHr]; [reflexivity|].
    cbn [map]. rewrite !list_sum_cons.
    destruct (Nat.ltb_spec m (rowBytes row)); lia.
Qed.

Lemma rowBytes_le_max (rows : list Bits) (row : Bits) :
  In row rows -> (rowBytes row <= maxRowBytes rows)%nat.
Proof.
  induction rows as [|r rows IH]; intros Hin; [contradiction|].
  cbn [maxRowBytes fold_right]. fold (maxRowBytes rows).
  destruct Hin as [->|Hin]; [lia|]. specialize (IH Hin). lia.
Qed.

(** Reading whole rows column by column keeps the number of bits. *)
Lemma length_columnMajor (rows : list Bits) :
  Forall wholeRow rows ->
  length (columnMajor rows) = length (concat rows).
Proof.
  intros Hw. unfold columnMajor. rewrite length_columns by exact Hw.
  assert (Hle : forall row, In row rows ->
                            (rowBytes row <= maxRowBytes rows)%nat)
    by (intros; apply rowBytes_le_max; assumption).
  revert Hle. generalize (maxRowBytes rows) as m.
  induction Hw as [|row rows Hrow Hw IH]; intros m Hle; [reflexivity|].
  cbn [map concat]. rewrite list_sum_cons, length_app, IH.
  - pose proof (Hle row (or_introl eq_refl)). unfold wholeRow in Hrow. lia.
  - intros r Hr. apply Hle. right. exact Hr.
Qed.

Lemma layout_rows_whole (layout : list (Z * Z)) :
  Forall validBlock layout ->
  forall bits : Bits,
    layoutBits layout <= Len bits ->
    Forall wholeRow (splitPayload layout bits) /\
    Forall wholeRow
      (map (fun dl => ecBits (fst dl) (snd (snd dl)))
           (combine (splitPayload layout bits) layout)) /\
    Z.of_nat (length (concat (splitPayload layout bits))) = layoutBits layout /\
    Z.of_nat (length (concat
                        (map (fun dl => ecBits (fst dl) (snd (snd dl)))
                             (combine (splitPayload layout bits) layout))))
      = layoutECBits layout.
Proof.
  induction 1 as [|[k e] layout [Hk He] Hv IH]; intros bits Hlen.
  - repeat split; constructor.
  - cbn [fst snd] in Hk, He.
    unfold layoutBits in Hlen |- *. unfold layoutECBits.
    cbn [fold_right fst snd] in Hlen |- *.
    fold (layoutBits layout) in Hlen |- *. fold (layoutECBits layout).
    pose proof (layoutBits_nonneg layout Hv) as Hpos.
    cbn [splitPayload combine map fst snd concat].
    set (d := firstn (Z.to_nat (8 * k)) bits).
    assert (Hd : length d = (8 * Z.to_nat k)%nat).
    { unfold d. rewrite length_firstn. unfold Len in Hlen. lia. }
    destruct (Encode_shape d e He) as [_ Hec].
    destruct (IH (skipn (Z.to_nat (8 * k)) bits))
      as (Hw1 & Hw2 & Hl1 & Hl2).
    { unfold Len in *. rewrite length_skipn. lia. }
    split; [|split; [|split]].
    + constructor; [|exact Hw1]. unfold wholeRow.
      rewrite (rowBytes_whole d _ Hd). exact Hd.
    + constructor; [|exact Hw2]. unfold wholeRow.
      rewrite (rowBytes_whole _ _ Hec). exact Hec.
    + rewrite length_app, Nat2Z.inj_add, Hl1, Hd. lia.
    + rewrite length_app, Nat2Z.inj_add, Hl2, Hec. lia.
Qed.

Lemma layoutECBits_app (l1 l2 : list (Z * Z)) :
  layoutECBits (l1 ++ l2) = layoutECBits l1 + layoutECBits l2.
Proof.
  induction l1 as [|ke l1 IH]; [reflexivity|].
  unfold layoutECBits in *. cbn [app fold_right]. rewrite IH. lia.
Qed.

Lemma layoutECBits_repeat (k e : Z) (n : nat) :
  layoutECBits (repeat (k, e) n) = Z.of_nat n * (8 * e).
Proof.
  induction n as [|n IH]; [reflexivity|].
  unfold layoutECBits in *. cbn [repeat fold_right snd]. rewrite IH. lia.
Qed.

Lemma numCodewordBits_layout (v : qrCodeVersion) :
  Forall validGroup (block v) ->
  numCodewordBits v =
  layoutBits (blockLayout v) + layoutECBits (blockLayout v).
Proof.
  unfold numCodewordBits, blockLayout.
  induction 1 as [|g groups (Hn & _) _ IH]; [reflexivity|].
  cbn [fold_right flat_map].
  rewrite layoutBits_app, layoutECBits_app, IH, layoutBits_groupLayout.
  unfold groupLayout. rewrite layoutECBits_repeat, Z2Nat.id by exact Hn.
  ring.
Qed.

Lemma interleaved_length (v : qrCodeVersion) (qdata : Bits) :
  Forall validGroup (block v) ->
  numDataBits v <= Len qdata ->
  0 <= numRemainderBits v ->
  Len (interleaved v qdata) = numCodewordBits v + numRemainderBits v.
Proof.
  intros Hvalid Hlen Hrem.
  pose proof (validBlock_flat_map (block v) Hvalid) as Hlayout.
  fold (blockLayout v) in Hlayout.
  rewrite (numDataBits_layout v Hvalid) in Hlen.
  destruct (layout_rows_whole (blockLayout v) Hlayout qdata Hlen)
    as (Hw1 & Hw2 & Hl1 & Hl2).
  fold (dataRows v qdata) in Hw1, Hw2, Hl1, Hl2.
  fold (ecRows v qdata) in Hw2, Hl2.
  unfold interleaved, Len.
  rewrite !length_app, !length_columnMajor, repeat_length by assumption.
  rewrite (numCodewordBits_layout v Hvalid). lia.
Qed.

(** X18. The interleaved stream has one bit for every bit of every
    codeword, and the remainder bits: for a version with a usable layout
    and a remainder that is not negative, and a payload of at least
    [numDataBits] bits, [encodeBlocks] returns a stream of 8 times the
    number of codewords of all blocks, plus [numRemainderBits], bits. *)
Theorem encodeBlocks_length (v : qrCodeVersion) (qdata : Bits) :
  Forall validGroup (block v) ->
  numDataBits v <= Len qdata ->
  0 <= numRemainderBits v ->
  exists (fuel : nat) (out : Bits),
    encodeBlocks fuel v qdata = Some (Ok out) /\
    Len out = numCodewordBits v + numRemainderBits v.
Proof.
  intros Hvalid Hlen Hrem.
  exists (S (Nat.max (maxRowBytes (dataRows v qdata))
                     (maxRowBytes (ecRows v qdata)))), (interleaved v qdata).
  split; [apply encodeBlocks_result; try assumption; lia|].
  apply interleaved_length; assumption.
Qed.

Lemma encodeBlocks_length_witness :
  exists (fuel : nat) (out : Bits),
    encodeBlocks fuel
      {| level := High; version := 5;
         block := [ {| numBlocks := 2; numCodewords := 4;
                       numDataCodewords := 2 |};
                    {| numBlocks := 1; numCodewords := 5;
                       numDataCodewords := 3 |} ];
         numRemainderBits := 3 |}
      (AppendBytes [] [1; 2; 3; 4; 5; 6; 7]) = Some (Ok out) /\
    Len out = 107.
Proof.
  apply (encodeBlocks_length
           {| level := High; version := 5;
              block := [ {| numBlocks := 2; numCodewords := 4;
                            numDataCodewords := 2 |};
                         {| numBlocks := 1; numCodewords := 5;
                            numDataCodewords := 3 |} ];
              numRemainderBits := 3 |}
           (AppendBytes [] [1; 2; 3; 4; 5; 6; 7])).
  - repeat constructor; cbn; lia.
  - vm_compute. discriminate.
  - vm_compute. discriminate.
Defined.

(** A stream no longer than [numDataBits] is padded without panic. *)
Lemma addPadding_returns (v : qrCodeVersion) (data_ : Bits) :
  Len data_ <= numDataBits v ->
  exists padded : Bits,
    addPadding v data_ = Ok padded /\ Len padded = numDataBits v.
Proof.
  intros Hle. pose proof (numDataBits_mod_8 v) as Hmod. unfold addPadding.
  destruct (Z.eqb_spec (Len data_) (numDataBits v)) as [Heq|Hne].
  - exists data_. split; [reflexivity | exact Heq].
  - set (z := numBitsToPadToCodeword v (Len data_)).
    assert (Hz : 0 <= z < 8) by (apply Z.mod_pos_bound; lia).
    assert (Hzmod : (Len data_ + z) mod 8 = 0).
    { unfold z, numBitsToPadToCodeword.
      rewrite Z.add_mod_idemp_r by lia.
      replace (Len data_ + (8 - Len data_ mod 8))
        with (Len data_ - Len data_ mod 8 + 1 * 8) by lia.
      rewrite Z.mod_add by lia.
      rewrite Zminus_mod_idemp_r, Z.sub_diag. reflexivity. }
    assert (Hlen1 : Len (AppendNumBools data_ z false) = Len data_ + z).
    { unfold AppendNumBools, Len. rewrite length_app, repeat_length. lia. }
    assert (Hle1 : Len data_ + z <= numDataBits v).
    { pose proof (Z.div_mod (Len data_ + z) 8) as E1.
      pose proof (Z.div_mod (numDataBits v) 8) as E2.
      pose proof (Z.div_mod (Len data_) 8) as E3.
      pose proof (Z.mod_pos_bound (Len data_) 8) as B3.
      assert (Hcases : z = 0 \/ z = 8 - Len data_ mod 8).
      { unfold z, numBitsToPadToCodeword.
        destruct (Z.eq_dec (Len data_ mod 8) 0) as [E|E].
        - left. rewrite E. reflexivity.
        - right. apply Z.mod_small. lia. }
      lia. }
    destruct (padCodewords_fills (numDataBits v)
                (AppendNumBools data_ z false) 0) as (k & Hk & Hfull).
    { rewrite Hlen1. exact Hle1. }
    { rewrite Hlen1.
      replace (numDataBits v - (Len data_ + z))
        with (numDataBits v + (-1) * (Len data_ + z)) by lia.
      rewrite <- Z.add_mod_idemp_l, Hmod, Z.add_0_l by lia.
      rewrite Z.mul_mod, Hzmod, Z.mul_0_r by lia. reflexivity. }
    rewrite Hfull, Z.eqb_refl. cbn [negb].
    eexists. split; [reflexivity | exact Hfull].
Qed.

(** X19. Padding and interleaving do not fail on a stream that fits: for
    a version with a usable layout and a remainder that is not negative,
    when the stream with its terminator bits is no longer than
    [numDataBits], [encode] pads it to exactly [numDataBits] bits,
    interleaves it into a stream of 8 times the number of codewords of all
    blocks, plus [numRemainderBits], bits, and goes on to the masks with
    the padded stream in [q.data]; what [encode] returns is what the masks
    return. *)
Theorem encode_reaches_masks
    (symbol_ : Type)
    (buildRegularSymbol : qrCodeVersion -> Z -> Bits -> bool -> string + symbol_)
    (numEmptyModules penaltyScore : symbol_ -> Z)
    (numTerminatorBitsRequired : qrCodeVersion -> Z -> Z)
    (q : QRCode.t symbol_) :
  Forall validGroup (block (QRCode.version q)) ->
  0 <= numRemainderBits (QRCode.version q) ->
  0 <= numTerminatorBitsRequired (QRCode.version q) (Len (QRCode.data q)) ->
  Len (QRCode.data q)
    + numTerminatorBitsRequired (QRCode.version q) (Len (QRCode.data q))
    <= numDataBits (QRCode.version q) ->
  exists (fuel : nat) (padded encoded : Bits),
    addPadding (QRCode.version q)
      (addTerminatorBits (QRCode.data q)
         (numTerminatorBitsRequired (QRCode.version q) (Len (QRCode.data q))))
      = Ok padded /\
    Len padded = numDataBits (QRCode.version q) /\
    encodeBlocks fuel (QRCode.version q) padded = Some (Ok encoded) /\
    Len encoded = numCodewordBits (QRCode.version q)
                  + numRemainderBits (QRCode.version q) /\
    encode symbol_ buildRegularSymbol numEmptyModules penaltyScore
      numTerminatorBitsRequired fuel q =
    Some (encodeMasks symbol_ buildRegularSymbol numEmptyModules penaltyScore
            {| QRCode.Content := QRCode.Content q;
               QRCode.Level := QRCode.Level q;
               QRCode.VersionNumber := QRCode.VersionNumber q;
               QRCode.DisableBorder := QRCode.DisableBorder q;
               QRCode.encoder := QRCode.encoder q;
               QRCode.version := QRCode.version q;
               QRCode.data := padded;
               QRCode.symbol := QRCode.symbol q;
               QRCode.mask := QRCode.mask q |}
            encoded).
Proof.
  intros Hvalid Hrem Hterm Hfit.
  set (v := QRCode.version q) in *.
  set (t := numTerminatorBitsRequired v (Len (QRCode.data q))) in *.
  destruct (addPadding_returns v (addTerminatorBits (QRCode.data q) t))
    as (padded & Hpad & Hlen).
  { unfold addTerminatorBits, AppendNumBools, Len in *.
    rewrite length_app, repeat_length. lia. }
  exists (S (Nat.max (maxRowBytes (dataRows v padded))
                     (maxRowBytes (ecRows v padded)))),
         padded, (interleaved v padded).
  assert (Hrun : encodeBlocks
                   (S (Nat.max (maxRowBytes (dataRows v padded))
                               (maxRowBytes (ecRows v padded)))) v padded =
                 Some (Ok (interleaved v padded))).
  { apply encodeBlocks_result; [exact Hvalid | lia | lia]. }
  split; [exact Hpad|]. split; [exact Hlen|]. split; [exact Hrun|].
  split; [apply interleaved_length; [exact Hvalid | lia | exact Hrem]|].
  unfold encode. fold v. fold t. rewrite Hpad, Hrun. reflexivity.
Qed.

Lemma encode_reaches_masks_witness :
  exists (fuel : nat) (padded encoded : Bits),
    Len padded = 56 /\ Len encoded = 107 /\
    encode Z (fun _ k _ _ => inr k) (fun _ => 0) (fun s => Z.abs (s - 4))
      (fun _ _ => 4) fuel
      {| QRCode.Content := [1; 2; 3; 4; 5]; QRCode.Level := Highest;
         QRCode.VersionNumber := 5; QRCode.DisableBorder := false;
         QRCode.encoder := dataEncoderType1To9;
         QRCode.version :=
           {| level := Highest; version := 5;
              block := [ {| numBlocks := 2; numCodewords := 4;
                            numDataCodewords := 2 |};
                         {| numBlocks := 1; numCodewords := 5;
                            numDataCodewords := 3 |} ];
              numRemainderBits := 3 |};
         QRCode.data := AppendBytes [] [1; 2; 3; 4; 5];
         QRCode.symbol := None; QRCode.mask := 0 |} =
    Some (encodeMasks Z (fun _ k _ _ => inr k) (fun _ => 0)
            (fun s => Z.abs (s - 4))
            {| QRCode.Content := [1; 2; 3; 4; 5]; QRCode.Level := Highest;
               QRCode.VersionNumber := 5; QRCode.DisableBorder := false;
               QRCode.encoder := dataEncoderType1To9;
               QRCode.version :=
                 {| level := Highest; version := 5;
                    block := [ {| numBlocks := 2; numCodewords := 4;
                                  numDataCodewords := 2 |};
                               {| numBlocks := 1; numCodewords := 5;
                                  numDataCodewords := 3 |} ];
                    numRemainderBits := 3 |};
               QRCode.data := padded;
               QRCode.symbol := None; QRCode.mask := 0 |}
            encoded).
Proof.
  destruct (encode_reaches_masks Z (fun _ k _ _ => inr k) (fun _ => 0)
              (fun s => Z.abs (s - 4)) (fun _ _ => 4)
              {| QRCode.Content := [1; 2; 3; 4; 5]; QRCode.Level := Highest;
                 QRCode.VersionNumber := 5; QRCode.DisableBorder := false;
                 QRCode.encoder := dataEncoderType1To9;
                 QRCode.version :=
                   {| level := Highest; version := 5;
                      block := [ {| numBlocks := 2; numCodewords := 4;
                                    numDataCodewords := 2 |};
                                 {| numBlocks := 1; numCodewords := 5;
                                    numDataCodewords := 3 |} ];
                      numRemainderBits := 3 |};
                 QRCode.data := AppendBytes [] [1; 2; 3; 4; 5];
                 QRCode.symbol := None; QRCode.mask := 0 |})
    as (fuel & padded & encoded & _ & Hlen & _ & Hout & Hrun).
  - repeat constructor; cbn; lia.
  - vm_compute. discriminate.
  - vm_compute. discriminate.
  - vm_compute. discriminate.
  - exists fuel, padded, encoded.
    split; [exact Hlen|]. split; [exact Hout | exact Hrun].
Defined.

(** ** Text renderings *)

Lemma append_nil_r (s : string) : (s ++ "")%string = s.
Proof.
  induction s as [|c s IH]; [reflexivity|].
  change (String c s +:+ "") with (String c (s +:+ "")). f_equal. exact IH.
Qed.

Lemma append_assoc (s1 s2 s3 : string) :
  ((s1 ++ s2) ++ s3)%string = (s1 ++ (s2 ++ s3))%string.
Proof.
  induction s1 as [|c s1 IH]; [reflexivity|].
  change (String c ((s1 +:+ s2) +:+ s3) = String c (s1 +:+ (s2 +:+ s3))).
  f_equal. exact IH.
Qed.

Lemma pair_ind {A} (P : list A -> Prop) :
  P [] -> (forall a, P [a]) -> (forall a b l, P l -> P (a :: b :: l)) ->
  forall l, P l.
Proof.
  intros H0 H1 H2 l.
  assert (H : P l /\ forall a, P (a :: l)).
  { induction l as [|b l [IH1 IH2]].
    - split; [exact H0 | exact H1].
    - split; [apply IH2|]. intros a. apply H2, IH1. }
  exact (proj1 H).
Qed.

Lemma elemAt_lookup {A} (t : list A) (n : nat) :
  elemAt t (Z.of_nat n) =
  match t !! n with Some a => Ok a | None => Panic "index out of range" end.
Proof.
  unfold elemAt. destruct (Z.ltb_spec (Z.of_nat n) 0); [lia|].
  rewrite Nat2Z.id. reflexivity.
Qed.

Lemma smallRow_pairLine (bits : list (list bool)) (y : Z)
      (below : list bool) (inverseColor : bool) :
  elemAt bits (y + 1) = Ok below ->
  forall (row : list bool) (x : nat) (buf : string),
    smallRow bits y row (Z.of_nat x) inverseColor buf =
    pairLine row (drop x below) inverseColor buf.
Proof.
  intros Hbelow. induction row as [|b rest IH]; intros x buf; [reflexivity|].
  cbn [smallRow pairLine]. rewrite Hbelow. cbn [rbind].
  rewrite elemAt_lookup.
  destruct (below !! x) as [b'|] eqn:Hx.
  - rewrite (drop_S _ _ _ Hx). cbn [rbind].
    replace (Z.of_nat x + 1) with (Z.of_nat (S x)) by lia. apply IH.
  - rewrite drop_ge by (apply lookup_ge_None; exact Hx). reflexivity.
Qed.

Lemma pairLine_nil (bottom : list bool) (inverseColor : bool) (buf : string) :
  pairLine [] bottom inverseColor buf = Ok buf.
Proof. reflexivity. Qed.

Lemma drop_pair {A} (l : list A) (n : nat) :
  (S n < length l)%nat ->
  exists a b, l !! n = Some a /\ l !! S n = Some b /\
              drop n l = a :: b :: drop (S (S n)) l.
Proof.
  intros H.
  destruct (lookup_lt_is_Some_2 l n) as [a Ha]; [lia|].
  destruct (lookup_lt_is_Some_2 l (S n)) as [b Hb]; [lia|].
  exists a, b. split; [exact Ha|]. split; [exact Hb|].
  rewrite (drop_S _ _ _ Ha), (drop_S _ _ _ Hb). reflexivity.
Qed.

(** The body of the first loop of [ToSmallString] on the rows [y] and
    [y+1]. *)
Lemma smallLoop_body (bits : list (list bool)) (inverseColor : bool)
      (n : nat) (buf : string) (top bottom : list bool) :
  bits !! n = Some top -> bits !! S n = Some bottom ->
  (let* row := elemAt bits (Z.of_nat n) in
   smallRow bits (Z.of_nat n) row 0 inverseColor buf) =
  pairLine top bottom inverseColor buf.
Proof.
  intros Ht Hb. rewrite elemAt_lookup, Ht. cbn [rbind].
  apply (smallRow_pairLine bits (Z.of_nat n) bottom inverseColor) with (x := 0%nat).
  replace (Z.of_nat n + 1) with (Z.of_nat (S n)) by lia.
  rewrite elemAt_lookup, Hb. reflexivity.
Qed.

(** [ToSmallString] from the row [y] on is the recursion on the rows from
    [y] on. *)
Lemma smallLoop_lines (bits : list (list bool)) (inverseColor : bool)
      (y : Z) (buf : string) :
  0 <= y <= Z.of_nat (length bits) -> y mod 2 = 0 ->
  (let* buf' := smallLoop bits inverseColor y buf in
   if Z.of_nat (length bits) mod 2 =? 1
   then let* row := elemAt bits (Z.of_nat (length bits) - 1) in
        Ok (WriteString (lastRow row inverseColor buf') newline)
   else Ok buf') =
  smallLines (drop (Z.to_nat y) bits) inverseColor buf.
Proof.
  intros Hy Heven.
  funelim (smallLoop bits inverseColor y buf).
  - clear Heq Heqcall. cbn [rbind].
    destruct (Z.eq_dec y (Z.of_nat (length bits))) as [->|Hne].
    + rewrite Heven, Nat2Z.id, drop_all. reflexivity.
    + assert (Hlast : y = Z.of_nat (length bits) - 1) by lia.
      assert (Hodd : Z.of_nat (length bits) mod 2 = 1).
      { replace (Z.of_nat (length bits)) with (y + 1) by lia.
        rewrite <- Z.add_mod_idemp_l, Heven by lia. reflexivity. }
      rewrite Hodd. cbn [Z.eqb Pos.eqb]. rewrite <- Hlast.
      destruct (lookup_lt_is_Some_2 bits (Z.to_nat y)) as [row Hrow]; [lia|].
      rewrite (drop_S _ _ _ Hrow), drop_ge by lia.
      rewrite <- (Z2Nat.id y) at 1 by lia.
      rewrite elemAt_lookup, Hrow. reflexivity.
  - clear Heq0 Heqcall.
    destruct (drop_pair bits (Z.to_nat y)) as (top & bottom & Ht & Hb & Hd);
      [lia|].
    rewrite <- (Z2Nat.id y) in Heq by lia.
    rewrite (smallLoop_body _ _ _ _ _ _ Ht Hb) in Heq.
    rewrite Hd. cbn [smallLines]. rewrite Heq. cbn [rbind].
    replace (S (S (Z.to_nat y))) with (Z.to_nat (y + 2)) by lia.
    apply (H bits inverseColor (y + 2) (WriteString buf' newline));
      try reflexivity; [lia|].
    rewrite <- Z.add_mod_idemp_l, Heven by lia. reflexivity.
  - clear Heq0 Heqcall.
    destruct (drop_pair bits (Z.to_nat y)) as (top & bottom & Ht & Hb & Hd);
      [lia|].
    rewrite <- (Z2Nat.id y) in Heq by lia.
    rewrite (smallLoop_body _ _ _ _ _ _ Ht Hb) in Heq.
    rewrite Hd. cbn [smallLines]. rewrite Heq. reflexivity.
Qed.

(** [ToSmallString] is the recursion on the rows. *)
Lemma ToSmallString_lines (bits : list (list bool)) (inverseColor : bool) :
  ToSmallString bits inverseColor = smallLines bits inverseColor "".
Proof.
  unfold ToSmallString.
  rewrite (smallLoop_lines bits inverseColor 0 "") by (try reflexivity; lia).
  reflexivity.
Qed.






Lemma stringRow_invert (row : list bool) (inverseColor : bool) (buf : string) :
  stringRow (map negb row) (negb inverseColor) buf =
  stringRow row inverseColor buf.
Proof.
  revert buf. induction row as [|b rest IH]; intros buf; [reflexivity|].
  cbn [map stringRow]. rewrite IH.
  destruct b, inverseColor; reflexivity.
Qed.

Lemma lastRow_invert (row : list bool) (inverseColor : bool) (buf : string) :
  lastRow (map negb row) (negb inverseColor) buf =
  lastRow row inverseColor buf.
Proof.
  revert buf. induction row as [|b rest IH]; intros buf; [reflexivity|].
  cbn [map lastRow]. rewrite IH.
  destruct b, inverseColor; reflexivity.
Qed.

Lemma pairLine_invert (top bottom : list bool) (inverseColor : bool)
      (buf : string) :
  pairLine (map negb top) (map negb bottom) (negb inverseColor) buf =
  pairLine top bottom inverseColor buf.
Proof.
  revert bottom buf.
  induction top as [|b rest IH]; intros bottom buf; [reflexivity|].
  destruct bottom as [|b' below]; [reflexivity|].
  cbn [map pairLine]. rewrite IH.
  destruct b, b', inverseColor; reflexivity.
Qed.

(** X21. Inverting every module and the flag [inverseColor] together
    changes neither rendering: [ToString] and [ToSmallString] depend only
    on whether a module differs from [inverseColor]. *)
Theorem renderings_invert (bits : list (list bool)) (inverseColor : bool) :
  ToString (map (map negb) bits) (negb inverseColor) =
    ToString bits inverseColor /\
  ToSmallString (map (map negb) bits) (negb inverseColor) =
    ToSmallString bits inverseColor.
Proof.
  split.
  - unfold ToString. generalize ""%string as buf.
    induction bits as [|row rest IH]; intros buf; [reflexivity|].
    cbn [map stringRows]. rewrite stringRow_invert. apply IH.
  - rewrite !ToSmallString_lines. generalize ""%string as buf.
    induction bits as [|a|top bottom rest IH] using pair_ind; intros buf.
    + reflexivity.
    + cbn [map smallLines]. rewrite lastRow_invert. reflexivity.
    + cbn [map smallLines]. rewrite pairLine_invert.
      destruct (pairLine top bottom inverseColor buf) as [buf'|msg];
        [|reflexivity].
      cbn [rbind]. apply IH.
Qed.

Lemma pairLine_blank_below (row : list bool) (inverseColor : bool) :
  forall (extra : nat) (buf : string),
    pairLine row (repeat (negb inverseColor) (length row + extra))
             inverseColor buf =
    Ok (lastRow row inverseColor buf).
Proof.
  induction row as [|b rest IH]; intros extra buf; [reflexivity|].
  cbn [length plus repeat pairLine lastRow]. rewrite IH.
  destruct b, inverseColor; reflexivity.
Qed.

(** X22. The last row of an odd number of rows is drawn as if a row of
    modules unlike [inverseColor], those drawn as blanks, followed it:
    after an even number of rows, [ToSmallString] gives the same for the
    rows with one more row [row] and with [row] and such a row of the
    same length below it. *)
Theorem ToSmallString_odd_last_row (bits : list (list bool))
        (row : list bool) (inverseColor : bool) :
  Nat.even (length bits) = true ->
  ToSmallString (bits ++ [row]) inverseColor =
  ToSmallString
    (bits ++ [row; repeat (negb inverseColor) (length row)]) inverseColor.
Proof.
  rewrite !ToSmallString_lines. generalize ""%string as buf.
  induction bits as [|a|top bottom rest IH] using pair_ind;
    intros buf Heven.
  - cbn [app smallLines].
    rewrite <- (Nat.add_0_r (length row)), pairLine_blank_below.
    reflexivity.
  - discriminate.
  - cbn [app smallLines].
    destruct (pairLine top bottom inverseColor buf) as [buf'|msg];
      [|destruct rest; reflexivity].
    assert (Hrest : Nat.even (length rest) = true) by exact Heven.
    specialize (IH (WriteString buf' newline) Hrest).
    destruct rest as [|r rest']; cbn [app rbind] in IH |- *; exact IH.
Qed.

Lemma ToSmallString_odd_last_row_witness :
  ToSmallString [[true; false]; [false; true]; [true; false]] false =
  ToSmallString [[true; false]; [false; true]; [true; false]; [true; true]]
                false.
Proof.
  apply (ToSmallString_odd_last_row [[true; false]; [false; true]]
           [true; false] false).
  reflexivity.
Defined.

Lemma append_cons (c : Ascii.ascii) (s t : string) :
  (String c s ++ t)%string = String c (s ++ t)%string.
Proof. reflexivity. Qed.

Lemma stringRow_buf (row : list bool) (inverseColor : bool) (buf : string) :
  stringRow row inverseColor buf =
  (buf ++ stringRow row inverseColor "")%string.
Proof.
  revert buf. induction row as [|b rest IH]; intros buf.
  - cbn [stringRow]. rewrite append_nil_r. reflexivity.
  - cbn [stringRow]. rewrite IH. rewrite (IH (WriteString "" _)).
    unfold WriteString. rewrite append_assoc. reflexivity.
Qed.

Lemma stringRows_buf (bits : list (list bool)) (inverseColor : bool)
      (buf : string) :
  stringRows bits inverseColor buf =
  (buf ++ stringRows bits inverseColor "")%string.
Proof.
  revert buf. induction bits as [|row rest IH]; intros buf.
  - cbn [stringRows]. rewrite append_nil_r. reflexivity.
  - cbn [stringRows]. rewrite IH. rewrite (IH (WriteString _ newline)).
    rewrite (stringRow_buf row inverseColor buf).
    unfold WriteString. rewrite !append_assoc. reflexivity.
Qed.

Lemma ToString_cons (row : list bool) (rest : list (list bool))
      (inverseColor : bool) :
  ToString (row :: rest) inverseColor =
  (stringRow row inverseColor "" ++ (newline ++ ToString rest inverseColor))
    %string.
Proof.
  unfold ToString. cbn [stringRows]. rewrite stringRows_buf.
  unfold WriteString. rewrite append_assoc. reflexivity.
Qed.

Lemma stringRow_cons (b : bool) (rest : list bool) (inverseColor : bool) :
  stringRow (b :: rest) inverseColor "" =
  (moduleGlyph b inverseColor ++ stringRow rest inverseColor "")%string.
Proof. cbn [stringRow]. rewrite stringRow_buf. reflexivity. Qed.

(** A line of [ToString] ends at its first line feed. *)
Lemma stringRow_line_inj (inverseColor : bool) (r r' : list bool)
      (s s' : string) :
  (stringRow r inverseColor "" ++ (newline ++ s))%string =
  (stringRow r' inverseColor "" ++ (newline ++ s'))%string ->
  r = r' /\ s = s'.
Proof.
  revert r'. induction r as [|b r IH]; intros [|b' r'] H.
  - cbn [stringRow] in H. unfold newline in H.
    rewrite !append_cons in H. injection H as H. split; [reflexivity|exact H].
  - exfalso. rewrite stringRow_cons in H. cbn [stringRow] in H.
    unfold newline, moduleGlyph, fullBlock in H.
    destruct (negb (Bool.eqb b' inverseColor));
      rewrite !append_cons in H; discriminate H.
  - exfalso. rewrite stringRow_cons in H. cbn [stringRow] in H.
    unfold newline, moduleGlyph, fullBlock in H.
    destruct (negb (Bool.eqb b inverseColor));
      rewrite !append_cons in H; discriminate H.
  - rewrite !stringRow_cons in H. unfold moduleGlyph, fullBlock in H.
    destruct (negb (Bool.eqb b inverseColor)) eqn:Eb;
      destruct (negb (Bool.eqb b' inverseColor)) eqn:Eb';
      rewrite !append_cons in H; try discriminate H.
    + injection H as H. destruct (IH r' H) as [-> ->].
      split; [|reflexivity]. f_equal.
      destruct b, b', inverseColor; try reflexivity; discriminate.
    + injection H as H. destruct (IH r' H) as [-> ->].
      split; [|reflexivity]. f_equal.
      destruct b, b', inverseColor; try reflexivity; discriminate.
Qed.

Lemma ToString_inj (inverseColor : bool) (bits bits' : list (list bool)) :
  ToString bits inverseColor = ToString bits' inverseColor -> bits = bits'.
Proof.
  revert bits'. induction bits as [|row rest IH]; intros [|row' rest'] H.
  - reflexivity.
  - exfalso. rewrite ToString_cons in H. unfold newline in H.
    destruct (stringRow row' inverseColor ""); discriminate H.
  - exfalso. rewrite ToString_cons in H. unfold newline in H.
    destruct (stringRow row inverseColor ""); discriminate H.
  - rewrite !ToString_cons in H.
    destruct (stringRow_line_inj _ _ _ _ _ H) as [-> Hrest].
    f_equal. apply IH, Hrest.
Qed.

(** X23. [ToString] loses nothing: with the same [inverseColor], two
    bitmaps that differ, in a module or in the length of a row or in the
    number of rows, are drawn as different strings. *)
Theorem ToString_distinguishes (inverseColor : bool)
        (bits bits' : list (list bool)) :
  bits <> bits' ->
  ToString bits inverseColor <> ToString bits' inverseColor.
Proof. intros Hne Heq. apply Hne, (ToString_inj inverseColor), Heq. Qed.

Lemma ToString_distinguishes_witness :
  ToString [[true; false]; []] false <> ToString [[true]; [false]] false.
Proof.
  apply (ToString_distinguishes false [[true; false]; []] [[true]; [false]]).
  discriminate.
Defined.

(** ** [encode] called again *)

Lemma addPadding_length (v : qrCodeVersion) (data_ padded : Bits) :
  addPadding v data_ = Ok padded -> Len padded = numDataBits v.
Proof.
  unfold addPadding. intros H.
  destruct (Z.eqb_spec (Len data_) (numDataBits v)) as [Heq|Hne].
  - injection H as <-. exact Heq.
  - destruct (Z.eqb_spec
                (Len (padCodewords (numDataBits v)
                        (AppendNumBools data_
                           (numBitsToPadToCodeword v (Len data_)) false) 0))
                (numDataBits v)) as [Heq|Hne2]; cbn [negb] in H;
      [|discriminate].
    injection H as <-. exact Heq.
Qed.

Section MaskLoopAgain.

Variable symbol_ : Type.
Variable buildRegularSymbol :
  qrCodeVersion -> Z -> Bits -> bool -> string + symbol_.
Variable numEmptyModules : symbol_ -> Z.
Variable penaltyScore : symbol_ -> Z.
Variable v : qrCodeVersion.
Variable encoded : Bits.
Variable border : bool.

Let loop := maskLoop symbol_ buildRegularSymbol numEmptyModules penaltyScore
                     v encoded border.

(** A mask loop that returns has built a symbol for each of its masks,
    and holds one of them unless it had no mask and no symbol. *)
Lemma maskLoop_ok (l : list Z) (vars vars' : maskVars symbol_) :
  loop l vars = Ok vars' ->
  (forall m, In m l ->
     exists s, buildRegularSymbol v m encoded border = inr s /\
               numEmptyModules s = 0) /\
  (l <> [] \/ mv_symbol _ vars <> None -> mv_symbol _ vars' <> None).
Proof.
  revert vars. induction l as [|m l IH]; intros vars H.
  - cbn in H. injection H as <-. split; [intros m []|].
    intros [Hl|Hs]; [contradiction | exact Hs].
  - unfold loop in H. cbn [maskLoop] in H. unfold maskBody in H at 1.
    destruct (buildRegularSymbol v m encoded border) as [msg|s] eqn:Hb;
      [discriminate|].
    destruct (Z.eqb_spec (numEmptyModules s) 0) as [He|Hne];
      cbn [negb] in H; [|discriminate].
    destruct (isNil (mv_symbol _ vars) || (penaltyScore s <? mv_penalty _ vars))
      eqn:Hif; cbn [rbind] in H; destruct (IH _ H) as [IH1 IH2].
    + split.
      * intros m' [<-|Hin]; [exists s; split; assumption | apply IH1, Hin].
      * intros _. apply IH2. right. cbn. discriminate.
    + split.
      * intros m' [<-|Hin]; [exists s; split; assumption | apply IH1, Hin].
      * intros _. apply IH2. right.
        apply orb_false_iff in Hif. destruct Hif as [Hnil _].
        destruct (mv_symbol _ vars); [discriminate | discriminate Hnil].
Qed.

End MaskLoopAgain.

(** X24. A second [encode] changes nothing. [Bitmap] encodes again at
    every call; when [encode] has returned, no penalty is negative, and
    no terminator bit is asked for a stream that is already full,
    [encode] on the value as the first call left it returns the same
    value: the same stream, symbol and mask. *)
Theorem encode_again
    (symbol_ : Type)
    (buildRegularSymbol : qrCodeVersion -> Z -> Bits -> bool -> string + symbol_)
    (numEmptyModules penaltyScore : symbol_ -> Z)
    (numTerminatorBitsRequired : qrCodeVersion -> Z -> Z)
    (fuel : nat) (q q1 : QRCode.t symbol_) :
  encode symbol_ buildRegularSymbol numEmptyModules penaltyScore
    numTerminatorBitsRequired fuel q = Some (Ok q1) ->
  (forall s, 0 <= penaltyScore s) ->
  numTerminatorBitsRequired (QRCode.version q)
    (numDataBits (QRCode.version q)) <= 0 ->
  encode symbol_ buildRegularSymbol numEmptyModules penaltyScore
    numTerminatorBitsRequired fuel q1 = Some (Ok q1).
Proof.
  intros Hrun Hpos Hterm. unfold encode in Hrun.
  destruct (addPadding _ _) as [padded|msg] eqn:Hpad; [|discriminate].
  apply addPadding_length in Hpad.
  destruct (encodeBlocks fuel _ padded) as [[encoded|msg]|] eqn:Hblk;
    try discriminate.
  injection Hrun as Hrun. unfold encodeMasks in Hrun.
  cbn [QRCode.version QRCode.DisableBorder QRCode.symbol QRCode.mask
       QRCode.data QRCode.Content QRCode.Level QRCode.VersionNumber
       QRCode.encoder] in Hrun.
  destruct (maskLoop _ _ _ _ _ _ _ _ _) as [vars'|msg] eqn:Hloop;
    [|discriminate].
  cbn [rbind] in Hrun. injection Hrun as <-.
  destruct (maskLoop_ok _ _ _ _ _ _ _ _ _ _ Hloop) as [Hall Hsym].
  destruct (mv_symbol _ vars') as [s0|] eqn:Hs0;
    [|exfalso; apply Hsym; [left; discriminate | reflexivity]].
  unfold encode.
  cbn [QRCode.version QRCode.DisableBorder QRCode.symbol QRCode.mask
       QRCode.data QRCode.Content QRCode.Level QRCode.VersionNumber
       QRCode.encoder].
  rewrite Hpad. unfold addTerminatorBits, AppendNumBools.
  replace (Z.to_nat _) with 0%nat by lia. cbn [repeat]. rewrite app_nil_r.
  unfold addPadding. rewrite Hpad, Z.eqb_refl, Hblk.
  f_equal. unfold encodeMasks.
  cbn [QRCode.version QRCode.DisableBorder QRCode.symbol QRCode.mask
       QRCode.data QRCode.Content QRCode.Level QRCode.VersionNumber
       QRCode.encoder].
  destruct (maskLoop_returns symbol_ buildRegularSymbol numEmptyModules
              penaltyScore (QRCode.version q) encoded
              (negb (QRCode.DisableBorder q)) (zrange 8)
              {| mv_symbol := Some s0; mv_mask := mv_mask _ vars';
                 mv_penalty := 0 |}) as (vars2 & Hrun2); [exact Hall|].
  rewrite Hrun2. cbn [rbind].
  apply maskLoop_keeps_choice in Hrun2; [|exact Hpos]. subst vars2.
  reflexivity.
Qed.

Lemma encode_again_witness :
  exists q1,
    encode Z (fun _ k _ _ => inr k) (fun _ => 0) (fun s => Z.abs (s - 4))
      (fun v n => Z.min 4 (numDataBits v - n)) 10
      {| QRCode.Content := [1; 2; 3; 4; 5]; QRCode.Level := Highest;
         QRCode.VersionNumber := 5; QRCode.DisableBorder := false;
         QRCode.encoder := dataEncoderType1To9;
         QRCode.version :=
           {| level := Highest; version := 5;
              block := [ {| numBlocks := 2; numCodewords := 4;
                            numDataCodewords := 2 |};
                         {| numBlocks := 1; numCodewords := 5;
                            numDataCodewords := 3 |} ];
              numRemainderBits := 3 |};
         QRCode.data := AppendBytes [] [1; 2; 3; 4; 5];
         QRCode.symbol := None; QRCode.mask := 0 |} = Some (Ok q1) /\
    QRCode.mask q1 = 4 /\
    encode Z (fun _ k _ _ => inr k) (fun _ => 0) (fun s => Z.abs (s - 4))
      (fun v n => Z.min 4 (numDataBits v - n)) 10 q1 = Some (Ok q1).
Proof.
  eexists. split; [vm_compute; reflexivity|]. split; [reflexivity|].
  apply (encode_again Z (fun _ k _ _ => inr k) (fun _ => 0)
           (fun s => Z.abs (s - 4))
           (fun v n => Z.min 4 (numDataBits v - n)) 10
           {| QRCode.Content := [1; 2; 3; 4; 5]; QRCode.Level := Highest;
              QRCode.VersionNumber := 5; QRCode.DisableBorder := false;
              QRCode.encoder := dataEncoderType1To9;
              QRCode.version :=
                {| level := Highest; version := 5;
                   block := [ {| numBlocks := 2; numCodewords := 4;
                                 numDataCodewords := 2 |};
                              {| numBlocks := 1; numCodewords := 5;
                                 numDataCodewords := 3 |} ];
                   numRemainderBits := 3 |};
              QRCode.data := AppendBytes [] [1; 2; 3; 4; 5];
              QRCode.symbol := None; QRCode.mask := 0 |}).
  - vm_compute. reflexivity.
  - intros s. lia.
  - vm_compute. discriminate.
Defined.
